(** * Grocery scraper API: response parsing, normalisation and aggregation

    A shallow embedding of the text parsers of [scraper/sonar_client.py]
    ([SonarClient._parse_store_response], [_parse_product_response] and
    their helpers), of the key helpers and the [Cache] class of
    [scraper/cache.py], of [LocationService] of
    [scraper/location_service.py], and of the endpoints
    [/products/aggregate], [/sonar/stores] and [/sonar/store/.../details] of
    [main.py] with their address helpers, followed by the properties of the
    specification that are settled against them and by further properties
    of the same code.

    Text is a list of 8-bit characters.  The character tables ([lower],
    [isalnum], [isspace], the classes of the regular expressions) are
    Python's on the ASCII range; a character above 0x7F is carried along
    unchanged and belongs to no class, where Python's tables are Unicode
    (U+00A0 is white space, a capital E-acute has a lower case, a
    full-width digit is a digit).  On ASCII text, [is_ascii], the model
    and Python agree; a statement whose truth depends on the tables is made
    for ASCII text, with [is_ascii] as its hypothesis. *)

From Stdlib Require Import Ascii String Bool Arith Lia ZArith Permutation Sorted List.
Import ListNotations.

Set Implicit Arguments.

(* ================================================================== *)
(** ** Python strings *)
(* ================================================================== *)

Module PyStr.

Definition str := list ascii.

(** A string literal of the source. *)
Definition txt (x : string) : str := list_ascii_of_string x.

Definition dq : ascii := "034"%char.   (* the double quote *)
Definition nl : ascii := "010"%char.   (* the line feed *)

Definition code (c : ascii) : nat := nat_of_ascii c.

Definition is_upper (c : ascii) : bool := (65 <=? code c) && (code c <=? 90).
Definition is_lower (c : ascii) : bool := (97 <=? code c) && (code c <=? 122).
Definition is_digit (c : ascii) : bool := (48 <=? code c) && (code c <=? 57).
Definition is_alpha (c : ascii) : bool := is_upper c || is_lower c.

(** [c.isalnum()], on ASCII characters *)
Definition isalnum (c : ascii) : bool := is_alpha c || is_digit c.

(** [c.isspace()], also the class [\s] of [re], on ASCII characters:
    space, TAB..CR and the four separators 0x1C..0x1F.  (Python's table
    also holds U+0085, U+00A0 and other Unicode white space.) *)
Definition isspace (c : ascii) : bool :=
  (code c =? 32) || ((9 <=? code c) && (code c <=? 13))
  || ((28 <=? code c) && (code c <=? 31)).

Definition lower_char (c : ascii) : ascii :=
  if is_upper c then ascii_of_nat (code c + 32) else c.

Definition upper_char (c : ascii) : ascii :=
  if is_lower c then ascii_of_nat (code c - 32) else c.

(** [s.lower()], on ASCII text *)
Definition lower (s : str) : str := map lower_char s.

(** [s.isascii()] *)
Definition is_ascii (s : str) : bool := forallb (fun c => code c <? 128) s.

Fixpoint str_eqb (a b : str) : bool :=
  match a, b with
  | [], [] => true
  | x :: a', y :: b' => Ascii.eqb x y && str_eqb a' b'
  | _, _ => false
  end.

(** Truth value of a string: non-empty. *)
Definition truthy (s : str) : bool :=
  match s with [] => false | _ :: _ => true end.

(** [s.startswith(p)] *)
Fixpoint startswith (p s : str) : bool :=
  match p, s with
  | [], _ => true
  | x :: p', y :: s' => Ascii.eqb x y && startswith p' s'
  | _ :: _, [] => false
  end.

(** [sub in s] *)
Fixpoint contains (sub s : str) : bool :=
  startswith sub s ||
  match s with
  | [] => false
  | _ :: t => contains sub t
  end.

Fixpoint lstrip (s : str) : str :=
  match s with
  | c :: t => if isspace c then lstrip t else s
  | [] => []
  end.

(** [s.strip()], on ASCII text *)
Definition strip (s : str) : str := rev (lstrip (rev (lstrip s))).

(** [s.replace(old, new)]: occurrences of [old] are replaced from left to
    right without overlap; [skip] counts the characters of a replaced
    occurrence that are still to be passed over. *)
Fixpoint replace_from (old new : str) (skip : nat) (s : str) : str :=
  match s with
  | [] => match old with [] => new | _ :: _ => [] end
  | c :: t =>
      match skip with
      | S k => replace_from old new k t
      | O =>
          if startswith old s then
            match old with
            | [] => new ++ c :: replace_from old new 0 t
            | _ :: _ => new ++ replace_from old new (length old - 1) t
            end
          else c :: replace_from old new 0 t
      end
  end.

Definition replace (old new s : str) : str := replace_from old new 0 s.

(** [s.split(sep)] for a non-empty separator: the head of the result is
    the piece being read. *)
Fixpoint split_from (sep : str) (skip : nat) (s : str) : list str :=
  match s with
  | [] => [[]]
  | c :: t =>
      match skip with
      | S k => split_from sep k t
      | O =>
          if startswith sep s then [] :: split_from sep (length sep - 1) t
          else match split_from sep 0 t with
               | p :: ps => (c :: p) :: ps
               | [] => [[c]]
               end
      end
  end.

Definition split (sep s : str) : list str := split_from sep 0 s.

(** [s.split()]: the maximal runs of non-space characters. *)
Fixpoint split_ws_from (cur : str) (s : str) : list str :=
  match s with
  | [] => match cur with [] => [] | _ :: _ => [rev cur] end
  | c :: t =>
      if isspace c then
        match cur with
        | [] => split_ws_from [] t
        | _ :: _ => rev cur :: split_ws_from [] t
        end
      else split_ws_from (c :: cur) t
  end.

Definition split_ws (s : str) : list str := split_ws_from [] s.

(** [sep.join(pieces)] *)
Fixpoint join (sep : str) (pieces : list str) : str :=
  match pieces with
  | [] => []
  | [x] => x
  | x :: rest => x ++ sep ++ join sep rest
  end.

(** [s.title()], on ASCII text: a cased character is upper-cased when it
    follows an uncased one and lower-cased otherwise. *)
Fixpoint title_from (prev_cased : bool) (s : str) : str :=
  match s with
  | [] => []
  | c :: t =>
      if is_alpha c
      then (if prev_cased then lower_char c else upper_char c) :: title_from true t
      else c :: title_from false t
  end.

Definition title (s : str) : str := title_from false s.

(** Lexicographic order on code points, the order of [sorted] on strings. *)
Fixpoint str_leb (a b : str) : bool :=
  match a, b with
  | [], _ => true
  | _ :: _, [] => false
  | x :: a', y :: b' =>
      if code x <? code y then true
      else if code y <? code x then false
      else str_leb a' b'
  end.

Fixpoint insert_sorted (x : str) (l : list str) : list str :=
  match l with
  | [] => [x]
  | y :: l' => if str_leb x y then x :: l else y :: insert_sorted x l'
  end.

(** [sorted(l)] *)
Definition sorted (l : list str) : list str := fold_right insert_sorted [] l.

End PyStr.
Import PyStr.

(* ================================================================== *)
(** ** The fragment of [re] the parsers use *)
(* ================================================================== *)

Module Re.

(** Patterns: repetition is only ever applied to a character class. *)
Inductive regex : Type :=
| Eps
| Cls (p : ascii -> bool)
| Seq (a b : regex)
| Alt (a b : regex)
| Opt (a : regex)
| Star (p : ascii -> bool)
| Plus (p : ascii -> bool).

(** Greedy [p*] followed by the continuation [k]: the longest run is tried
    first, then shorter ones. *)
Fixpoint star_k {A : Type} (p : ascii -> bool) (k : str -> option A) (s : str)
  : option A :=
  match s with
  | c :: t =>
      if p c then
        match star_k p k t with
        | Some r => Some r
        | None => k s
        end
      else k s
  | [] => k s
  end.

(** Backtracking matcher at the head of [s]; [k] receives what is left. *)
Fixpoint rmatch {A : Type} (r : regex) (s : str) (k : str -> option A)
  : option A :=
  match r with
  | Eps => k s
  | Cls p =>
      match s with
      | c :: t => if p c then k t else None
      | [] => None
      end
  | Seq a b => rmatch a s (fun s' => rmatch b s' k)
  | Alt a b =>
      match rmatch a s k with
      | Some x => Some x
      | None => rmatch b s k
      end
  | Opt a =>
      match rmatch a s k with
      | Some x => Some x
      | None => k s
      end
  | Star p => star_k p k s
  | Plus p =>
      match s with
      | c :: t => if p c then star_k p k t else None
      | [] => None
      end
  end.

(** What is left of [s] after a match at its head. *)
Definition match_at (r : regex) (s : str) : option str := rmatch r s (@Some str).

(** [re.search(r, s).group(0)]: the leftmost match. *)
Fixpoint search (r : regex) (s : str) : option str :=
  match match_at r s with
  | Some rest => Some (firstn (length s - length rest) s)
  | None =>
      match s with
      | [] => None
      | _ :: t => search r t
      end
  end.

Definition chr (c : ascii) : regex := Cls (Ascii.eqb c).

(** A letter under [re.IGNORECASE]. *)
Definition chr_ci (c : ascii) : regex :=
  Cls (fun x => Ascii.eqb (lower_char x) (lower_char c)).

Fixpoint lit (s : str) : regex :=
  match s with
  | [] => Eps
  | c :: t => Seq (chr c) (lit t)
  end.

Fixpoint lit_ci (s : str) : regex :=
  match s with
  | [] => Eps
  | c :: t => Seq (chr_ci c) (lit_ci t)
  end.

(** [(?:a|b|...)] under [re.IGNORECASE]; the alternatives are tried in order. *)
Fixpoint alts_ci (l : list str) : regex :=
  match l with
  | [] => Cls (fun _ => false)
  | [x] => lit_ci x
  | x :: rest => Alt (lit_ci x) (alts_ci rest)
  end.

Definition nonspace (c : ascii) : bool := negb (isspace c).

(** The pattern [\$( \d+ \.? \d* )] (written here with blanks between
    its parts). *)
Definition price_pattern : regex :=
  Seq (chr "$"%char) (Seq (Plus is_digit) (Seq (Opt (chr "."%char)) (Star is_digit))).

(** The pattern [https?://[^\s]+\.(?:jpg|jpeg|png|gif|webp|svg)] under
    [re.IGNORECASE]. *)
Definition image_pattern : regex :=
  Seq (lit_ci (txt "http")) (Seq (Opt (chr_ci "s"%char)) (Seq (lit_ci (txt "://"))
    (Seq (Plus nonspace) (Seq (chr "."%char)
      (alts_ci (map txt ["jpg"; "jpeg"; "png"; "gif"; "webp"; "svg"]%string)))))).

(** The pattern [https?://[^\s]+]. *)
Definition url_pattern : regex :=
  Seq (lit (txt "http")) (Seq (Opt (chr "s"%char)) (Seq (lit (txt "://")) (Plus nonspace))).

(** The pattern [( \d+ \s* (?:oz|ounce|gallon|pack|count|fl oz|ml|l) )]
    under [re.IGNORECASE] (written here with blanks between its parts; the
    blank of [fl oz] is part of the pattern). *)
Definition size_pattern : regex :=
  Seq (Plus is_digit) (Seq (Star isspace)
    (alts_ci (map txt ["oz"; "ounce"; "gallon"; "pack"; "count"; "fl oz"; "ml"; "l"]%string))).

End Re.

(* ================================================================== *)
(** ** Exceptions and local state *)
(* ================================================================== *)

Inductive exn : Type :=
| ValueError
| TimeoutError
| ConnectionError
| HTTPException (status_code : Z).

(** What evaluating a Python expression gives: a value or a raised exception. *)
Inductive outcome (A : Type) : Type :=
| Val (a : A)
| Exc (e : exn).

Arguments Val {A} a.
Arguments Exc {A} e.

Definition obind {A B : Type} (c : outcome A) (k : A -> outcome B) : outcome B :=
  match c with
  | Val a => k a
  | Exc e => Exc e
  end.

Notation "x <~ c ;; k" := (obind c (fun x => k))
  (at level 61, c at next level, right associativity).

(** A computation over a mutable store [S]: what was written to the store
    before an exception is raised stays written. *)
Definition M (S A : Type) : Type := S -> outcome A * S.

Definition ret {S A : Type} (a : A) : M S A := fun s => (Val a, s).

Definition bind {S A B : Type} (c : M S A) (k : A -> M S B) : M S B :=
  fun s =>
    match c s with
    | (Val a, s') => k a s'
    | (Exc e, s') => (Exc e, s')
    end.

Definition raise {S A : Type} (e : exn) : M S A := fun s => (Exc e, s).
Definition get {S : Type} : M S S := fun s => (Val s, s).
Definition put {S : Type} (s : S) : M S unit := fun _ => (Val tt, s).
Definition lift {S A : Type} (c : outcome A) : M S A := fun s => (c, s).

(** [try: body except Exception as e: handler e] *)
Definition try_except {S A : Type} (body : M S A) (handler : exn -> M S A) : M S A :=
  fun s =>
    match body s with
    | (Val a, s') => (Val a, s')
    | (Exc e, s') => handler e s'
    end.

Notation "x <- c ;; k" := (bind c (fun x => k))
  (at level 61, c at next level, right associativity).
Notation "c ;;; k" := (bind c (fun _ => k))
  (at level 61, right associativity).

Fixpoint for_each {S A : Type} (l : list A) (body : A -> M S unit) : M S unit :=
  match l with
  | [] => ret tt
  | x :: l' => body x ;;; for_each l' body
  end.

(** A loop that carries a local variable from one iteration to the next. *)
Fixpoint fold_m {S A V : Type} (l : list A) (body : V -> A -> M S V) (v : V) : M S V :=
  match l with
  | [] => ret v
  | x :: l' => v' <- body v x ;; fold_m l' body v'
  end.

Fixpoint fold_o {A V : Type} (l : list A) (body : V -> A -> outcome V) (v : V)
  : outcome V :=
  match l with
  | [] => Val v
  | x :: l' => v' <~ body v x ;; fold_o l' body v'
  end.

(** [any(k in s for k in keywords)] *)
Definition any_in (keywords : list str) (s : str) : bool :=
  existsb (fun k => contains k s) keywords.

Definition is_nil {A : Type} (l : list A) : bool :=
  match l with [] => true | _ :: _ => false end.

Definition is_some {A : Type} (o : option A) : bool :=
  match o with Some _ => true | None => false end.

(* ================================================================== *)
(** ** [scraper/sonar_client.py]: the parsers of [SonarClient] *)
(* ================================================================== *)

Module Sonar.

(** *** Product records *)

(** The value stored under ['price']: [float(...)] of the matched decimal
    literal (kept as that literal), or the raw text. *)
Inductive price_value : Type :=
| PriceNum (literal : str)
| PriceText (raw : str).

(** The dict of one product; an absent key is [None]. *)
Record product : Type := mk_product {
  name : option str;
  brand : option str;
  price : option price_value;
  size : option str;
  category : option str;
  availability : option str;
  description : option str;
  image_url : option str;
  deals : option str;
  product_url : option str
}.

Definition empty_product : product :=
  mk_product None None None None None None None None None None.

Definition set_name (v : str) (p : product) : product :=
  mk_product (Some v) (brand p) (price p) (size p) (category p)
             (availability p) (description p) (image_url p) (deals p) (product_url p).
Definition set_brand (v : str) (p : product) : product :=
  mk_product (name p) (Some v) (price p) (size p) (category p)
             (availability p) (description p) (image_url p) (deals p) (product_url p).
Definition set_price (v : price_value) (p : product) : product :=
  mk_product (name p) (brand p) (Some v) (size p) (category p)
             (availability p) (description p) (image_url p) (deals p) (product_url p).
Definition set_size (v : str) (p : product) : product :=
  mk_product (name p) (brand p) (price p) (Some v) (category p)
             (availability p) (description p) (image_url p) (deals p) (product_url p).
Definition set_category (v : str) (p : product) : product :=
  mk_product (name p) (brand p) (price p) (size p) (Some v)
             (availability p) (description p) (image_url p) (deals p) (product_url p).
Definition set_availability (v : str) (p : product) : product :=
  mk_product (name p) (brand p) (price p) (size p) (category p)
             (Some v) (description p) (image_url p) (deals p) (product_url p).
Definition set_description (v : str) (p : product) : product :=
  mk_product (name p) (brand p) (price p) (size p) (category p)
             (availability p) (Some v) (image_url p) (deals p) (product_url p).
Definition set_image_url (v : str) (p : product) : product :=
  mk_product (name p) (brand p) (price p) (size p) (category p)
             (availability p) (description p) (Some v) (deals p) (product_url p).
Definition set_deals (v : str) (p : product) : product :=
  mk_product (name p) (brand p) (price p) (size p) (category p)
             (availability p) (description p) (image_url p) (Some v) (product_url p).

(** *** The prompt template and the literals the parser compares with *)

Inductive field : Type :=
| PRODUCT | BRAND | PRICE | SIZE | CATEGORY | AVAILABILITY | DESCRIPTION
| IMAGE_URL | DEALS.

Definition quoted (s : string) : str := dq :: txt s ++ [dq].

(** The bracketed literal the prompt of [search_products] writes after each
    field marker. *)
Definition template_placeholder (f : field) : str :=
  match f with
  | PRODUCT => txt "[Product Name]"
  | BRAND => txt "[Brand Name]"
  | PRICE => txt "[Price with $ symbol, or " ++ quoted "Price not available" ++ txt "]"
  | SIZE => txt "[Size/quantity, e.g., " ++ quoted "32 oz" ++ txt ", "
            ++ quoted "1 gallon" ++ txt ", " ++ quoted "12 pack" ++ txt "]"
  | CATEGORY => txt "[Product category, e.g., " ++ quoted "Dairy" ++ txt ", "
                ++ quoted "Beverages" ++ txt ", " ++ quoted "Organic" ++ txt "]"
  | AVAILABILITY => txt "[in stock/out of stock/limited]"
  | DESCRIPTION => txt "[Brief product description]"
  | IMAGE_URL => txt "[Actual product image URL from store website, or "
                 ++ quoted "N/A" ++ txt " if not found]"
  | DEALS => txt "[Any current deals, discounts, or " ++ quoted "None" ++ txt "]"
  end.

(** The literal [_parse_product_response] compares each field value with. *)
Definition parser_placeholder (f : field) : str :=
  match f with
  | IMAGE_URL => txt "[Product image URL if available, or " ++ quoted "N/A" ++ txt "]"
  | PRODUCT => txt "[Product Name]"
  | BRAND => txt "[Brand Name]"
  | PRICE => txt "[Price with $ symbol, or " ++ quoted "Price not available" ++ txt "]"
  | SIZE => txt "[Size/quantity, e.g., " ++ quoted "32 oz" ++ txt ", "
            ++ quoted "1 gallon" ++ txt ", " ++ quoted "12 pack" ++ txt "]"
  | CATEGORY => txt "[Product category, e.g., " ++ quoted "Dairy" ++ txt ", "
                ++ quoted "Beverages" ++ txt ", " ++ quoted "Organic" ++ txt "]"
  | AVAILABILITY => txt "[in stock/out of stock/limited]"
  | DESCRIPTION => txt "[Brief product description]"
  | DEALS => txt "[Any current deals, discounts, or " ++ quoted "None" ++ txt "]"
  end.

Definition marker (f : field) : str :=
  match f with
  | PRODUCT => txt "PRODUCT:"
  | BRAND => txt "BRAND:"
  | PRICE => txt "PRICE:"
  | SIZE => txt "SIZE:"
  | CATEGORY => txt "CATEGORY:"
  | AVAILABILITY => txt "AVAILABILITY:"
  | DESCRIPTION => txt "DESCRIPTION:"
  | IMAGE_URL => txt "IMAGE_URL:"
  | DEALS => txt "DEALS:"
  end.

(** [line.replace('KEY:', '').strip()] *)
Definition field_value (key line : str) : str := strip (replace key [] line).

(** [v and v != literal and len(v) > 0] *)
Definition accepted (v literal : str) : bool :=
  truthy v && negb (str_eqb v literal) && (0 <? length v).

(** *** [float] on the literals the price pattern captures *)

Fixpoint drop_digits (s : str) : str :=
  match s with
  | c :: t => if is_digit c then drop_digits t else s
  | [] => []
  end.

(** Plain decimal literals: digits, then possibly a dot and digits. *)
Definition decimal_literal (s : str) : bool :=
  match s with
  | c :: _ =>
      is_digit c &&
      match drop_digits s with
      | [] => true
      | d :: fraction => Ascii.eqb d "." && forallb is_digit fraction
      end
  | [] => false
  end.

(** [float(s)] on the texts the price pattern captures.  The value is
    kept as the literal it is read from: [Val s] stands for the float that
    Python reads from [s], which two literals may share and which is [inf]
    for a literal of several hundred digits; nothing below compares or
    bounds such values.  Only plain decimal literals are modelled, every
    other argument counts as a [ValueError]. *)
Definition float (s : str) : outcome str :=
  if decimal_literal s then Val s else Exc ValueError.

(** [m.group(1)] of a match of the price pattern: what follows the dollar sign. *)
Definition group1 (m : str) : str := tl m.

(** *** [_parse_product_response], one line *)

(** The line is stripped of ASCII white space, as everywhere. *)

Definition parse_product_line (current_product : product) (raw_line : str)
  : outcome product :=
  let line := strip raw_line in
  if negb (truthy line) then Val current_product
  else if startswith (marker PRODUCT) line then
    let product_name := field_value (marker PRODUCT) line in
    Val (if accepted product_name (parser_placeholder PRODUCT)
         then set_name product_name current_product else current_product)
  else if startswith (marker BRAND) line then
    let brand := field_value (marker BRAND) line in
    Val (if accepted brand (parser_placeholder BRAND)
         then set_brand brand current_product else current_product)
  else if startswith (marker PRICE) line then
    let price_text := field_value (marker PRICE) line in
    if accepted price_text (parser_placeholder PRICE) then
      match Re.search Re.price_pattern price_text with
      | Some price_match =>
          v <~ float (group1 price_match) ;;
          Val (set_price (PriceNum v) current_product)
      | None => Val (set_price (PriceText price_text) current_product)
      end
    else Val current_product
  else if startswith (marker SIZE) line then
    let size := field_value (marker SIZE) line in
    Val (if accepted size (parser_placeholder SIZE)
         then set_size size current_product else current_product)
  else if startswith (marker CATEGORY) line then
    let category := field_value (marker CATEGORY) line in
    Val (if accepted category (parser_placeholder CATEGORY)
         then set_category category current_product else current_product)
  else if startswith (marker AVAILABILITY) line then
    let availability := field_value (marker AVAILABILITY) line in
    Val (if accepted availability (parser_placeholder AVAILABILITY)
         then set_availability availability current_product else current_product)
  else if startswith (marker DESCRIPTION) line then
    let description := field_value (marker DESCRIPTION) line in
    Val (if accepted description (parser_placeholder DESCRIPTION)
         then set_description description current_product else current_product)
  else if startswith (marker IMAGE_URL) line then
    let image_url := field_value (marker IMAGE_URL) line in
    Val (if accepted image_url (parser_placeholder IMAGE_URL)
            && negb (str_eqb image_url (txt "N/A"))
         then set_image_url image_url current_product else current_product)
  else
    match Re.search Re.image_pattern line, image_url current_product with
    | Some url_match, None => Val (set_image_url url_match current_product)
    | _, _ =>
        if startswith (marker DEALS) line then
          let deals := field_value (marker DEALS) line in
          Val (if accepted deals (parser_placeholder DEALS)
               then set_deals deals current_product else current_product)
        else Val current_product
    end.

(** *** [_parse_products_by_patterns], the fallback scanner *)

Definition brand_keywords : list str :=
  map txt ["oatly"; "chobani"; "silk"; "almond"; "soy"; "milk"]%string.
Definition status_keywords : list str :=
  map txt ["in stock"; "available"; "out of stock"; "unavailable"; "limited"]%string.
Definition deal_keywords : list str :=
  map txt ["discount"; "sale"; "off"; "deal"; "promotion"]%string.
Definition product_page_domains : list str :=
  map txt ["target.com"; "walmart.com"; "amazon.com"; "kroger.com"]%string.

(** [not current_product.get('name')] *)
Definition lacks_name (p : product) : bool :=
  match name p with
  | Some n => negb (truthy n)
  | None => true
  end.

(** The loop body; the store is the local list [products]. *)
Definition pattern_line (current_product : product) (raw_line : str)
  : M (list product) product :=
  let line := strip raw_line in
  if negb (truthy line) then
    if is_some (name current_product)
    then ps <- get ;; put (ps ++ [current_product]) ;;; ret empty_product
    else ret current_product
  else if any_in brand_keywords (lower line) then
    ret (if lacks_name current_product then set_name line current_product
         else current_product)
  else
    match Re.search Re.price_pattern line with
    | Some price_match =>
        v <- lift (float (group1 price_match)) ;;
        ret (set_price (PriceNum v) current_product)
    | None =>
        if any_in status_keywords (lower line) then
          ret (set_availability line current_product)
        else if any_in deal_keywords (lower line) then
          ret (set_deals line current_product)
        else
          match Re.search Re.size_pattern line with
          | Some size_match => ret (set_size size_match current_product)
          | None =>
              match Re.search Re.image_pattern line with
              | Some image_match => ret (set_image_url image_match current_product)
              | None =>
                  match Re.search Re.url_pattern line, image_url current_product with
                  | Some url, None =>
                      ret (if any_in product_page_domains (lower url)
                           then set_image_url url current_product
                           else current_product)
                  | _, _ => ret current_product
                  end
              end
          end
    end.

Definition _parse_products_by_patterns (response : str) : M (list product) (list product) :=
  try_except
    (current_product <- fold_m (split [nl] response) pattern_line empty_product ;;
     if is_some (name current_product)
     then ps <- get ;; put (ps ++ [current_product])
     else ret tt)
    (fun _ => ret tt) ;;;
  get.

(** *** [_parse_product_response] *)

(** One section: its lines fill a fresh dict, which is appended when it has
    a name. *)
Definition parse_section (section : str) : M (list product) unit :=
  current_product <-
    lift (fold_o (split [nl] (strip section)) parse_product_line empty_product) ;;
  if is_some (name current_product)
  then products <- get ;; put (products ++ [current_product])
  else ret tt.

(** The store is the local [products], initially empty.  The body of the
    [try] answers [Some l] when it executes [return l] and [None] when it
    runs to its end, in which case [return products] follows. *)
Definition _parse_product_response (response : str) : M (list product) (list product) :=
  r <- try_except
         (if contains (txt "no products found") (lower response) then ret (Some [])
          else
            for_each (split [nl; nl] response) parse_section ;;;
            products <- get ;;
            (if is_nil products
             then match _parse_products_by_patterns response [] with
                  | (Val l, _) => put l
                  | (Exc e, _) => raise e
                  end
             else ret tt) ;;;
            ret None)
         (fun _ => ret None) ;;
  match r with
  | Some l => ret l
  | None => get
  end.

(** *** Store records *)

(** [StoreLocation] of [scraper/models.py].  The fields the parser never
    assigns ([distance_miles], [city], [state], [phone], [hours]) keep
    their default [None] and are left out.  [website] is not a declared
    field of the model: it only exists on an instance when the model class
    accepts undeclared attributes. *)
Record StoreLocation : Type := mk_store {
  store_id : str;
  store_name : str;
  zipcode : option str;
  status : str;
  address : option str;
  services : option (list str);
  website : option str
}.

Definition set_address (v : str) (s : StoreLocation) : StoreLocation :=
  mk_store (store_id s) (store_name s) (zipcode s) (status s) (Some v)
           (services s) (website s).
Definition set_services (v : list str) (s : StoreLocation) : StoreLocation :=
  mk_store (store_id s) (store_name s) (zipcode s) (status s) (address s)
           (Some v) (website s).
Definition set_status (v : str) (s : StoreLocation) : StoreLocation :=
  mk_store (store_id s) (store_name s) (zipcode s) v (address s)
           (services s) (website s).
Definition set_website (v : str) (s : StoreLocation) : StoreLocation :=
  mk_store (store_id s) (store_name s) (zipcode s) (status s) (address s)
           (services s) (Some v).

(** [StoreLocation(store_id=..., store_name=..., zipcode=..., status="active")] *)
Definition new_store (id nm zip : str) : StoreLocation :=
  mk_store id nm (Some zip) (txt "active") None None None.

(** [_create_store_id], on ASCII names: [lower] and [isalnum] are the
    ASCII tables, so a letter of another script, which Python keeps and
    lower-cases, is dropped here. *)
Definition _create_store_id (store_name : str) : str :=
  let clean_name := lower store_name in
  let clean_name :=
    replace (txt "&") (txt "and")
      (replace (txt "'") (txt "")
        (replace (txt "-") (txt "_")
          (replace (txt " ") (txt "_") clean_name))) in
  let clean_name :=
    filter (fun c => isalnum c || Ascii.eqb c "_") clean_name in
  join (txt "_") (filter truthy (split (txt "_") clean_name)).

Definition known_services : list str :=
  map txt ["delivery"; "pickup"; "curbside"; "in-store"; "online"]%string.

(** [_parse_services_from_text] *)
Definition _parse_services_from_text (services_text : str) : list str :=
  if negb (truthy services_text) then []
  else
    filter (fun service => existsb (str_eqb service) known_services)
           (map (fun service => lower (strip service))
                (split (txt ",") services_text)).

Definition store_names : list str :=
  map txt ["Giant Eagle"; "Wegmans"; "ALDI"; "Albertsons"; "ShopRite";
           "Walmart"; "Target"; "Kroger"; "Safeway"; "Publix";
           "Whole Foods"; "Trader Joe's"; "Sprouts"; "Food Lion";
           "Meijer"; "Hy-Vee"; "Stop & Shop"; "Giant"; "Shoppers";
           "Harris Teeter"]%string.

(** [_extract_stores_by_patterns], the fallback scanner *)
Definition _extract_stores_by_patterns (text zipcode : str) : list StoreLocation :=
  let text_lower := lower text in
  map (fun store_name =>
         new_store
           (replace (txt "-") (txt "")
              (replace (txt "'") (txt "")
                 (replace (txt " ") (txt "") (lower store_name))))
           store_name zipcode)
      (filter (fun store_name => contains (lower store_name) text_lower) store_names).

Definition store_placeholder : str := txt "[Store Name]".
Definition address_placeholder : str :=
  txt "[Complete street address with city, state, zip]".
Definition services_placeholder : str :=
  txt "[comma-separated list: delivery, pickup, curbside, in-store]".
Definition website_placeholder : str :=
  txt "[full URL if available, or " ++ quoted "N/A" ++ txt "]".
Definition status_placeholder : str := txt "[open/closed/temporarily closed]".

Section StoreParsing.

(** Whether the model class accepts an attribute it does not declare
    (pydantic's [extra = "allow"]); by default it does not, and the
    assignment raises [ValueError]. *)
Variable allow_extra : bool.

(** [current_store.website = website] *)
Definition assign_website (website : str) (current_store : StoreLocation)
  : outcome StoreLocation :=
  if allow_extra then Val (set_website website current_store)
  else Exc ValueError.

(** The loop body of [_extract_structured_stores]: the local list [stores]
    and the local [current_store]. *)
Definition store_line (st : list StoreLocation * option StoreLocation)
    (zipcode raw_line : str)
  : outcome (list StoreLocation * option StoreLocation) :=
  let '(stores, current_store) := st in
  let line := strip raw_line in
  if negb (truthy line) then Val st
  else if startswith (txt "STORE:") line then
    let store_name := field_value (txt "STORE:") line in
    if accepted store_name store_placeholder then
      let stores :=
        match current_store with
        | Some s => stores ++ [s]
        | None => stores
        end in
      Val (stores, Some (new_store (_create_store_id store_name) store_name zipcode))
    else Val st
  else
    match current_store with
    | None => Val st
    | Some s =>
        if startswith (txt "ADDRESS:") line then
          let address := field_value (txt "ADDRESS:") line in
          Val (if accepted address address_placeholder
                  && negb (startswith (txt "-") address)
               then (stores, Some (set_address address s)) else st)
        else if startswith (txt "SERVICES:") line then
          let services_text := field_value (txt "SERVICES:") line in
          Val (if accepted services_text services_placeholder
               then let services := _parse_services_from_text services_text in
                    if is_nil services then st
                    else (stores, Some (set_services services s))
               else st)
        else if startswith (txt "WEBSITE:") line then
          let website := field_value (txt "WEBSITE:") line in
          if accepted website website_placeholder
             && negb (str_eqb website (txt "N/A"))
          then s' <~ assign_website website s ;; Val (stores, Some s')
          else Val st
        else if startswith (txt "STATUS:") line then
          let status := field_value (txt "STATUS:") line in
          Val (if accepted status status_placeholder
               then (stores, Some (set_status status s)) else st)
        else Val st
    end.

Definition store_section (zipcode : str) (stores : list StoreLocation) (section : str)
  : outcome (list StoreLocation) :=
  st <~ fold_o (split [nl] (strip section))
               (fun st raw_line => store_line st zipcode raw_line)
               (stores, None) ;;
  match st with
  | (stores, Some s) => Val (stores ++ [s])
  | (stores, None) => Val stores
  end.

(** [_extract_structured_stores] *)
Definition _extract_structured_stores (response zipcode : str)
  : outcome (list StoreLocation) :=
  stores <~ fold_o (split [nl; nl] response) (store_section zipcode) [] ;;
  Val (if is_nil stores then _extract_stores_by_patterns response zipcode
       else stores).

(** The dict [unique_stores] in insertion order: a store is entered when
    its [store_id] is not a key yet. *)
Definition has_key (k : str) (unique_stores : list (str * StoreLocation)) : bool :=
  existsb (fun kv => str_eqb k (fst kv)) unique_stores.

Definition remember (unique_stores : list (str * StoreLocation)) (store : StoreLocation)
  : list (str * StoreLocation) :=
  if has_key (store_id store) unique_stores then unique_stores
  else unique_stores ++ [(store_id store, store)].

Definition unique_values (stores : list StoreLocation) : list StoreLocation :=
  map snd (fold_left remember stores []).

(** What [stores] holds when the duplicates are about to be removed. *)
Definition stores_found (response zipcode : str) : M (list StoreLocation) unit :=
  found <- lift (_extract_structured_stores response zipcode) ;;
  put found ;;;
  stores <- get ;;
  if is_nil stores then put (_extract_stores_by_patterns response zipcode)
  else ret tt.

(** [_parse_store_response]; the store is the local [stores], initially
    empty. *)
Definition _parse_store_response (response zipcode : str)
  : M (list StoreLocation) (list StoreLocation) :=
  try_except
    (stores_found response zipcode ;;;
     stores <- get ;;
     put (unique_values stores))
    (fun _ => ret tt) ;;;
  get.

End StoreParsing.

(** *** The parser contract of the specification *)

Inductive kind : Type := Store | Product.

Inductive ParsedRecord : Type :=
| StoreRecord (s : StoreLocation)
| ProductRecord (p : product).

(** [parse(text, kind)]: the value the parsing method returns, or the
    exception that leaves it. *)
Definition parse (allow_extra : bool) (zipcode : str) (text : str) (k : kind)
  : outcome (list ParsedRecord) :=
  match k with
  | Store =>
      l <~ fst (_parse_store_response allow_extra text zipcode []) ;;
      Val (map StoreRecord l)
  | Product =>
      l <~ fst (_parse_product_response text []) ;;
      Val (map ProductRecord l)
  end.

(** The primary identifier of a record. *)
Definition primary_id (r : ParsedRecord) : option str :=
  match r with
  | StoreRecord s => Some (store_id s)
  | ProductRecord p => name p
  end.

End Sonar.

(* ================================================================== *)
(** ** [scraper/cache.py]: the key helpers *)
(* ================================================================== *)

Module Cache.

(** [_normalize_query], on ASCII queries *)
Definition _normalize_query (query : str) : str :=
  join (txt " ") (split_ws (strip (lower query))).

Section Keys.

(** [hashlib.sha1(value.encode("utf-8")).hexdigest()] is taken as given. *)
Variable sha1_hex : str -> str.

(** [products_key] *)
Definition products_key (zipcode query : str) (store_ids_sorted : list str)
    (enhance : bool) : str :=
  let normalized_query := _normalize_query query in
  let qhash := sha1_hex normalized_query in
  let set_hash :=
    sha1_hex (if is_nil store_ids_sorted then txt "__none__"
              else join (txt ",") (sorted store_ids_sorted)) in
  txt "products:zip:" ++ zipcode ++ txt ":q:" ++ qhash ++ txt ":stores:"
  ++ set_hash ++ txt ":enh:" ++ (if enhance then txt "1" else txt "0").

End Keys.

End Cache.

(* ================================================================== *)
(** ** [main.py]: the endpoint [/products/aggregate] *)
(* ================================================================== *)

Module Main.

(** *** The data of one aggregation *)

(** An element of [all_offers]. *)
Record offer : Type := mk_offer {
  store_id : str;
  store_name : str;
  name : option str;
  brand : option str;
  size : option str;
  price : option Sonar.price_value;
  availability : option str;
  image_url : option str;
  product_url : option str;
  source : list str
}.

(** An element of the ["offers"] list of a group. *)
Record store_offer : Type := mk_store_offer {
  o_store_id : str;
  o_store_name : str;
  o_price : option Sonar.price_value;
  o_availability : option str;
  o_product_url : option str;
  o_source : list str
}.

Record canonical_product : Type := mk_canonical {
  c_name : option str;
  c_brand : option str;
  c_size : option str;
  images : list str
}.

Record group : Type := mk_group {
  canonical : canonical_product;
  offers : list store_offer
}.

(** The ["cache"] entry of a response. *)
Record cache_info : Type := mk_cache_info {
  hit : bool;
  near_stale : option bool
}.

Record response : Type := mk_response {
  r_query : str;
  r_zipcode : str;
  stores_considered : list str;
  results : list group;
  r_source : str;
  cache : option cache_info
}.

Definition with_cache (r : response) (c : cache_info) : response :=
  mk_response (r_query r) (r_zipcode r) (stores_considered r) (results r)
              (r_source r) (Some c).

(** *** The normaliser *)

(** [(s or "")] *)
Definition or_empty (s : option str) : str :=
  match s with
  | Some v => v
  | None => []
  end.

Definition norm_text (s : option str) : str := strip (lower (or_empty s)).

Definition norm_name (name : option str) : str :=
  let n := norm_text name in
  let n :=
    fold_left (fun n token => replace (txt " " ++ token ++ txt " ") (txt " ") n)
              (map txt ["brand"; "original"; "the"]%string) n in
  let n := replace (txt "-") (txt " ") n in
  join (txt " ") (split_ws n).

Definition norm_size (size : option str) : str :=
  let s := norm_text size in
  let s :=
    replace (txt "ounce") (txt "oz")
      (replace (txt "ounces") (txt "oz")
        (replace (txt "fluid ounce") (txt "fl oz")
          (replace (txt "fluid ounces") (txt "fl oz") s))) in
  let s := replace (txt "fl-oz") (txt "fl oz") (replace (txt "fl. oz") (txt "fl oz") s) in
  let s :=
    replace (txt "ct") (txt "count")
      (replace (txt " ct") (txt " count")
        (replace (txt "packs") (txt "pack") s)) in
  join (txt " ") (split_ws s).

(** [gkey] of an offer *)
Definition gkey (o : offer) : str :=
  join (txt "|") [norm_text (brand o); norm_name (name o); norm_size (size o)].

(** *** Grouping: the dict [grouped], in insertion order *)

(** [[o.get("image_url")] if o.get("image_url") else []] *)
Definition first_images (o : offer) : list str :=
  match image_url o with
  | Some u => if truthy u then [u] else []
  | None => []
  end.

Definition new_group (o : offer) : group :=
  mk_group (mk_canonical (name o) (brand o) (size o) (first_images o)) [].

Definition offer_entry (o : offer) : store_offer :=
  mk_store_offer (store_id o) (store_name o) (price o) (availability o)
                 (product_url o) (source o).

Definition has_key (k : str) (grouped : list (str * group)) : bool :=
  existsb (fun kv => str_eqb k (fst kv)) grouped.

(** [grouped[k]["offers"].append(e)] *)
Definition append_offer (k : str) (e : store_offer) (grouped : list (str * group))
  : list (str * group) :=
  map (fun kv =>
         if str_eqb k (fst kv)
         then (fst kv, mk_group (canonical (snd kv)) (offers (snd kv) ++ [e]))
         else kv)
      grouped.

(** The body of [for o in all_offers]. *)
Definition add_offer (grouped : list (str * group)) (o : offer) : list (str * group) :=
  let k := gkey o in
  let grouped :=
    if has_key k grouped then grouped else grouped ++ [(k, new_group o)] in
  append_offer k (offer_entry o) grouped.

Definition group_offers (all_offers : list offer) : list (str * group) :=
  fold_left add_offer all_offers [].


(** *** The collaborators and what is observed of them *)

(** The collaborators of one call.  Each answers with a value or raises;
    [search_products] stands for the primary source under its twenty-second
    [asyncio.wait_for], so a timeout is one of its exceptions.  A cached
    payload is a response dict, which is never empty, hence true. *)
Record world : Type := mk_world {
  sha1_hex : str -> str;
  get_nearby_stores : str -> outcome (list Sonar.StoreLocation);
  cache_get_json : str -> outcome (option response);
  cache_ttl_seconds : str -> outcome (option Z);
  cache_set_json : str -> response -> Z -> outcome unit;
  search_products : str -> str -> str -> bool -> outcome (list Sonar.product);
  serper_is_available : bool;
  search_shopping_products : str -> str -> str -> outcome (list Sonar.product)
}.

(** A call to a collaborator. *)
Inductive io_event : Type :=
| NearbyStores (zipcode : str)
| CacheGet (key : str)
| CacheTtl (key : str)
| CacheSet (key : str)
| PrimarySearch (store_name : str)
| SecondarySearch (store_name : str).

(** The calls made so far, oldest first. *)
Definition trace : Type := list io_event.

Definition call {A : Type} (ev : io_event) (answer : outcome A) : M trace A :=
  fun tr => (answer, tr ++ [ev]).

(** *** The endpoint *)

Definition all_digits (l : list ascii) : bool := forallb is_digit l.

(** [re.match(r"^\d{5}$", zipcode)] on ASCII text: five digits up to the
    end of the string, where [$] also matches just before a final line
    feed.  (On other text the class [\d] also holds the decimal digits of
    other scripts.) *)
Definition zipcode_ok (zipcode : str) : bool :=
  match zipcode with
  | [_; _; _; _; _] => all_digits zipcode
  | [a; b; c; d; e; last] => all_digits [a; b; c; d; e] && Ascii.eqb last nl
  | _ => false
  end.

(** [[s.strip().lower() for s in stores.split(",") if s.strip()]] under
    [if stores:] *)
Definition user_store_ids (stores : option str) : list str :=
  match stores with
  | Some st =>
      if truthy st
      then map (fun s => lower (strip s))
               (filter (fun s => truthy (strip s)) (split (txt ",") st))
      else []
  | None => []
  end.

Definition store_name_mapping : list (str * str) :=
  [(txt "whole_foods", txt "Whole Foods Market");
   (txt "sams_club", txt "Sam's Club");
   (txt "trader_joes", txt "Trader Joe's");
   (txt "ahold_delhaize", txt "Stop & Shop")].

Definition to_store_name (store_id : str) : str :=
  match find (fun kv => str_eqb store_id (fst kv)) store_name_mapping with
  | Some kv => snd kv
  | None => title (replace (txt "_") (txt " ") store_id)
  end.

(** One task of the fan-out; [gather(..., return_exceptions=True)] keeps
    what it raised as its result. *)
Definition fetch_store (w : world) (query zipcode : str) (enhance : bool)
    (store_id : str) : M trace (outcome (list Sonar.product)) :=
  fun tr =>
    (Val (search_products w query (to_store_name store_id) zipcode enhance),
     tr ++ [PrimarySearch (to_store_name store_id)]).

Fixpoint gather {A B : Type} (task : A -> M trace B) (l : list A) : M trace (list B) :=
  match l with
  | [] => ret []
  | x :: l' => r <- task x ;; rs <- gather task l' ;; ret (r :: rs)
  end.

Definition sonar_offer (store_id store_name : str) (p : Sonar.product) : offer :=
  mk_offer store_id store_name (Sonar.name p) (Sonar.brand p) (Sonar.size p)
           (Sonar.price p) (Sonar.availability p) (Sonar.image_url p)
           (Sonar.product_url p) [txt "perplexity_sonar"].

Definition serper_offer (store_id store_name : str) (sp : Sonar.product) : offer :=
  mk_offer store_id store_name (Sonar.name sp) None None
           (Sonar.price sp) (Sonar.availability sp) (Sonar.image_url sp)
           (Sonar.product_url sp) [txt "serper_shopping"].

(** The body of [for idx, res in enumerate(raw_results)], on the pair of
    [considered_store_ids[idx]] and [res]; the loop variable is
    [all_offers]. *)
Definition collect (w : world) (query : str) (all_offers : list offer)
    (entry : str * outcome (list Sonar.product)) : M trace (list offer) :=
  let '(store_id, res) := entry in
  match res with
  | Exc _ => ret all_offers
  | Val products =>
      let store_name := to_store_name store_id in
      if is_nil products && serper_is_available w then
        try_except
          (serper_products <-
             call (SecondarySearch store_name)
                  (search_shopping_products w query store_name (txt "United States")) ;;
           ret (all_offers ++ map (serper_offer store_id store_name) serper_products))
          (fun _ => ret all_offers)
      else ret (all_offers ++ map (sonar_offer store_id store_name) products)
  end.

(** The fan-out and the loop that fills [all_offers]. *)
Definition offers_collected (w : world) (query zipcode : str) (enhance : bool)
    (considered_store_ids : list str) : M trace (list offer) :=
  raw_results <- gather (fetch_store w query zipcode enhance) considered_store_ids ;;
  fold_m (combine considered_store_ids raw_results) (collect w query) [].

(** [60 * 60 * 4] *)
Definition products_ttl : Z := 14400.

(** [isinstance(ttl, int) and ttl > 0 and ttl < (60 * 60 * 4 * 0.2)] *)
Definition is_near_stale (ttl : option Z) : bool :=
  match ttl with
  | Some t => (0 <? t)%Z && (t <? 2880)%Z
  | None => false
  end.

(** The statements inside the [try] of [aggregate_products]. *)
Definition aggregate_body (w : world) (query zipcode : str) (stores : option str)
    (enhance : bool) : M trace response :=
  if negb (zipcode_ok zipcode) then raise (HTTPException 400)
  else
    let user_store_ids := user_store_ids stores in
    nearby <- call (NearbyStores zipcode) (get_nearby_stores w zipcode) ;;
    let considered_store_ids :=
      if is_nil user_store_ids
      then firstn 10 (map Sonar.store_id nearby)
      else firstn 10 user_store_ids in
    let key := Cache.products_key (sha1_hex w) zipcode query considered_store_ids enhance in
    cached <- call (CacheGet key) (cache_get_json w key) ;;
    match cached with
    | Some payload =>
        ttl <- call (CacheTtl key) (cache_ttl_seconds w key) ;;
        ret (with_cache payload (mk_cache_info true (Some (is_near_stale ttl))))
    | None =>
        all_offers <- offers_collected w query zipcode enhance considered_store_ids ;;
        let response :=
          mk_response query zipcode considered_store_ids
                      (map snd (group_offers all_offers))
                      (txt "aggregate(sonar)") None in
        call (CacheSet key) (cache_set_json w key response products_ttl) ;;;
        ret (with_cache response (mk_cache_info false None))
    end.

(** [aggregate_products]: an [HTTPException] passes, any other exception
    becomes the status 500.  The parameter [radius_miles] is not used by
    the source and is left out. *)
Definition aggregate_products (w : world) (query zipcode : str) (stores : option str)
    (enhance : bool) : M trace response :=
  try_except
    (aggregate_body w query zipcode stores enhance)
    (fun e =>
       match e with
       | HTTPException status_code => raise (HTTPException status_code)
       | _ => raise (HTTPException 500)
       end).

End Main.

(* ================================================================== *)
(** ** Sample inputs *)
(* ================================================================== *)

Module Samples.
Import Main.

(** A text given line by line. *)
Definition text_of_lines (lines : list string) : str := join [nl] (map txt lines).

(** The same product as two stores and two sources describe it. *)
Definition silk_at_target : offer :=
  mk_offer (txt "target") (txt "Target")
           (Some (txt "Silk Original")) (Some (txt "Silk")) (Some (txt "59 Ounces"))
           (Some (Sonar.PriceNum (txt "5.99"))) (Some (txt "in stock"))
           (Some (txt "https://img.example/target-silk.jpg")) None
           [txt "perplexity_sonar"].

Definition silk_at_whole_foods : offer :=
  mk_offer (txt "whole_foods") (txt "Whole Foods Market")
           (Some (txt "  silk-original ")) (Some (txt "SILK ")) (Some (txt "59 oz"))
           (Some (Sonar.PriceText (txt "$5.49"))) None
           (Some (txt "https://img.example/wf-silk.png")) None
           [txt "serper_shopping"].

Definition oatly : Sonar.product :=
  Sonar.mk_product (Some (txt "Oatly Original")) (Some (txt "Oatly"))
                   (Some (Sonar.PriceNum (txt "4.99"))) (Some (txt "32 oz"))
                   None (Some (txt "in stock")) None None None None.

Definition silk : Sonar.product :=
  Sonar.mk_product (Some (txt "Silk Original")) (Some (txt "Silk"))
                   (Some (Sonar.PriceNum (txt "5.99"))) (Some (txt "59 oz"))
                   None None None None None None.

(** Collaborators for the allowlist [target,walmart,kroger]: the primary
    source answers for Target and Kroger and times out for Walmart; nothing
    is cached, no store is discovered, the secondary source is not
    configured, the hash is a stand-in; the cache write answers
    [set_answer]. *)
Definition one_timeout (set_answer : outcome unit) : world :=
  mk_world
    (fun s => s)
    (fun _ => Val [])
    (fun _ => Val None)
    (fun _ => Val None)
    (fun _ _ _ => set_answer)
    (fun _ store_name _ _ =>
       if str_eqb store_name (txt "Walmart") then Exc TimeoutError
       else if str_eqb store_name (txt "Target") then Val [oatly; silk]
       else if str_eqb store_name (txt "Kroger") then Val [silk]
       else Val [])
    false
    (fun _ _ _ => Val []).

(** A response that fills in the product name and echoes the template of
    the prompt for the image URL. *)
Definition image_echo : str :=
  join [nl] [txt "PRODUCT: Oat Milk";
             txt "IMAGE_URL: " ++ Sonar.template_placeholder Sonar.IMAGE_URL].

(** A response that lists the same product name in two sections. *)
Definition same_name_twice : str :=
  text_of_lines ["PRODUCT: Oat Milk"; "PRICE: $4.99"; "";
                 "PRODUCT: Oat Milk"; "PRICE: $5.49"]%string.

(** A store response that lists the same store in two sections. *)
Definition same_store_twice : str :=
  text_of_lines ["STORE: Giant Eagle"; "ADDRESS: 5550 Centre Ave, Pittsburgh, PA 15232"; "";
                 "STORE: Giant Eagle"; "ADDRESS: 4250 Murray Ave, Pittsburgh, PA 15217"]%string.

(** A store response with a website line. *)
Definition store_with_website : str :=
  text_of_lines ["STORE: Giant Eagle"; "WEBSITE: https://www.gianteagle.com";
                 "STATUS: open"]%string.

End Samples.

(* ================================================================== *)
(** ** [int] on strings *)
(* ================================================================== *)

Module PyInt.

(** The blanks [int] strips: space and TAB..CR. *)
Definition int_space (c : ascii) : bool :=
  (code c =? 32) || ((9 <=? code c) && (code c <=? 13)).

Fixpoint lstrip_int (s : str) : str :=
  match s with
  | c :: t => if int_space c then lstrip_int t else s
  | [] => []
  end.

Definition digit_value (c : ascii) : Z := Z.of_nat (code c - 48).

(** Digits, with single underscores allowed between two digits. *)
Fixpoint int_digits (acc : Z) (after_underscore : bool) (s : str) : option Z :=
  match s with
  | [] => if after_underscore then None else Some acc
  | c :: t =>
      if is_digit c then int_digits (10 * acc + digit_value c) false t
      else if Ascii.eqb c "_" && negb after_underscore then int_digits acc true t
      else None
  end.

Definition int_unsigned (s : str) : option Z :=
  match s with
  | c :: t => if is_digit c then int_digits (digit_value c) false t else None
  | [] => None
  end.

(** [sys.get_int_max_str_digits()], CPython's default. *)
Definition max_str_digits : Z := 4300.

(** [int(s)] on ASCII text: blanks around, an optional sign, digits;
    anything else is a [ValueError], and so is a text with more digits
    (leading zeros counted, underscores and the sign not) than
    [max_str_digits]. *)
Definition int (s : str) : outcome Z :=
  let body := rev (lstrip_int (rev (lstrip_int s))) in
  let signed :=
    match body with
    | c :: t =>
        if Ascii.eqb c "-" then option_map Z.opp (int_unsigned t)
        else if Ascii.eqb c "+" then int_unsigned t
        else int_unsigned body
    | [] => None
    end in
  match signed with
  | Some n =>
      if (max_str_digits <? Z.of_nat (length (filter is_digit body)))%Z
      then Exc ValueError
      else Val n
  | None => Exc ValueError
  end.

End PyInt.

(* ================================================================== *)
(** ** [scraper/location_service.py]: [LocationService] *)
(* ================================================================== *)

Module LocationService.

(** [_initialize_store_coverage]: the dict in insertion order. *)
Definition initial_store_coverage : list (str * list str) :=
  [(txt "gianteagle",
    map txt ["15000-16999"; "43000-45999"; "25000-26999"; "46000-47999";
             "21000-21999"]%string);
   (txt "wegmans",
    map txt ["10000-14999"; "15000-16999"; "07000-08999"; "22000-22999";
             "21000-21999"; "01000-02799"; "27000-28999"]%string);
   (txt "aldi", map txt ["00000-99999"]%string);
   (txt "albertsons", map txt ["00000-99999"]%string);
   (txt "shoprite",
    map txt ["10000-14999"; "15000-16999"; "07000-08999"; "01000-02799";
             "06000-06999"]%string)].

(** The ["name"] entries of [SUPPORTED_STORES] in [scraper/config.py]. *)
Definition SUPPORTED_STORES : list (str * str) :=
  [(txt "gianteagle", txt "Giant Eagle");
   (txt "wegmans", txt "Wegmans");
   (txt "aldi", txt "ALDI");
   (txt "albertsons", txt "Albertsons");
   (txt "shoprite", txt "ShopRite")].

(** [start, end = map(int, range_str.split("-"))]: a [ValueError] unless
    there are exactly two parts and both are integers. *)
Definition range_bounds (range_str : str) : outcome (Z * Z) :=
  match split (txt "-") range_str with
  | [a; b] => lo <~ PyInt.int a ;; hi <~ PyInt.int b ;; Val (lo, hi)
  | a :: _ => _ <~ PyInt.int a ;; Exc ValueError
  | [] => Exc ValueError
  end.

(** [_zipcode_in_range] *)
Fixpoint _zipcode_in_range (zipcode : Z) (ranges : list str) : outcome bool :=
  match ranges with
  | [] => Val false
  | range_str :: rest =>
      if str_eqb range_str (txt "00000-99999") then Val true
      else
        bounds <~ range_bounds range_str ;;
        if (fst bounds <=? zipcode)%Z && (zipcode <=? snd bounds)%Z then Val true
        else _zipcode_in_range zipcode rest
  end.

(** The Sonar client as the service sees it. *)
Record sonar : Type := mk_sonar {
  is_available : bool;
  search_stores : str -> outcome (list Sonar.StoreLocation)
}.

(** [store_info.get("name", store_id.title())] *)
Definition store_display_name (store_id : str) : str :=
  match find (fun kv => str_eqb store_id (fst kv)) SUPPORTED_STORES with
  | Some kv => snd kv
  | None => title store_id
  end.

(** The loop over [self.store_coverage.items()]; the loop variable is
    [available_stores]. *)
Definition static_coverage (store_coverage : list (str * list str))
    (zipcode : str) (zipcode_int : Z) : outcome (list Sonar.StoreLocation) :=
  fold_o store_coverage
    (fun available_stores entry =>
       covered <~ _zipcode_in_range zipcode_int (snd entry) ;;
       Val (if covered
            then available_stores
                 ++ [Sonar.new_store (fst entry) (store_display_name (fst entry)) zipcode]
            else available_stores))
    [].

(** The statements inside the [try] of [get_stores_for_zipcode]. *)
Definition stores_for_zipcode_body (sc : sonar) (store_coverage : list (str * list str))
    (zipcode : str) : outcome (list Sonar.StoreLocation) :=
  sonar_stores <~ (if is_available sc then search_stores sc zipcode else Val []) ;;
  if negb (is_nil sonar_stores) then Val sonar_stores
  else
    zipcode_int <~ PyInt.int zipcode ;;
    static_coverage store_coverage zipcode zipcode_int.

(** [get_stores_for_zipcode]: both handlers return the empty list. *)
Definition get_stores_for_zipcode (sc : sonar) (store_coverage : list (str * list str))
    (zipcode : str) : outcome (list Sonar.StoreLocation) :=
  match stores_for_zipcode_body sc store_coverage zipcode with
  | Val stores => Val stores
  | Exc _ => Val []
  end.

(** [get_nearby_stores]; the radius is not used. *)
Definition get_nearby_stores (sc : sonar) (store_coverage : list (str * list str))
    (zipcode : str) : outcome (list Sonar.StoreLocation) :=
  get_stores_for_zipcode sc store_coverage zipcode.

(** [validate_zipcode] *)
Definition validate_zipcode (zipcode : str) : bool := Main.zipcode_ok zipcode.

End LocationService.

(* ================================================================== *)
(** ** [scraper/cache.py]: the other keys and the [Cache] class *)
(* ================================================================== *)

Module CacheClient.

(** [stores_key] *)
Definition stores_key (zipcode : str) : str := txt "stores:zip:" ++ zipcode.

Section RawKey.

Variable sha1_hex : str -> str.

(** [raw_source_key] *)
Definition raw_source_key (zipcode store_id query source : str) : str :=
  let normalized_query := Cache._normalize_query query in
  let qhash := sha1_hex normalized_query in
  txt "raw:zip:" ++ zipcode ++ txt ":store:" ++ store_id ++ txt ":q:" ++ qhash
  ++ txt ":src:" ++ source.

End RawKey.

Section Client.

(** The stored bytes and the cached values; [zlib] and [json] are taken as
    given, and may raise. *)
Variables blob value : Type.
Variable _compress_json : value -> outcome blob.
Variable _decompress_json : blob -> outcome value.

(** The Redis client, as far as [Cache] uses it. *)
Record redis : Type := mk_redis {
  redis_get : str -> outcome (option blob);
  redis_set : str -> blob -> Z -> outcome unit;
  redis_ttl : str -> outcome Z
}.

(** [Cache.get_json]; [client] is [None] when no URL is configured. *)
Definition get_json (client : option redis) (key : str) : outcome (option value) :=
  match client with
  | None => Val None
  | Some c =>
      data <~ redis_get c key ;;
      match data with
      | None => Val None
      | Some b => v <~ _decompress_json b ;; Val (Some v)
      end
  end.

(** [Cache.set_json] *)
Definition set_json (client : option redis) (key : str) (obj : value) (ttl_seconds : Z)
  : outcome unit :=
  match client with
  | None => Val tt
  | Some c => b <~ _compress_json obj ;; redis_set c key b ttl_seconds
  end.

(** [Cache.ttl_seconds] *)
Definition ttl_seconds (client : option redis) (key : str) : outcome (option Z) :=
  match client with
  | None => Val None
  | Some c => t <~ redis_ttl c key ;; Val (Some t)
  end.

End Client.

End CacheClient.

(* ================================================================== *)
(** ** [main.py]: the address helpers *)
(* ================================================================== *)

Module Addresses.

(** What a part of a pattern consumed: the text before what is left. *)
Definition consumed (s rest : str) : str := firstn (length s - length rest) s.

(** A pattern given as consecutive parts, some of which are groups; the
    groups are collected in order.  A part that fails makes the matcher of
    the part before it try its next alternative. *)
Fixpoint match_parts {A : Type} (parts : list (bool * Re.regex)) (s : str)
    (groups : list str) (k : list str -> str -> option A) : option A :=
  match parts with
  | [] => k groups s
  | (is_group, r) :: rest =>
      Re.rmatch r s
        (fun s' =>
           match_parts rest s'
             (if is_group then groups ++ [consumed s s'] else groups) k)
  end.

(** [re.search]: the groups of the leftmost match. *)
Fixpoint search_groups (parts : list (bool * Re.regex)) (s : str) : option (list str) :=
  match match_parts parts s [] (fun groups _ => Some groups) with
  | Some groups => Some groups
  | None =>
      match s with
      | [] => None
      | _ :: t => search_groups parts t
      end
  end.

Definition not_comma (c : ascii) : bool := negb (Ascii.eqb c ",").

(** The pattern [( [^,]+ ) , \s* ( [A-Z]{2} ) \s+ \d{5}] (written here with
    blanks between its parts). *)
Definition city_pattern : list (bool * Re.regex) :=
  [(true, Re.Plus not_comma);
   (false, Re.Seq (Re.chr ",") (Re.Star isspace));
   (true, Re.Seq (Re.Cls is_upper) (Re.Cls is_upper));
   (false, Re.Seq (Re.Plus isspace)
             (Re.Seq (Re.Cls is_digit) (Re.Seq (Re.Cls is_digit) (Re.Seq (Re.Cls is_digit)
               (Re.Seq (Re.Cls is_digit) (Re.Cls is_digit))))))].

(** [extract_city_from_address] *)
Definition extract_city_from_address (address : str) : option str :=
  if negb (truthy address) then None
  else
    match search_groups city_pattern address with
    | Some groups => Some (strip (nth 0 groups []))
    | None => None
    end.

(** [extract_state_from_address] *)
Definition extract_state_from_address (address : str) : option str :=
  if negb (truthy address) then None
  else
    match search_groups city_pattern address with
    | Some groups => Some (strip (nth 1 groups []))
    | None => None
    end.

End Addresses.

(* ================================================================== *)
(** ** [main.py]: the endpoints [/sonar/stores] and [/sonar/store/.../details] *)
(* ================================================================== *)

Module StoreEndpoints.

(** The ["location"] entry of a store. *)
Record location_entry : Type := mk_location {
  l_zipcode : option str;
  l_city : option str;
  l_state : option str
}.

(** An element of ["stores"]. *)
Record store_entry : Type := mk_store_entry {
  e_store_id : str;
  e_store_name : str;
  e_address : option str;
  e_services : option (list str);
  e_status : str;
  e_zipcode : option str;
  e_website : option str;
  e_location : location_entry
}.

(** The payload that is cached; its ["source"] and ["api_version"] are
    constants and left out. *)
Record payload : Type := mk_payload {
  p_zipcode : str;
  stores_found : nat;
  search_timestamp : str;
  stores : list store_entry
}.

Record response : Type := mk_response {
  body : payload;
  cache_hit : bool
}.

(** [... if store.address else None] *)
Definition when_address {A : Type} (address : option str) (f : str -> option A)
  : option A :=
  match address with
  | Some a => if truthy a then f a else None
  | None => None
  end.

Definition entry_of (store : Sonar.StoreLocation) : store_entry :=
  mk_store_entry (Sonar.store_id store) (Sonar.store_name store)
    (Sonar.address store) (Sonar.services store) (Sonar.status store)
    (Sonar.zipcode store) (Sonar.website store)
    (mk_location (Sonar.zipcode store)
       (when_address (Sonar.address store) Addresses.extract_city_from_address)
       (when_address (Sonar.address store) Addresses.extract_state_from_address)).

Definition payload_of (zipcode timestamp : str) (found : list Sonar.StoreLocation)
  : payload :=
  mk_payload zipcode (length found) timestamp (map entry_of found).

(** [{c.strip().lower() for c in chains.split(',') if c.strip()}] *)
Definition requested_chains (chains : str) : list str :=
  map (fun c => lower (strip c))
      (filter (fun c => truthy (strip c)) (split (txt ",") chains)).

(** The answer under [if chains:]: the stores whose id is requested. *)
Definition filter_chains (chains : option str) (p : payload) : payload :=
  match chains with
  | Some ch =>
      if truthy ch then
        let filtered :=
          filter (fun e => existsb (str_eqb (e_store_id e)) (requested_chains ch))
                 (stores p) in
        mk_payload (p_zipcode p) (length filtered) (search_timestamp p) filtered
      else p
  | None => p
  end.

(** A call to a collaborator, or a reading of the clock. *)
Inductive event : Type :=
| CacheGet (key : str)
| CacheSet (key : str) (written : payload)
| SearchStores (zipcode : str)
| Clock.

(** The collaborators; the clock may answer differently at each reading. *)
Record world : Type := mk_world {
  cache_get_json : str -> outcome (option payload);
  cache_set_json : str -> payload -> Z -> outcome unit;
  sonar_available : bool;
  search_stores : str -> outcome (list Sonar.StoreLocation);
  now_isoformat : list event -> str
}.

(** The events so far and the local variable [stores], unbound at first. *)
Record frame : Type := mk_frame {
  events : list event;
  stores_var : option (list Sonar.StoreLocation)
}.

Definition call {A : Type} (ev : event) (answer : outcome A) : M frame A :=
  fun f => (answer, mk_frame (events f ++ [ev]) (stores_var f)).

(** [datetime.now().isoformat()] *)
Definition read_clock (w : world) : M frame str :=
  fun f => (Val (now_isoformat w (events f)), mk_frame (events f ++ [Clock]) (stores_var f)).

Definition bind_stores (found : list Sonar.StoreLocation) : M frame unit :=
  fun f => (Val tt, mk_frame (events f) (Some found)).

(** [try: body finally: final]: [final] runs whatever [body] did, and
    its own exception, if any, replaces the outcome. *)
Definition try_finally {S A : Type} (body : M S A) (final : M S unit) : M S A :=
  fun s =>
    match body s with
    | (r, s') =>
        match final s' with
        | (Val _, s'') => (r, s'')
        | (Exc e, s'') => (Exc e, s'')
        end
    end.

(** [60*60*24] *)
Definition stores_ttl : Z := 86400.

(** The statements inside the outer [try] of [get_sonar_stores]. *)
Definition stores_body (w : world) (zipcode : str) (chains : option str)
  : M frame response :=
  let key := CacheClient.stores_key zipcode in
  cached <- call (CacheGet key) (cache_get_json w key) ;;
  match cached with
  | Some p => ret (mk_response (filter_chains chains p) true)
  | None =>
      if negb (sonar_available w) then raise (HTTPException 503)
      else
        found <- call (SearchStores zipcode) (search_stores w zipcode) ;;
        bind_stores found ;;;
        timestamp <- read_clock w ;;
        let response_payload := payload_of zipcode timestamp found in
        call (CacheSet key response_payload)
             (cache_set_json w key response_payload stores_ttl) ;;;
        ret (mk_response (filter_chains chains response_payload) false)
  end.

(** The statements inside the [try] of the [finally] block. *)
Definition stores_final (w : world) (zipcode : str) : M frame unit :=
  f <- get ;;
  match stores_var f with
  | Some found =>
      timestamp <- read_clock w ;;
      let payload := payload_of zipcode timestamp found in
      call (CacheSet (CacheClient.stores_key zipcode) payload)
           (cache_set_json w (CacheClient.stores_key zipcode) payload stores_ttl)
  | None => ret tt
  end.

(** [get_sonar_stores] *)
Definition get_sonar_stores (w : world) (zipcode : str) (chains : option str)
  : M frame response :=
  try_finally
    (try_except (stores_body w zipcode chains)
                (fun _ => raise (HTTPException 500)))
    (try_except (stores_final w zipcode) (fun _ => ret tt)).

Section Details.

(** The dict [get_store_details] answers with. *)
Variable details : Type.

Record details_response : Type := mk_details_response {
  d_store_name : str;
  d_location : str;
  d_details : details
}.

(** [location or zipcode or ""] *)
Definition resolved (location zipcode : option str) : str :=
  match location with
  | Some l => if truthy l then l else Main.or_empty zipcode
  | None => Main.or_empty zipcode
  end.

(** [get_sonar_store_details] *)
Definition get_sonar_store_details (available : bool)
    (get_store_details : str -> str -> outcome details)
    (store_name : str) (location zipcode : option str) : outcome details_response :=
  match
    (if negb available then Exc (HTTPException 503)
     else
       let resolved_location := resolved location zipcode in
       if negb (truthy resolved_location) then Exc (HTTPException 400)
       else
         d <~ get_store_details store_name resolved_location ;;
         Val (mk_details_response store_name resolved_location d))
  with
  | Val r => Val r
  | Exc _ => Exc (HTTPException 500)
  end.

End Details.

End StoreEndpoints.

(* ================================================================== *)
(** ** The text fields of a product record *)
(* ================================================================== *)

Module Shape.

(** [current_product.get(key)] for the key that a line of the field
    assigns, when the value is a text; a price that was converted by
    [float] is no text. *)
Definition field_text (f : Sonar.field) (p : Sonar.product) : option str :=
  match f with
  | Sonar.PRODUCT => Sonar.name p
  | Sonar.BRAND => Sonar.brand p
  | Sonar.PRICE =>
      match Sonar.price p with
      | Some (Sonar.PriceText raw) => Some raw
      | _ => None
      end
  | Sonar.SIZE => Sonar.size p
  | Sonar.CATEGORY => Sonar.category p
  | Sonar.AVAILABILITY => Sonar.availability p
  | Sonar.DESCRIPTION => Sonar.description p
  | Sonar.IMAGE_URL => Sonar.image_url p
  | Sonar.DEALS => Sonar.deals p
  end.


End Shape.

(* ================================================================== *)
(** ** More sample inputs *)
(* ================================================================== *)

Module MoreSamples.
Import Main.



(** Collaborators whose store discovery raises. *)
Definition discovery_down : world :=
  mk_world
    (fun s => s)
    (fun _ => Exc ConnectionError)
    (fun _ => Val None)
    (fun _ => Val None)
    (fun _ _ _ => Val tt)
    (fun _ _ _ _ => Val [])
    false
    (fun _ _ _ => Val []).

End MoreSamples.

(* ================================================================== *)
(** ** Sample collaborators of the store endpoints *)
(* ================================================================== *)

Module StoreSamples.
Import StoreEndpoints.

Definition found_stores : list Sonar.StoreLocation :=
  [Sonar.set_address (txt "5550 Centre Ave, Pittsburgh, PA 15232")
     (Sonar.new_store (txt "giant_eagle") (txt "Giant Eagle") (txt "15232"));
   Sonar.new_store (txt "aldi") (txt "ALDI") (txt "15232")].

(** A clock that tells how many events came before the reading. *)
Definition clock (before : list event) : str :=
  if length before =? 2 then txt "2025-08-27T09:52:26" else txt "2025-08-27T09:52:27".

(** Collaborators with the given cache entry under every key; a cache
    write succeeds only for a payload stamped at the first reading of the
    clock. *)
Definition collaborators (cached : option payload) (available : bool) : world :=
  mk_world
    (fun _ => Val cached)
    (fun _ written _ =>
       if str_eqb (search_timestamp written) (txt "2025-08-27T09:52:26")
       then Val tt else Exc ConnectionError)
    available
    (fun _ => Val found_stores)
    clock.


End StoreSamples.

(* ================================================================== *)
(** ** The services as [main.py] wires them, without a Redis URL *)
(* ================================================================== *)

Module Wiring.

(** [zlib] and [json] on the cached responses, for a sample: they are not
    reached when there is no client. *)
Definition sample_compress (obj : Main.response) : outcome unit := Val tt.
Definition sample_decompress (blob : unit) : outcome Main.response := Exc ValueError.

(** [location_service = LocationService()] with a Sonar client that has
    no API key, [cache = Cache()] with no [REDIS_URL], and source clients
    that time out. *)
Definition no_redis : Main.world :=
  Main.mk_world
    (fun s => s)
    (LocationService.get_nearby_stores
       (LocationService.mk_sonar false (fun _ => Exc ConnectionError))
       LocationService.initial_store_coverage)
    (CacheClient.get_json sample_decompress None)
    (CacheClient.ttl_seconds (blob := unit) None)
    (CacheClient.set_json sample_compress None)
    (fun _ _ _ _ => Exc TimeoutError)
    false
    (fun _ _ _ => Exc TimeoutError).

End Wiring.

(* ================================================================== *)
(** * Properties *)
(* ================================================================== *)

(** ** Strings *)

Lemma ascii_eqb_true (a b : ascii) : Ascii.eqb a b = true <-> a = b.
Proof. apply Ascii.eqb_eq. Qed.

Lemma str_eqb_eq (a b : str) : str_eqb a b = true <-> a = b.
Proof.
  revert b; induction a as [|x a IH]; intros [|y b]; simpl; split; intro H;
    try reflexivity; try discriminate.
  - apply andb_true_iff in H as [Hx Hr].
    apply ascii_eqb_true in Hx. apply IH in Hr. congruence.
  - injection H as -> ->. apply andb_true_iff. split.
    + apply Ascii.eqb_refl.
    + apply IH. reflexivity.
Qed.

Lemma str_eqb_refl (a : str) : str_eqb a a = true.
Proof. apply str_eqb_eq. reflexivity. Qed.


(** ** Lists *)

Module ListFacts.

Lemma find_app_some {A : Type} (f : A -> bool) (l l' : list A) (x : A) :
  find f l = Some x -> find f (l ++ l') = Some x.
Proof.
  induction l as [|y l IH]; simpl; [discriminate|].
  destruct (f y); [trivial | exact IH].
Qed.

Lemma find_app_none {A : Type} (f : A -> bool) (l l' : list A) :
  find f l = None -> find f (l ++ l') = find f l'.
Proof.
  induction l as [|y l IH]; simpl; [reflexivity|].
  destruct (f y); [discriminate | exact IH].
Qed.

Lemma NoDup_snoc {A : Type} (l : list A) (a : A) :
  NoDup l -> ~ In a l -> NoDup (l ++ [a]).
Proof.
  induction 1 as [|x l Hx Hl IH]; intros Hno; simpl.
  - constructor; [intros [] | constructor].
  - constructor.
    + intros Hin. apply in_app_or in Hin as [Hin|[E|[]]]; [contradiction|].
      subst a. apply Hno. left. reflexivity.
    + apply IH. intros Hin. apply Hno. right. exact Hin.
Qed.

Lemma NoDup_map_Some {A : Type} (l : list A) : NoDup l -> NoDup (map Some l).
Proof.
  induction 1 as [|x l Hx _ IH]; simpl; constructor; [|exact IH].
  intros Hin. apply in_map_iff in Hin as [y [E Hy]]. injection E as ->. contradiction.
Qed.

End ListFacts.

(** ** Exceptions *)

Module MonadFacts.

(** A [try] whose handler returns lets no exception out. *)
Lemma try_except_ret {S A : Type} (body : M S A) (v : A) (s : S) :
  exists a s', try_except body (fun _ => ret v) s = (Val a, s').
Proof.
  unfold try_except, ret. destruct (body s) as [[a|e] s']; eexists; eexists; reflexivity.
Qed.

End MonadFacts.

(** ** Grouping *)

Module GroupingFacts.
Import Main.

Lemma has_key_true (k : str) (G : list (str * group)) :
  has_key k G = true <-> exists g, In (k, g) G.
Proof.
  unfold has_key. rewrite existsb_exists. split.
  - intros [[k' g] [Hin E]]. simpl in E. apply str_eqb_eq in E. subst k'.
    exists g. exact Hin.
  - intros [g Hin]. exists (k, g). split; [exact Hin | apply str_eqb_refl].
Qed.









Lemma group_offers_snoc (l : list offer) (o : offer) :
  group_offers (l ++ [o]) = add_offer (group_offers l) o.
Proof. unfold group_offers. rewrite fold_left_app. reflexivity. Qed.



End GroupingFacts.



Module CanonicalFacts.
Import Main GroupingFacts.









End CanonicalFacts.




(** ** The endpoint *)

Module EndpointFacts.
Import Main.

Section Run.

Variable w : world.
Variables query zipcode : str.
Variable enhance : bool.

(** The answer of the primary source for a store. *)
Let primary (sid : str) : outcome (list Sonar.product) :=
  search_products w query (to_store_name sid) zipcode enhance.

Let secondary (sid : str) : outcome (list Sonar.product) :=
  search_shopping_products w query (to_store_name sid) (txt "United States").

Lemma gather_fetch (l : list str) (tr : trace) :
  gather (fetch_store w query zipcode enhance) l tr
  = (Val (map primary l), tr ++ map (fun sid => PrimarySearch (to_store_name sid)) l).
Proof.
  revert tr. induction l as [|sid l IH]; intros tr; simpl.
  - unfold ret. rewrite app_nil_r. reflexivity.
  - unfold bind at 1. unfold fetch_store at 1.
    unfold bind at 1. rewrite IH. unfold ret.
    rewrite <- app_assoc. reflexivity.
Qed.

Lemma combine_map {A B : Type} (f : A -> B) (l : list A) :
  combine l (map f l) = map (fun x => (x, f x)) l.
Proof. induction l as [|x l IH]; simpl; [reflexivity | rewrite IH; reflexivity]. Qed.




End Run.


End EndpointFacts.



(** Three candidate stores, the second of which times out: the call
    returns, and the offers of the first and the third are in the result. *)
Example one_store_of_three_times_out :
  Main.search_products (Samples.one_timeout (Val tt)) (txt "oat milk") (txt "Walmart")
    (txt "60622") false = Exc TimeoutError
  /\ exists resp,
       fst (Main.aggregate_products (Samples.one_timeout (Val tt)) (txt "oat milk")
              (txt "60622") (Some (txt "target,walmart,kroger")) false []) = Val resp
       /\ Main.stores_considered resp = [txt "target"; txt "walmart"; txt "kroger"]
       /\ map (fun g => map Main.o_store_id (Main.offers g)) (Main.results resp)
          = [[txt "target"]; [txt "target"; txt "kroger"]].
Proof.
  split; [reflexivity|]. eexists. split; [vm_compute; reflexivity|].
  split; reflexivity.
Qed.

(** C4, at the failing input.  Three candidate stores, the second of which
    times out while the first and the third answer with records, and a
    cache write that raises a connection error: all three stores are
    searched, the offers are collected, the write is attempted, and the
    caller gets the status 500 instead of the offers of the two stores that
    answered.  With the write answering, the same request returns them. *)
Theorem store_failure_then_write_failure_aborts :
  let failing := Samples.one_timeout (Exc ConnectionError) in
  let request w :=
    Main.aggregate_products w (txt "oat milk") (txt "60622")
      (Some (txt "target,walmart,kroger")) false [] in
  let key :=
    Cache.products_key (fun s => s) (txt "60622") (txt "oat milk")
      [txt "target"; txt "walmart"; txt "kroger"] false in
  Main.search_products failing (txt "oat milk") (txt "Target") (txt "60622") false
  = Val [Samples.oatly; Samples.silk]
  /\ Main.search_products failing (txt "oat milk") (txt "Walmart") (txt "60622") false
     = Exc TimeoutError
  /\ Main.search_products failing (txt "oat milk") (txt "Kroger") (txt "60622") false
     = Val [Samples.silk]
  /\ request failing
     = (Exc (HTTPException 500),
        [Main.NearbyStores (txt "60622"); Main.CacheGet key;
         Main.PrimarySearch (txt "Target"); Main.PrimarySearch (txt "Walmart");
         Main.PrimarySearch (txt "Kroger"); Main.CacheSet key])
  /\ exists resp,
       fst (request (Samples.one_timeout (Val tt))) = Val resp
       /\ map (fun g => map Main.o_store_id (Main.offers g)) (Main.results resp)
          = [[txt "target"]; [txt "target"; txt "kroger"]].
Proof.
  split; [reflexivity|]. split; [reflexivity|]. split; [reflexivity|].
  split; [vm_compute; reflexivity|].
  eexists. split; [vm_compute; reflexivity | reflexivity].
Qed.

(** C3, at the failing input.  The same valid request, with the cache write
    raising a connection error after the result has been computed: the
    caller gets the status 500, where the same call returns the computed
    result when the write answers. *)
Theorem cache_write_failure_reaches_caller :
  let request w :=
    Main.aggregate_products w (txt "oat milk") (txt "60622")
      (Some (txt "target,walmart,kroger")) false [] in
  fst (request (Samples.one_timeout (Exc ConnectionError))) = Exc (HTTPException 500)
  /\ (exists key, last (snd (request (Samples.one_timeout (Exc ConnectionError))))
                       (Main.NearbyStores []) = Main.CacheSet key)
  /\ (exists resp, fst (request (Samples.one_timeout (Val tt))) = Val resp).
Proof.
  split; [vm_compute; reflexivity|].
  split; eexists; vm_compute; reflexivity.
Qed.




(** ** The store-id slug *)

Module SlugFacts.

Lemma lower_char_not_upper (c : ascii) : is_upper (lower_char c) = false.
Proof. destruct c as [[] [] [] [] [] [] [] []]; reflexivity. Qed.

Lemma lower_char_fixed (c : ascii) : is_upper c = false -> lower_char c = c.
Proof. unfold lower_char. intros ->. reflexivity. Qed.

Lemma lower_fixed (s : str) :
  Forall (fun c => is_upper c = false) s -> lower s = s.
Proof.
  unfold lower. induction 1 as [|c s Hc _ IH]; [reflexivity|].
  cbn [map]. rewrite (lower_char_fixed _ Hc), IH. reflexivity.
Qed.

Lemma lower_not_upper (s : str) : Forall (fun c => is_upper c = false) (lower s).
Proof.
  induction s as [|c s IH]; simpl; constructor;
    [apply lower_char_not_upper | exact IH].
Qed.

(** Replacement keeps a property of characters that the text and the
    replacing string have. *)
Lemma replace_from_Forall (Q : ascii -> Prop) (old new : str) :
  Forall Q new ->
  forall (s : str) (skip : nat), Forall Q s -> Forall Q (replace_from old new skip s).
Proof.
  intros Hnew. induction s as [|c t IH]; intros skip Hs; simpl.
  - destruct old; [exact Hnew | constructor].
  - inversion Hs as [|? ? Hc Ht]; subst.
    destruct skip as [|k]; [|apply IH; exact Ht].
    destruct (startswith old (c :: t)).
    + destruct old.
      * apply Forall_app. split; [exact Hnew|]. constructor; [exact Hc | apply IH; exact Ht].
      * apply Forall_app. split; [exact Hnew | apply IH; exact Ht].
    + constructor; [exact Hc | apply IH; exact Ht].
Qed.

Lemma replace_Forall (Q : ascii -> Prop) (old new s : str) :
  Forall Q new -> Forall Q s -> Forall Q (replace old new s).
Proof. intros Hn Hs. apply replace_from_Forall; assumption. Qed.

(** Replacing a character that does not occur changes nothing. *)
Lemma replace_absent (c0 : ascii) (new s : str) :
  ~ In c0 s -> replace [c0] new s = s.
Proof.
  unfold replace. induction s as [|c t IH]; intros Hno; simpl; [reflexivity|].
  destruct (Ascii.eqb c0 c) eqn:E.
  - apply Ascii.eqb_eq in E. subst c. exfalso. apply Hno. left. reflexivity.
  - simpl. rewrite IH; [reflexivity|]. intros H. apply Hno. right. exact H.
Qed.

Lemma filter_all {A : Type} (f : A -> bool) (l : list A) :
  Forall (fun x => f x = true) l -> filter f l = l.
Proof.
  induction 1 as [|x l Hx _ IH]; simpl; [reflexivity|]. rewrite Hx, IH. reflexivity.
Qed.

(** Splitting on one character. *)
Lemma split_cons (u c : ascii) (t : str) :
  split [u] (c :: t)
  = if Ascii.eqb u c then [] :: split [u] t
    else match split [u] t with
         | p :: ps => (c :: p) :: ps
         | [] => [[c]]
         end.
Proof.
  unfold split. simpl. destruct (Ascii.eqb u c); simpl; reflexivity.
Qed.

Lemma split_nonempty (u : ascii) (s : str) : split [u] s <> [].
Proof.
  induction s as [|c t IH]; [discriminate|].
  rewrite split_cons. destruct (Ascii.eqb u c); [discriminate|].
  destruct (split [u] t); [contradiction | discriminate].
Qed.

Lemma split_pieces (u : ascii) (s p : str) (c : ascii) :
  In p (split [u] s) -> In c p -> In c s /\ c <> u.
Proof.
  revert p. induction s as [|a t IH]; intros p Hp Hc.
  - destruct Hp as [<-|[]]. destruct Hc.
  - rewrite split_cons in Hp. destruct (Ascii.eqb u a) eqn:E.
    + destruct Hp as [<-|Hp]; [destruct Hc|].
      destruct (IH _ Hp Hc) as [H1 H2]. split; [right; exact H1 | exact H2].
    + destruct (split [u] t) as [|q qs] eqn:S.
      * exfalso. exact (split_nonempty _ _ S).
      * destruct Hp as [<-|Hp].
        -- destruct Hc as [<-|Hc].
           ++ split; [left; reflexivity|]. intros ->.
              rewrite Ascii.eqb_refl in E. discriminate.
           ++ destruct (IH q (or_introl eq_refl) Hc) as [H1 H2].
              split; [right; exact H1 | exact H2].
        -- destruct (IH p (or_intror Hp) Hc) as [H1 H2].
           split; [right; exact H1 | exact H2].
Qed.

Lemma split_no_sep (u : ascii) (p : str) : ~ In u p -> split [u] p = [p].
Proof.
  induction p as [|c t IH]; intros Hno; [reflexivity|].
  rewrite split_cons. destruct (Ascii.eqb u c) eqn:E.
  - apply Ascii.eqb_eq in E. subst c. exfalso. apply Hno. left. reflexivity.
  - rewrite IH; [reflexivity|]. intros H. apply Hno. right. exact H.
Qed.

Lemma split_app_sep (u : ascii) (p t : str) :
  ~ In u p -> split [u] (p ++ u :: t) = p :: split [u] t.
Proof.
  induction p as [|c p IH]; intros Hno.
  - simpl. rewrite split_cons, Ascii.eqb_refl. reflexivity.
  - simpl. rewrite split_cons. destruct (Ascii.eqb u c) eqn:E.
    + apply Ascii.eqb_eq in E. subst c. exfalso. apply Hno. left. reflexivity.
    + rewrite IH; [reflexivity|]. intros H. apply Hno. right. exact H.
Qed.

(** Splitting what was joined gives the pieces back. *)
Lemma split_join (u : ascii) (pieces : list str) :
  pieces <> [] -> Forall (fun p => ~ In u p) pieces ->
  split [u] (join [u] pieces) = pieces.
Proof.
  induction pieces as [|p rest IH]; intros Hne Hfree; [contradiction|].
  inversion Hfree as [|? ? Hp Hrest]; subst.
  destruct rest as [|q rest].
  - simpl. apply split_no_sep. exact Hp.
  - change (join [u] (p :: q :: rest)) with (p ++ u :: join [u] (q :: rest)).
    rewrite split_app_sep by exact Hp. rewrite IH; [reflexivity | discriminate | exact Hrest].
Qed.

Lemma join_Forall (Q : ascii -> Prop) (sep : str) (pieces : list str) :
  Forall Q sep -> Forall (Forall Q) pieces -> Forall Q (join sep pieces).
Proof.
  intros Hsep. induction 1 as [|p rest Hp Hrest IH]; [constructor|].
  destruct rest as [|q rest]; [exact Hp|].
  change (join sep (p :: q :: rest)) with (p ++ sep ++ join sep (q :: rest)).
  apply Forall_app. split; [exact Hp|]. apply Forall_app. split; [exact Hsep | exact IH].
Qed.

(** A character the slug keeps, in lower case. *)
Local Abbreviation kept :=
  (fun c : ascii => (isalnum c || Ascii.eqb c "_") = true /\ is_upper c = false).

Lemma kept_not (c0 : ascii) (s : str) :
  (isalnum c0 || Ascii.eqb c0 "_") = false -> Forall kept s -> ~ In c0 s.
Proof.
  intros Hc0 Hs Hin. rewrite Forall_forall in Hs. destruct (Hs _ Hin) as [K _].
  rewrite K in Hc0. discriminate.
Qed.

(** The pieces the slug joins: non-empty, free of underscores, made of
    kept characters. *)
Lemma slug_pieces (x : str) :
  let cleaned :=
    filter (fun c => isalnum c || Ascii.eqb c "_")
      (replace (txt "&") (txt "and")
        (replace (txt "'") (txt "")
          (replace (txt "-") (txt "_")
            (replace (txt " ") (txt "_") (lower x))))) in
  Forall (fun p => p <> [] /\ ~ In "_"%char p /\ Forall kept p)
         (filter truthy (split (txt "_") cleaned)).
Proof.
  intros cleaned.
  assert (Hclean : Forall kept cleaned).
  { apply Forall_forall. intros c Hc. unfold cleaned in Hc.
    apply filter_In in Hc as [Hc Hk]. split; [exact Hk|]. clear Hk.
    revert c Hc. apply Forall_forall.
    repeat (apply replace_Forall; [repeat constructor|]).
    apply lower_not_upper. }
  apply Forall_forall. intros p Hp. apply filter_In in Hp as [Hp Ht].
  split; [intros ->; discriminate Ht|]. split.
  - intros Hin. destruct (split_pieces "_" cleaned p "_" Hp Hin) as [_ Hne].
    apply Hne. reflexivity.
  - apply Forall_forall. intros c Hc.
    destruct (split_pieces "_" cleaned p c Hp Hc) as [Hin _].
    rewrite Forall_forall in Hclean. apply Hclean. exact Hin.
Qed.

(** A joined list of such pieces is a fixed point of the slug. *)
Lemma slug_of_pieces (pieces : list str) :
  Forall (fun p => p <> [] /\ ~ In "_"%char p /\ Forall kept p) pieces ->
  Sonar._create_store_id (join (txt "_") pieces) = join (txt "_") pieces.
Proof.
  intros Hp. set (y := join (txt "_") pieces).
  assert (Hy : Forall kept y).
  { apply join_Forall.
    - repeat constructor.
    - eapply Forall_impl; [|exact Hp]. intros p [_ [_ H]]. exact H. }
  unfold Sonar._create_store_id.
  rewrite (lower_fixed (s := y))
    by (eapply Forall_impl; [|exact Hy]; intros c [_ H]; exact H).
  change (txt " ") with [" "%char]. change (txt "-") with ["-"%char].
  change (txt "'") with ["'"%char]. change (txt "&") with ["&"%char].
  rewrite (@replace_absent " "%char) by (apply kept_not; [reflexivity | exact Hy]).
  rewrite (@replace_absent "-"%char) by (apply kept_not; [reflexivity | exact Hy]).
  rewrite (@replace_absent "'"%char) by (apply kept_not; [reflexivity | exact Hy]).
  rewrite (@replace_absent "&"%char) by (apply kept_not; [reflexivity | exact Hy]).
  rewrite (@filter_all ascii (fun c => isalnum c || Ascii.eqb c "_") y)
    by (eapply Forall_impl; [|exact Hy]; intros c [H _]; exact H).
  destruct pieces as [|p rest].
  - reflexivity.
  - unfold y. change (txt "_") with ["_"%char].
    rewrite split_join.
    + rewrite filter_all; [reflexivity|].
      eapply Forall_impl; [|exact Hp]. intros q [Hq _]. destruct q; [contradiction | reflexivity].
    + discriminate.
    + eapply Forall_impl; [|exact Hp]. intros q [_ [Hq _]]. exact Hq.
Qed.

End SlugFacts.

(** C8.  The store-id slug is idempotent: applying it to a slug gives the
    slug back, for every input.  (It is a function of its argument alone.) *)
Theorem create_store_id_idempotent (store_name : str) :
  Sonar._create_store_id (Sonar._create_store_id store_name)
  = Sonar._create_store_id store_name.
Proof.
  unfold Sonar._create_store_id at 2 3.
  apply SlugFacts.slug_of_pieces. apply SlugFacts.slug_pieces.
Qed.

(** ** The product parser, line by line *)

Module LineFacts.
Import Sonar.



End LineFacts.




(** A [DEALS:] line with an image URL sets the deals only when the record
    already has an image URL. *)
Example deals_line_after_image :
  Sonar.parse_product_line
    (Sonar.set_image_url (txt "https://cdn.example/a.jpg") Samples.oatly)
    (txt "DEALS: coupon at https://cdn.example/oatly.PNG today")
  = Val (Sonar.set_deals (txt "coupon at https://cdn.example/oatly.PNG today")
           (Sonar.set_image_url (txt "https://cdn.example/a.jpg") Samples.oatly)).
Proof. vm_compute. reflexivity. Qed.

(** C5, at the failing input.  The literal the parser compares an image
    URL with is not the one the prompt writes, so a response that echoes the
    prompt's placeholder after [IMAGE_URL:] gets it as the image URL of the
    emitted record. *)
Theorem image_placeholder_echo_is_emitted :
  Sonar.template_placeholder Sonar.IMAGE_URL <> Sonar.parser_placeholder Sonar.IMAGE_URL
  /\ (forall f, f <> Sonar.IMAGE_URL ->
                Sonar.template_placeholder f = Sonar.parser_placeholder f)
  /\ fst (Sonar._parse_product_response Samples.image_echo [])
     = Val [Sonar.set_image_url (Sonar.template_placeholder Sonar.IMAGE_URL)
              (Sonar.set_name (txt "Oat Milk") Sonar.empty_product)].
Proof.
  split; [vm_compute; discriminate|].
  split; [intros f Hf; destruct f; try reflexivity; contradiction|].
  vm_compute. reflexivity.
Qed.

(** ** The store parser *)

Module StoreFacts.
Import Sonar.

Local Abbreviation same_id s := (fun x => str_eqb (store_id s) (store_id x)).

Lemma has_key_in (k : str) (U : list (str * StoreLocation)) :
  has_key k U = true <-> In k (map fst U).
Proof.
  unfold has_key. rewrite existsb_exists, in_map_iff. split.
  - intros [kv [Hin E]]. apply str_eqb_eq in E. exists kv. auto.
  - intros [kv [E Hin]]. exists kv. split; [exact Hin | apply str_eqb_eq; auto].
Qed.

Lemma remember_snoc (l : list StoreLocation) (x : StoreLocation) :
  fold_left remember (l ++ [x]) [] = remember (fold_left remember l []) x.
Proof. rewrite fold_left_app. reflexivity. Qed.

(** The dict of unique stores: its keys are distinct, each value is the
    first store of the list with its id, and every id of the list is a key. *)
Lemma remembered (l : list StoreLocation) :
  NoDup (map fst (fold_left remember l []))
  /\ (forall k s, In (k, s) (fold_left remember l []) ->
        k = store_id s /\ find (same_id s) l = Some s)
  /\ (forall x, In x l -> has_key (store_id x) (fold_left remember l []) = true).
Proof.
  induction l as [|x l [Hnd [Hfirst Hall]]] using rev_ind.
  - simpl. split; [constructor|]. split; [intros k s []|intros x []].
  - rewrite remember_snoc. set (U := fold_left remember l []) in *.
    unfold remember. destruct (has_key (store_id x) U) eqn:HK.
    + split; [exact Hnd|]. split.
      * intros k s Hin. destruct (Hfirst k s Hin) as [Hk Hf].
        split; [exact Hk | apply ListFacts.find_app_some; exact Hf].
      * intros x' Hin. apply in_app_or in Hin as [Hin|[<-|[]]];
          [apply Hall; exact Hin | exact HK].
    + assert (Hnone : find (same_id x) l = None).
      { destruct (find (same_id x) l) as [y|] eqn:F; [|reflexivity].
        apply find_some in F as [Hin E]. apply str_eqb_eq in E.
        rewrite E in HK. rewrite (Hall y Hin) in HK. discriminate. }
      split; [|split].
      * rewrite map_app. simpl. apply ListFacts.NoDup_snoc; [exact Hnd|].
        intros Hin. apply has_key_in in Hin. rewrite Hin in HK. discriminate.
      * intros k s Hin. apply in_app_or in Hin as [Hin|[E|[]]].
        -- destruct (Hfirst k s Hin) as [Hk Hf].
           split; [exact Hk | apply ListFacts.find_app_some; exact Hf].
        -- injection E as <- <-. split; [reflexivity|].
           rewrite ListFacts.find_app_none by exact Hnone.
           simpl. rewrite str_eqb_refl. reflexivity.
      * intros x' Hin. unfold has_key. rewrite existsb_app.
        apply in_app_or in Hin as [Hin|[<-|[]]].
        -- apply orb_true_iff. left. apply (Hall x' Hin).
        -- apply orb_true_iff. right. simpl. rewrite str_eqb_refl. reflexivity.
Qed.

Lemma unique_values_ids (l : list StoreLocation) :
  map store_id (unique_values l) = map fst (fold_left remember l []).
Proof.
  unfold unique_values. destruct (remembered l) as [_ [Hfirst _]].
  revert Hfirst. generalize (fold_left remember l []). intros U HU.
  induction U as [|[k s] U IH]; [reflexivity|]. simpl. f_equal.
  - destruct (HU k s (or_introl eq_refl)) as [-> _]. reflexivity.
  - apply IH. intros k' s' Hin. apply HU. right. exact Hin.
Qed.

Lemma unique_values_nodup (l : list StoreLocation) :
  NoDup (map store_id (unique_values l)).
Proof. rewrite unique_values_ids. apply remembered. Qed.

Lemma unique_values_first (l : list StoreLocation) (s : StoreLocation) :
  In s (unique_values l) -> find (same_id s) l = Some s.
Proof.
  unfold unique_values. intros Hin. apply in_map_iff in Hin as [[k s'] [E Hin]].
  simpl in E. subst s'. destruct (remembered l) as [_ [Hfirst _]].
  apply (Hfirst k s Hin).
Qed.

Lemma unique_values_cover (l : list StoreLocation) (x : StoreLocation) :
  In x l -> exists s, In s (unique_values l) /\ store_id s = store_id x.
Proof.
  intros Hin. destruct (remembered l) as [_ [Hfirst Hall]].
  specialize (Hall x Hin). apply has_key_in in Hall.
  apply in_map_iff in Hall as [[k s] [E Hks]]. simpl in E. subst k.
  exists s. split.
  - unfold unique_values. apply in_map_iff. exists (store_id x, s). auto.
  - destruct (Hfirst _ _ Hks) as [E _]. symmetry. exact E.
Qed.

(** An exception that leaves [stores_found] leaves [stores] as it was. *)
Lemma stores_found_raises (allow_extra : bool) (response zipcode : str)
    (before after : list StoreLocation) (e : exn) :
  stores_found allow_extra response zipcode before = (Exc e, after) -> after = before.
Proof.
  unfold stores_found, bind, lift, put, get, ret.
  destruct (_extract_structured_stores allow_extra response zipcode) as [found|e'].
  - destruct (is_nil found); intros H; discriminate H.
  - intros H. injection H as _ <-. reflexivity.
Qed.

(** The value [_parse_store_response] returns. *)
Lemma parse_store_response_value (allow_extra : bool) (response zipcode : str) :
  _parse_store_response allow_extra response zipcode []
  = match stores_found allow_extra response zipcode [] with
    | (Val _, found) => (Val (unique_values found), unique_values found)
    | (Exc _, _) => (Val [], [])
    end.
Proof.
  unfold _parse_store_response, try_except. unfold bind at 1. unfold bind at 1.
  destruct (stores_found allow_extra response zipcode []) as [[[]|e] found] eqn:F.
  - reflexivity.
  - apply stores_found_raises in F. subst found. reflexivity.
Qed.

End StoreFacts.

(** X25.  Store parsing returns a list in which no two records have the
    same store id; it is the list found in the text with every record
    dropped whose id an earlier record has, so the first occurrence of an
    id is the one returned. *)
Theorem store_parsing_deduplicates (allow_extra : bool) (zipcode text : str) :
  exists stores,
    fst (Sonar._parse_store_response allow_extra text zipcode []) = Val stores
    /\ Sonar.parse allow_extra zipcode text Sonar.Store = Val (map Sonar.StoreRecord stores)
    /\ NoDup (map Sonar.store_id stores)
    /\ NoDup (map Sonar.primary_id (map Sonar.StoreRecord stores))
    /\ (forall found,
          Sonar.stores_found allow_extra text zipcode [] = (Val tt, found) ->
          (forall s, In s stores ->
             find (fun x => str_eqb (Sonar.store_id s) (Sonar.store_id x)) found = Some s)
          /\ (forall x, In x found ->
                exists s, In s stores /\ Sonar.store_id s = Sonar.store_id x)).
Proof.
  assert (Hid : forall l, map Sonar.primary_id (map Sonar.StoreRecord l)
                          = map Some (map Sonar.store_id l)).
  { intros l. rewrite !map_map. reflexivity. }
  unfold Sonar.parse. rewrite StoreFacts.parse_store_response_value.
  destruct (Sonar.stores_found allow_extra text zipcode []) as [[[]|e] found] eqn:F.
  - exists (Sonar.unique_values found). simpl.
    split; [reflexivity|]. split; [reflexivity|].
    split; [apply StoreFacts.unique_values_nodup|]. split.
    + rewrite Hid. apply ListFacts.NoDup_map_Some.
      apply StoreFacts.unique_values_nodup.
    + intros found' E. injection E as <-. split.
      * intros s Hs. apply StoreFacts.unique_values_first. exact Hs.
      * intros x Hx. apply StoreFacts.unique_values_cover. exact Hx.
  - exists []. simpl.
    split; [reflexivity|]. split; [reflexivity|].
    split; [constructor|]. split; [constructor|].
    intros found' E. discriminate E.
Qed.

(** C7, at the failing input.  Two sections with the same product name
    give two product records with that name, so the emitted list has two
    records with one primary identifier; the store parser, given two
    sections with the same store, returns the first of them alone. *)
Theorem product_parsing_keeps_duplicates :
  (exists p1 p2,
     Sonar.parse false (txt "60622") Samples.same_name_twice Sonar.Product
     = Val [Sonar.ProductRecord p1; Sonar.ProductRecord p2]
     /\ Sonar.primary_id (Sonar.ProductRecord p1) = Some (txt "Oat Milk")
     /\ Sonar.primary_id (Sonar.ProductRecord p2) = Some (txt "Oat Milk")
     /\ Sonar.price p1 = Some (Sonar.PriceNum (txt "4.99"))
     /\ Sonar.price p2 = Some (Sonar.PriceNum (txt "5.49"))
     /\ ~ NoDup (map Sonar.primary_id [Sonar.ProductRecord p1; Sonar.ProductRecord p2]))
  /\ exists s,
       Sonar.parse false (txt "15232") Samples.same_store_twice Sonar.Store
       = Val [Sonar.StoreRecord s]
       /\ Sonar.store_id s = txt "giant_eagle"
       /\ Sonar.address s = Some (txt "5550 Centre Ave, Pittsburgh, PA 15232").
Proof.
  split.
  - do 2 eexists. split; [vm_compute; reflexivity|].
    split; [reflexivity|]. split; [reflexivity|].
    split; [reflexivity|]. split; [reflexivity|].
    intros H. inversion H as [|? ? Hno _]. apply Hno. left. reflexivity.
  - eexists. split; [vm_compute; reflexivity|]. split; reflexivity.
Qed.

(** C9.  For every text and both kinds, the parser returns a list: no
    exception leaves it, whether one is raised inside or not, and whether
    the structured or the fallback scanner produces the records. *)
Theorem parse_never_raises (allow_extra : bool) (zipcode text : str) (k : Sonar.kind) :
  exists records, Sonar.parse allow_extra zipcode text k = Val records.
Proof.
  destruct k; unfold Sonar.parse.
  - rewrite StoreFacts.parse_store_response_value.
    destruct (Sonar.stores_found allow_extra text zipcode []) as [[[]|e] found];
      eexists; reflexivity.
  - unfold Sonar._parse_product_response. unfold bind at 1.
    match goal with
    | |- context [try_except ?body _ []] =>
        destruct (@MonadFacts.try_except_ret _ _ body None []) as [r [s E]]
    end.
    rewrite E. destruct r; eexists; reflexivity.
Qed.

(** The empty text, bytes that are no text, and markers without a value or
    without a record. *)
Example parse_odd_inputs :
  Sonar.parse false (txt "60622") [] Sonar.Product = Val []
  /\ Sonar.parse false (txt "60622") [] Sonar.Store = Val []
  /\ Sonar.parse false (txt "60622") ["000"; "255"; "027"; "200"]%char Sonar.Product = Val []
  /\ Sonar.parse false (txt "60622") (txt "PRICE: $") Sonar.Product = Val []
  /\ Sonar.parse false (txt "60622") (txt "STORE:") Sonar.Store = Val []
  /\ Sonar.parse false (txt "60622") (txt "ADDRESS: 1 Main Street") Sonar.Store = Val [].
Proof. vm_compute. repeat split. Qed.

(** With the model class as declared, the assignment of a website raises
    inside the store parser; the parser catches it and returns the empty
    list it started with. *)
Example website_line_raises_inside :
  Sonar._extract_structured_stores false Samples.store_with_website (txt "15213")
  = Exc ValueError
  /\ Sonar.parse false (txt "15213") Samples.store_with_website Sonar.Store = Val [].
Proof. vm_compute. split; reflexivity. Qed.

(** ** What the price pattern captures *)

Module PriceFacts.
Import Sonar.

Lemma drop_digits_split (s : str) :
  exists ds, s = ds ++ drop_digits s /\ forallb is_digit ds = true.
Proof.
  induction s as [|c t [ds [E F]]]; [exists []; auto|].
  simpl. destruct (is_digit c) eqn:D.
  - exists (c :: ds). simpl. rewrite D, F. split; [f_equal; exact E | reflexivity].
  - exists []. auto.
Qed.

Lemma drop_digits_head (s : str) :
  match drop_digits s with
  | c :: _ => is_digit c = false
  | [] => True
  end.
Proof.
  induction s as [|c t IH]; simpl; [exact I|].
  destruct (is_digit c) eqn:D; [exact IH | exact D].
Qed.

Lemma drop_digits_app (ds rest : str) :
  forallb is_digit ds = true -> drop_digits (ds ++ rest) = drop_digits rest.
Proof.
  induction ds as [|c ds IH]; simpl; [reflexivity|].
  intros H. apply andb_true_iff in H as [D F]. rewrite D. apply IH. exact F.
Qed.

Lemma drop_digits_stops (s : str) :
  match s with c :: _ => is_digit c = false | [] => True end -> drop_digits s = s.
Proof. destruct s as [|c t]; simpl; [reflexivity | intros ->; reflexivity]. Qed.

Lemma drop_digits_all (ds : str) :
  forallb is_digit ds = true -> drop_digits ds = [].
Proof.
  induction ds as [|c ds IH]; simpl; [reflexivity|].
  intros H. apply andb_true_iff in H as [D F]. rewrite D. apply IH. exact F.
Qed.

Lemma decimal_int (d : ascii) (ds : str) :
  is_digit d = true -> forallb is_digit ds = true -> decimal_literal (d :: ds) = true.
Proof.
  intros D F. unfold decimal_literal. rewrite D.
  rewrite drop_digits_all by (simpl; rewrite D; exact F). reflexivity.
Qed.

Lemma decimal_frac (d : ascii) (ds ds2 : str) :
  is_digit d = true -> forallb is_digit ds = true -> forallb is_digit ds2 = true ->
  decimal_literal (d :: ds ++ "."%char :: ds2) = true.
Proof.
  intros D F F2. unfold decimal_literal. rewrite D.
  change (d :: ds ++ "."%char :: ds2) with ((d :: ds) ++ "."%char :: ds2).
  rewrite drop_digits_app by (simpl; rewrite D; exact F).
  simpl. exact F2.
Qed.

(** A greedy run of digits before a continuation that cannot fail takes
    all the digits there are. *)
Lemma star_digits (A : Type) (k : str -> option A) :
  (forall s, k s <> None) ->
  forall s, Re.star_k is_digit k s = k (drop_digits s).
Proof.
  intros Hk. induction s as [|c t IH]; simpl; [reflexivity|].
  destruct (is_digit c); [|reflexivity].
  rewrite IH. destruct (k (drop_digits t)) eqn:E; [reflexivity|].
  exfalso. exact (Hk _ E).
Qed.

Lemma firstn_prefix {A : Type} (pre rest : list A) :
  firstn (length (pre ++ rest) - length rest) (pre ++ rest) = pre.
Proof.
  rewrite length_app. replace (length pre + length rest - length rest) with (length pre) by lia.
  rewrite firstn_app, Nat.sub_diag, firstn_all. simpl. apply app_nil_r.
Qed.

(** A match of the price pattern at the head of a text: the dollar sign
    and a decimal literal. *)
Lemma price_match_at (s rest : str) :
  Re.match_at Re.price_pattern s = Some rest ->
  exists lit, s = "$"%char :: lit ++ rest /\ decimal_literal lit = true.
Proof.
  unfold Re.match_at, Re.price_pattern. cbn [Re.rmatch Re.chr].
  destruct s as [|c0 s]; [discriminate|].
  destruct (Ascii.eqb "$" c0) eqn:E0; [|discriminate].
  apply Ascii.eqb_eq in E0. subst c0.
  destruct s as [|d t]; [discriminate|].
  destruct (is_digit d) eqn:D; [|discriminate].
  set (k := fun s' : str =>
              match match s' with
                    | c :: t0 => if Ascii.eqb "." c then Re.star_k is_digit (@Some str) t0 else None
                    | [] => None
                    end with
              | Some x => Some x
              | None => Re.star_k is_digit (@Some str) s'
              end).
  assert (Hsome : forall s', Re.star_k is_digit (@Some str) s' = Some (drop_digits s')).
  { intros s'. apply star_digits. intros u. discriminate. }
  assert (Hk : forall s', k s' <> None).
  { intros s'. unfold k. destruct s' as [|c u]; [rewrite Hsome; discriminate|].
    destruct (Ascii.eqb "." c); rewrite Hsome; discriminate. }
  rewrite (star_digits k Hk t).
  destruct (drop_digits_split t) as [ds [Et Fds]].
  pose proof (drop_digits_head t) as Hhead.
  remember (drop_digits t) as r eqn:Er. clear Er.
  unfold k. destruct r as [|c u].
  - rewrite Hsome. simpl. intros H. injection H as <-.
    exists (d :: ds). split; [rewrite Et; reflexivity|].
    apply decimal_int; assumption.
  - destruct (Ascii.eqb "." c) eqn:Edot.
    + apply Ascii.eqb_eq in Edot. subst c. rewrite Hsome. intros H. injection H as <-.
      destruct (drop_digits_split u) as [ds2 [Eu F2]].
      exists (d :: ds ++ "."%char :: ds2). split.
      * rewrite Et. simpl. rewrite <- app_assoc. simpl. rewrite <- Eu. reflexivity.
      * apply decimal_frac; assumption.
    + rewrite Hsome. intros H. injection H as <-.
      simpl in Hhead. rewrite Hhead.
      exists (d :: ds). split; [rewrite Et; reflexivity|].
      apply decimal_int; assumption.
Qed.

Lemma search_unfold (r : Re.regex) (s : str) :
  Re.search r s
  = match Re.match_at r s with
    | Some rest => Some (firstn (length s - length rest) s)
    | None => match s with
              | [] => None
              | _ :: t => Re.search r t
              end
    end.
Proof. destruct s; reflexivity. Qed.

(** [float] accepts what the price pattern captures, wherever it is found. *)
Lemma price_match_is_literal (s m : str) :
  Re.search Re.price_pattern s = Some m -> float (group1 m) = Val (group1 m).
Proof.
  induction s as [|c t IH]; rewrite search_unfold.
  - destruct (Re.match_at Re.price_pattern []) eqn:E; [|discriminate].
    apply price_match_at in E as [lit [E _]]. discriminate E.
  - destruct (Re.match_at Re.price_pattern (c :: t)) as [rest|] eqn:E.
    + apply price_match_at in E as [lit [E L]]. rewrite E.
      change ("$"%char :: lit ++ rest) with (("$"%char :: lit) ++ rest).
      rewrite firstn_prefix. intros H. injection H as <-.
      unfold group1, float. simpl. rewrite L. reflexivity.
    + exact IH.
Qed.

(** No line makes the product parser raise. *)
Lemma parse_product_line_total (current_product : product) (raw_line : str) :
  exists p, parse_product_line current_product raw_line = Val p.
Proof.
  unfold parse_product_line.
  repeat match goal with
         | |- context [if ?b then _ else _] => destruct b
         | |- context [match Re.search Re.price_pattern ?x with _ => _ end] =>
             let E := fresh "E" in
             destruct (Re.search Re.price_pattern x) eqn:E;
             [rewrite (price_match_is_literal _ E); cbn [obind]|]
         | |- context [match Re.search Re.image_pattern ?x with _ => _ end] =>
             destruct (Re.search Re.image_pattern x)
         | |- context [match image_url ?x with _ => _ end] =>
             destruct (image_url x)
         end; eexists; reflexivity.
Qed.

End PriceFacts.

(** ** Concrete runs *)

Example parse_template_example :
  fst (Sonar._parse_product_response
         (Samples.text_of_lines ["PRODUCT: Oatly Oat Milk Original"; "BRAND: Oatly";
                         "PRICE: $4.99"; "SIZE: 64 oz"; "";
                         "PRODUCT: Chobani Oat Milk"; "PRICE: about three dollars"]%string) [])
  = Val [Sonar.mk_product (Some (txt "Oatly Oat Milk Original")) (Some (txt "Oatly"))
           (Some (Sonar.PriceNum (txt "4.99"))) (Some (txt "64 oz"))
           None None None None None None;
         Sonar.mk_product (Some (txt "Chobani Oat Milk")) None
           (Some (Sonar.PriceText (txt "about three dollars"))) None
           None None None None None None].
Proof. vm_compute. reflexivity. Qed.

Example create_store_id_examples :
  Sonar._create_store_id (txt "Trader Joe's") = txt "trader_joes"
  /\ Sonar._create_store_id (txt "Stop & Shop") = txt "stop_and_shop"
  /\ Sonar._create_store_id (txt " Hy-Vee  #12 ") = txt "hy_vee_12".
Proof. vm_compute. repeat split. Qed.

Example parse_store_example :
  fst (Sonar._parse_store_response false
         (Samples.text_of_lines ["STORE: Giant Eagle"; "ADDRESS: 123 Main Street";
                         "SERVICES: delivery, Pickup, valet"; "STATUS: open"; "";
                         "STORE: Giant Eagle"; "STATUS: closed"]%string)
         (txt "15213") [])
  = Val [Sonar.mk_store (txt "giant_eagle") (txt "Giant Eagle") (Some (txt "15213"))
           (txt "open") (Some (txt "123 Main Street"))
           (Some [txt "delivery"; txt "pickup"]) None].
Proof. vm_compute. reflexivity. Qed.

Example search_image_greedy :
  Re.search Re.image_pattern (txt "see HTTPS://a.b/c.png.JPG?x=1 ok")
  = Some (txt "HTTPS://a.b/c.png.JPG").
Proof. vm_compute. reflexivity. Qed.

Example search_price_first :
  Re.search Re.price_pattern (txt "about $4.99 or $5")
  = Some (txt "$4.99").
Proof. vm_compute. reflexivity. Qed.

Example split_blank :
  split (txt "xx") (txt "axxxbxx") = [txt "a"; txt "xb"; txt ""].
Proof. vm_compute. reflexivity. Qed.

Example replace_chain :
  replace (txt "ab") (txt "-") (txt "aabab ab") = txt "a-- -".
Proof. vm_compute. reflexivity. Qed.

Example norm_size_spellings :
  Main.norm_size (Some (txt "12 Fluid Ounces")) = txt "12 fl oz"
  /\ Main.norm_size (Some (txt "12 fl oz")) = txt "12 fl oz"
  /\ Main.norm_size (Some (txt "12 oz pack")) = txt "12 oz pack"
  /\ Main.norm_size (Some (txt " 6 CT ")) = txt "6 count"
  /\ Main.norm_size None = txt "".
Proof. vm_compute. repeat split. Qed.

Example gkey_of_silk :
  Main.gkey Samples.silk_at_target = txt "silk|silk original|59 oz"
  /\ Main.gkey Samples.silk_at_whole_foods = txt "silk|silk original|59 oz".
Proof. vm_compute. split; reflexivity. Qed.

Example to_store_name_examples :
  Main.to_store_name (txt "whole_foods") = txt "Whole Foods Market"
  /\ Main.to_store_name (txt "giant_eagle") = txt "Giant Eagle"
  /\ Main.user_store_ids (Some (txt " Target, ,WALMART,")) = [txt "target"; txt "walmart"].
Proof. vm_compute. repeat split. Qed.

(** The fallback scanner: keyword lines name a product, later lines fill it. *)
Example fallback_scanner :
  fst (Sonar._parse_product_response
         (Samples.text_of_lines ["Silk oat milk"; "only $5.49 today"; "59 oz carton"]%string) [])
  = Val [Sonar.mk_product (Some (txt "Silk oat milk")) None
           (Some (Sonar.PriceNum (txt "5.49"))) (Some (txt "59 oz"))
           None None None None None None].
Proof. vm_compute. reflexivity. Qed.

(* ================================================================== *)
(** * Further properties *)
(* ================================================================== *)

(** ** The fan-out and the collecting loop, exactly *)

Module FanOutFacts.
Import Main.

Section Run.

Variable w : world.
Variables query zipcode : str.
Variable enhance : bool.

Let primary (sid : str) : outcome (list Sonar.product) :=
  search_products w query (to_store_name sid) zipcode enhance.

Let secondary (sid : str) : outcome (list Sonar.product) :=
  search_shopping_products w query (to_store_name sid) (txt "United States").

(** What one iteration appends and which call it makes. *)
Lemma collect_exact (acc : list offer) (sid : str) (res : outcome (list Sonar.product))
    (tr : trace) :
  collect w query acc (sid, res) tr
  = (Val (acc ++
          match res with
          | Exc _ => []
          | Val [] =>
              if serper_is_available w then
                match secondary sid with
                | Val sps => map (serper_offer sid (to_store_name sid)) sps
                | Exc _ => []
                end
              else []
          | Val products => map (sonar_offer sid (to_store_name sid)) products
          end),
     tr ++
     match res with
     | Val [] => if serper_is_available w
                 then [SecondarySearch (to_store_name sid)] else []
     | _ => []
     end).
Proof.
  unfold collect. destruct res as [[|p products]|e].
  - cbn [is_nil andb]. destruct (serper_is_available w).
    + unfold try_except, bind, call, ret. fold (secondary sid).
      destruct (secondary sid) as [sps|e]; [reflexivity|].
      rewrite app_nil_r. reflexivity.
    + unfold ret. simpl. rewrite !app_nil_r. reflexivity.
  - cbn [is_nil andb]. unfold ret. rewrite app_nil_r. reflexivity.
  - unfold ret. rewrite !app_nil_r. reflexivity.
Qed.

Lemma collect_loop_exact (entries : list (str * outcome (list Sonar.product)))
    (acc : list offer) (tr : trace) :
  fold_m entries (collect w query) acc tr
  = (Val (acc ++
          flat_map
            (fun entry =>
               match snd entry with
               | Exc _ => []
               | Val [] =>
                   if serper_is_available w then
                     match secondary (fst entry) with
                     | Val sps =>
                         map (serper_offer (fst entry) (to_store_name (fst entry))) sps
                     | Exc _ => []
                     end
                   else []
               | Val products =>
                   map (sonar_offer (fst entry) (to_store_name (fst entry))) products
               end)
            entries),
     tr ++
     flat_map
       (fun entry =>
          match snd entry with
          | Val [] => if serper_is_available w
                      then [SecondarySearch (to_store_name (fst entry))] else []
          | _ => []
          end)
       entries).
Proof.
  revert acc tr. induction entries as [|[sid res] entries IH]; intros acc tr.
  - simpl. unfold ret. rewrite !app_nil_r. reflexivity.
  - cbn [fold_m]. unfold bind at 1. rewrite collect_exact. rewrite IH.
    cbn [flat_map fst snd]. rewrite <- !app_assoc. reflexivity.
Qed.

End Run.

(** The fan-out followed by the collecting loop: its value and its calls. *)
Lemma offers_collected_run (w : world) (query zipcode : str) (enhance : bool)
    (considered : list str) (tr : trace) :
  offers_collected w query zipcode enhance considered tr
  = (Val (flat_map
            (fun sid =>
               match search_products w query (to_store_name sid) zipcode enhance with
               | Exc _ => []
               | Val [] =>
                   if serper_is_available w then
                     match search_shopping_products w query (to_store_name sid)
                             (txt "United States") with
                     | Val sps => map (serper_offer sid (to_store_name sid)) sps
                     | Exc _ => []
                     end
                   else []
               | Val products => map (sonar_offer sid (to_store_name sid)) products
               end)
            considered),
     tr
     ++ map (fun sid => PrimarySearch (to_store_name sid)) considered
     ++ map (fun sid => SecondarySearch (to_store_name sid))
          (filter
             (fun sid =>
                match search_products w query (to_store_name sid) zipcode enhance with
                | Val [] => serper_is_available w
                | _ => false
                end)
             considered)).
Proof.
  unfold offers_collected, bind. rewrite EndpointFacts.gather_fetch.
  rewrite EndpointFacts.combine_map. rewrite collect_loop_exact.
  rewrite <- app_assoc. cbn [app]. f_equal.
  - f_equal. induction considered as [|sid l IH]; [reflexivity|].
    cbn [map flat_map fst snd]. rewrite IH. reflexivity.
  - f_equal. f_equal. induction considered as [|sid l IH]; [reflexivity|].
    cbn [map flat_map filter fst snd]. rewrite IH.
    destruct (search_products w query (to_store_name sid) zipcode enhance)
      as [[|p ps]|e]; try reflexivity.
    destruct (serper_is_available w); reflexivity.
Qed.

End FanOutFacts.



(** ** The aggregation endpoint, path by path *)

Module AggregateFacts.
Import Main.

(** The status an exception reaches the caller with. *)
Local Abbreviation surfaced e :=
  (match e with
   | HTTPException status_code => HTTPException status_code
   | _ => HTTPException 500
   end).

Section Call.

Variable w : world.
Variables query zipcode : str.
Variable stores : option str.
Variable enhance : bool.
Variable tr : trace.

Local Abbreviation run := (aggregate_products w query zipcode stores enhance tr).

Local Abbreviation considered_for nearby :=
  (if is_nil (user_store_ids stores)
   then firstn 10 (map Sonar.store_id nearby)
   else firstn 10 (user_store_ids stores)).

Local Abbreviation key_for nearby :=
  (Cache.products_key (sha1_hex w) zipcode query (considered_for nearby) enhance).

Hypothesis Hzip : zipcode_ok zipcode = true.

Lemma discovery_fails (e : exn) :
  get_nearby_stores w zipcode = Exc e ->
  run = (Exc (surfaced e), tr ++ [NearbyStores zipcode]).
Proof.
  intros H. unfold aggregate_products, try_except, aggregate_body.
  rewrite Hzip. cbn [negb]. unfold bind at 1. unfold call at 1. rewrite H.
  destruct e; reflexivity.
Qed.

Section Discovered.

Variable nearby : list Sonar.StoreLocation.
Hypothesis Hnear : get_nearby_stores w zipcode = Val nearby.

Lemma cache_read_fails (e : exn) :
  cache_get_json w (key_for nearby) = Exc e ->
  run = (Exc (surfaced e),
         (tr ++ [NearbyStores zipcode]) ++ [CacheGet (key_for nearby)]).
Proof.
  intros H. unfold aggregate_products, try_except, aggregate_body.
  rewrite Hzip. cbn [negb]. unfold bind at 1. unfold call at 1. rewrite Hnear.
  unfold bind at 1. unfold call at 1. rewrite H.
  destruct e; reflexivity.
Qed.

Lemma cache_hit (cached : response) :
  cache_get_json w (key_for nearby) = Val (Some cached) ->
  run = match cache_ttl_seconds w (key_for nearby) with
        | Val ttl =>
            (Val (with_cache cached (mk_cache_info true (Some (is_near_stale ttl)))),
             ((tr ++ [NearbyStores zipcode]) ++ [CacheGet (key_for nearby)])
             ++ [CacheTtl (key_for nearby)])
        | Exc e =>
            (Exc (surfaced e),
             ((tr ++ [NearbyStores zipcode]) ++ [CacheGet (key_for nearby)])
             ++ [CacheTtl (key_for nearby)])
        end.
Proof.
  intros H. unfold aggregate_products, try_except, aggregate_body.
  rewrite Hzip. cbn [negb]. unfold bind at 1. unfold call at 1. rewrite Hnear.
  unfold bind at 1. unfold call at 1. rewrite H.
  unfold bind at 1. unfold call at 1.
  destruct (cache_ttl_seconds w (key_for nearby)) as [ttl|e]; [reflexivity|].
  destruct e; reflexivity.
Qed.

Lemma cache_miss (all : list offer) (tr1 : trace) :
  cache_get_json w (key_for nearby) = Val None ->
  offers_collected w query zipcode enhance (considered_for nearby)
    ((tr ++ [NearbyStores zipcode]) ++ [CacheGet (key_for nearby)]) = (Val all, tr1) ->
  run = match cache_set_json w (key_for nearby)
                (mk_response query zipcode (considered_for nearby)
                   (map snd (group_offers all)) (txt "aggregate(sonar)") None)
                products_ttl with
        | Val _ =>
            (Val (mk_response query zipcode (considered_for nearby)
                    (map snd (group_offers all)) (txt "aggregate(sonar)")
                    (Some (mk_cache_info false None))),
             tr1 ++ [CacheSet (key_for nearby)])
        | Exc e => (Exc (surfaced e), tr1 ++ [CacheSet (key_for nearby)])
        end.
Proof.
  intros H Hrun. unfold aggregate_products, try_except, aggregate_body.
  rewrite Hzip. cbn [negb]. unfold bind at 1. unfold call at 1. rewrite Hnear.
  unfold bind at 1. unfold call at 1. rewrite H.
  unfold bind at 1. rewrite Hrun.
  unfold bind at 1. unfold call at 1.
  match goal with
  | |- context [cache_set_json w ?k ?r ?t] => destruct (cache_set_json w k r t) as [[]|e]
  end; [reflexivity|].
  destruct e; reflexivity.
Qed.

End Discovered.

End Call.

End AggregateFacts.


(** X4.  For an allowlist of ASCII text: a response computed on a cache
    miss lists at most ten candidate stores: the caller's allowlist,
    lower-cased, without blank entries, cut to its first ten, when there is
    one, and otherwise the first ten discovered stores. *)
Theorem stores_considered_bounded (w : Main.world) (query zipcode : str)
    (stores : option str) (enhance : bool) (tr tr' : Main.trace) (resp : Main.response) :
  match stores with Some s => is_ascii s = true | None => True end ->
  Main.aggregate_products w query zipcode stores enhance tr = (Val resp, tr') ->
  Main.cache resp = Some (Main.mk_cache_info false None) ->
  length (Main.stores_considered resp) <= 10
  /\ (Main.user_store_ids stores <> [] ->
      Main.stores_considered resp = firstn 10 (Main.user_store_ids stores))
  /\ (Main.user_store_ids stores = [] ->
      exists nearby,
        Main.get_nearby_stores w zipcode = Val nearby
        /\ Main.stores_considered resp = firstn 10 (map Sonar.store_id nearby)).
Proof.
  intros _ Hrun Hmiss.
  destruct (Main.zipcode_ok zipcode) eqn:Hzip.
  2:{ unfold Main.aggregate_products, try_except, Main.aggregate_body in Hrun.
      rewrite Hzip in Hrun. discriminate Hrun. }
  destruct (Main.get_nearby_stores w zipcode) as [nearby|e] eqn:Hnear.
  2:{ rewrite (AggregateFacts.discovery_fails w query zipcode stores enhance tr Hzip Hnear) in Hrun.
      discriminate Hrun. }
  pose proof (@AggregateFacts.cache_read_fails w query zipcode stores enhance tr Hzip nearby Hnear) as Hread.
  pose proof (@AggregateFacts.cache_hit w query zipcode stores enhance tr Hzip nearby Hnear) as Hhit.
  pose proof (@AggregateFacts.cache_miss w query zipcode stores enhance tr Hzip nearby Hnear) as Hm.
  set (considered := if is_nil (Main.user_store_ids stores)
                     then firstn 10 (map Sonar.store_id nearby)
                     else firstn 10 (Main.user_store_ids stores)) in *.
  set (key := Cache.products_key (Main.sha1_hex w) zipcode query considered enhance) in *.
  destruct (Main.cache_get_json w key) as [[cached|]|e] eqn:Hget.
  - rewrite (Hhit cached eq_refl) in Hrun.
    destruct (Main.cache_ttl_seconds w key); [|discriminate Hrun].
    injection Hrun as <- _. discriminate Hmiss.
  - rewrite (Hm _ _ eq_refl (FanOutFacts.offers_collected_run _ _ _ _ _ _)) in Hrun.
    match type of Hrun with
    | context [Main.cache_set_json w ?k ?r ?t] =>
        destruct (Main.cache_set_json w k r t); [|discriminate Hrun]
    end.
    injection Hrun as <- _. cbn [Main.stores_considered].
    split; [|split].
    + unfold considered. destruct (is_nil (Main.user_store_ids stores));
        rewrite length_firstn; apply Nat.le_min_l.
    + intros Hne. unfold considered.
      destruct (Main.user_store_ids stores); [contradiction | reflexivity].
    + intros Hnil. exists nearby. split; [reflexivity|].
      unfold considered. rewrite Hnil. reflexivity.
  - rewrite (Hread e eq_refl) in Hrun. discriminate Hrun.
Qed.

Lemma stores_considered_bounded_witness :
  exists resp tr',
    Main.aggregate_products (Samples.one_timeout (Val tt)) (txt "oat milk") (txt "60622")
      (Some (txt "Kroger, ,TARGET")) false [] = (Val resp, tr')
    /\ length (Main.stores_considered resp) <= 10
    /\ Main.stores_considered resp = [txt "kroger"; txt "target"].
Proof.
  eexists. eexists. split; [vm_compute; reflexivity|].
  match goal with
  | |- length (Main.stores_considered ?r) <= 10 /\ _ =>
      destruct (@stores_considered_bounded (Samples.one_timeout (Val tt))
                  (txt "oat milk") (txt "60622") (Some (txt "Kroger, ,TARGET")) false
                  [] _ r ltac:(reflexivity) ltac:(vm_compute; reflexivity)
                  ltac:(reflexivity))
        as [Hlen [Hallow _]]
  end.
  split; [exact Hlen|].
  rewrite Hallow by (vm_compute; discriminate). vm_compute. reflexivity.
Defined.


(** X5.  For a request with ASCII parameters: an exception that leaves
    the endpoint function [aggregate_products] has the status 400, with no
    collaborator called, exactly when the zipcode fails its check; any other
    one comes from an exception of the store discovery or of a cache
    operation (read, TTL or write), and carries the status 500 unless that
    exception is itself an HTTP exception.  No exception of a source client
    leaves the function.  (What becomes of a value the function returns is
    not part of this.) *)
Theorem error_response_origin (w : Main.world) (query zipcode : str)
    (stores : option str) (enhance : bool) (tr tr' : Main.trace) (e : exn) :
  is_ascii zipcode = true ->
  is_ascii query = true ->
  match stores with Some s => is_ascii s = true | None => True end ->
  Main.aggregate_products w query zipcode stores enhance tr = (Exc e, tr') ->
  (Main.zipcode_ok zipcode = false /\ e = HTTPException 400 /\ tr' = tr)
  \/ (Main.zipcode_ok zipcode = true
      /\ exists e0,
           e = match e0 with
               | HTTPException status_code => HTTPException status_code
               | _ => HTTPException 500
               end
           /\ (Main.get_nearby_stores w zipcode = Exc e0
               \/ exists nearby,
                    Main.get_nearby_stores w zipcode = Val nearby
                    /\ let considered :=
                         if is_nil (Main.user_store_ids stores)
                         then firstn 10 (map Sonar.store_id nearby)
                         else firstn 10 (Main.user_store_ids stores) in
                       let key := Cache.products_key (Main.sha1_hex w) zipcode query
                                    considered enhance in
                       Main.cache_get_json w key = Exc e0
                       \/ ((exists cached, Main.cache_get_json w key = Val (Some cached))
                           /\ Main.cache_ttl_seconds w key = Exc e0)
                       \/ (Main.cache_get_json w key = Val None
                           /\ exists r, Main.cache_set_json w key r Main.products_ttl
                                        = Exc e0))).
Proof.
  intros _ _ _ Hrun.
  destruct (Main.zipcode_ok zipcode) eqn:Hzip.
  2:{ left. unfold Main.aggregate_products, try_except, Main.aggregate_body in Hrun.
      rewrite Hzip in Hrun. injection Hrun as <- <-. auto. }
  right. split; [reflexivity|].
  destruct (Main.get_nearby_stores w zipcode) as [nearby|e0] eqn:Hnear.
  2:{ rewrite (AggregateFacts.discovery_fails w query zipcode stores enhance tr Hzip Hnear)
        in Hrun.
      injection Hrun as <- _. exists e0. auto. }
  pose proof (@AggregateFacts.cache_read_fails w query zipcode stores enhance tr Hzip
                nearby Hnear) as Hread.
  pose proof (@AggregateFacts.cache_hit w query zipcode stores enhance tr Hzip
                nearby Hnear) as Hhit.
  pose proof (@AggregateFacts.cache_miss w query zipcode stores enhance tr Hzip
                nearby Hnear) as Hm.
  set (considered := if is_nil (Main.user_store_ids stores)
                     then firstn 10 (map Sonar.store_id nearby)
                     else firstn 10 (Main.user_store_ids stores)) in *.
  set (key := Cache.products_key (Main.sha1_hex w) zipcode query considered enhance) in *.
  destruct (Main.cache_get_json w key) as [[cached|]|e0] eqn:Hget.
  - rewrite (Hhit cached eq_refl) in Hrun.
    destruct (Main.cache_ttl_seconds w key) as [ttl|e0] eqn:Httl; [discriminate Hrun|].
    injection Hrun as <- _. exists e0. split; [reflexivity|].
    right. exists nearby. split; [reflexivity|]. right. left.
    split; [exists cached; exact Hget | exact Httl].
  - rewrite (Hm _ _ eq_refl (FanOutFacts.offers_collected_run _ _ _ _ _ _)) in Hrun.
    match type of Hrun with
    | context [Main.cache_set_json w ?k ?r ?t] =>
        destruct (Main.cache_set_json w k r t) as [[]|e0] eqn:Hset; [discriminate Hrun|];
        injection Hrun as <- _; exists e0; split; [reflexivity|];
        right; exists nearby; split; [reflexivity|]; right; right;
        split; [exact Hget | exists r; exact Hset]
    end.
  - rewrite (Hread e0 eq_refl) in Hrun. injection Hrun as <- _.
    exists e0. split; [reflexivity|]. right. exists nearby. split; [reflexivity|].
    left. exact Hget.
Qed.

Lemma error_response_origin_witness :
  exists e0,
    HTTPException 500 = match e0 with
                        | HTTPException status_code => HTTPException status_code
                        | _ => HTTPException 500
                        end
    /\ Main.get_nearby_stores MoreSamples.discovery_down (txt "60622") = Exc e0.
Proof.
  destruct (@error_response_origin MoreSamples.discovery_down (txt "oat milk")
              (txt "60622") None false [] [Main.NearbyStores (txt "60622")]
              (HTTPException 500) ltac:(reflexivity) ltac:(reflexivity) I
              ltac:(reflexivity))
    as [[Hbad _]|[_ [e0 [He [Hd|[nearby [Hn _]]]]]]].
  - discriminate Hbad.
  - exists e0. split; [exact He | exact Hd].
  - discriminate Hn.
Defined.



(** ** The groups as a partition of the offers *)

Module PartitionFacts.
Import Main.

Lemma append_offer_keys (k : str) (e : store_offer) (G : list (str * group)) :
  map fst (append_offer k e G) = map fst G.
Proof.
  unfold append_offer. induction G as [|[k0 g0] G IH]; [reflexivity|].
  simpl. rewrite IH. destruct (str_eqb k k0); reflexivity.
Qed.

Lemma has_key_keys (k : str) (G : list (str * group)) :
  has_key k G = true <-> In k (map fst G).
Proof.
  rewrite GroupingFacts.has_key_true. rewrite in_map_iff. split.
  - intros [g Hin]. exists (k, g). auto.
  - intros [[k' g] [E Hin]]. simpl in E. subst k'. exists g. exact Hin.
Qed.

Lemma append_offer_absent (k : str) (e : store_offer) (G : list (str * group)) :
  ~ In k (map fst G) -> append_offer k e G = G.
Proof.
  unfold append_offer. induction G as [|[k0 g0] G IH]; intros Hno; [reflexivity|].
  simpl. destruct (str_eqb k k0) eqn:E.
  - apply str_eqb_eq in E. subst k0. exfalso. apply Hno. left. reflexivity.
  - rewrite IH; [reflexivity|]. intros H. apply Hno. right. exact H.
Qed.

Lemma list_sum_cons (a : nat) (l : list nat) : list_sum (a :: l) = a + list_sum l.
Proof. reflexivity. Qed.

Lemma append_offer_cons (k k0 : str) (e : store_offer) (g0 : group)
    (G : list (str * group)) :
  append_offer k e ((k0, g0) :: G)
  = (if str_eqb k k0 then (k0, mk_group (canonical g0) (offers g0 ++ [e])) else (k0, g0))
    :: append_offer k e G.
Proof. reflexivity. Qed.

(** Appending to the group of a key that is present once adds one offer. *)
Lemma append_offer_total (k : str) (e : store_offer) (G : list (str * group)) :
  NoDup (map fst G) -> In k (map fst G) ->
  list_sum (map (fun g => length (offers g)) (map snd (append_offer k e G)))
  = S (list_sum (map (fun g => length (offers g)) (map snd G))).
Proof.
  induction G as [|[k0 g0] G IH]; intros Hnd Hin; [destruct Hin|].
  inversion Hnd as [|? ? Hk0 Hnd']; subst.
  rewrite append_offer_cons. destruct (str_eqb k k0) eqn:E.
  - apply str_eqb_eq in E. subst k0.
    rewrite append_offer_absent by exact Hk0.
    cbn [snd offers map]. rewrite !list_sum_cons, length_app. simpl. lia.
  - cbn [snd map]. rewrite !list_sum_cons.
    rewrite IH; [lia | exact Hnd'|].
    destruct Hin as [Hin|Hin]; [|exact Hin].
    simpl in Hin. subst k0. rewrite str_eqb_refl in E. discriminate.
Qed.

(** The keys stay distinct, no group is empty, and every offer is counted
    once. *)
Lemma partition_invariant (l : list offer) :
  NoDup (map fst (group_offers l))
  /\ (forall k g, In (k, g) (group_offers l) -> offers g <> [])
  /\ list_sum (map (fun g => length (offers g)) (map snd (group_offers l))) = length l.
Proof.
  induction l as [|o l [Hnd [Hne Hsum]]] using rev_ind.
  - simpl. split; [constructor|]. split; [intros k g []|reflexivity].
  - rewrite GroupingFacts.group_offers_snoc. unfold add_offer.
    set (G := group_offers l) in *.
    assert (Hnd' : NoDup (map fst (if has_key (gkey o) G then G
                                   else G ++ [(gkey o, new_group o)]))).
    { destruct (has_key (gkey o) G) eqn:HK; [exact Hnd|].
      rewrite map_app. apply ListFacts.NoDup_snoc; [exact Hnd|].
      intros Hin. cbn [fst] in Hin. apply has_key_keys in Hin.
      rewrite Hin in HK. discriminate. }
    assert (Hin' : In (gkey o) (map fst (if has_key (gkey o) G then G
                                         else G ++ [(gkey o, new_group o)]))).
    { destruct (has_key (gkey o) G) eqn:HK; [apply has_key_keys; exact HK|].
      rewrite map_app. apply in_or_app. right. left. reflexivity. }
    split; [rewrite append_offer_keys; exact Hnd'|]. split.
    + intros k g Hin. unfold append_offer in Hin.
      apply in_map_iff in Hin as [[k0 g0] [E Hin]]. simpl in E.
      destruct (str_eqb (gkey o) k0) eqn:Ek.
      * injection E as <- <-. simpl. intros H. apply app_eq_nil in H as [_ H].
        discriminate H.
      * injection E as <- <-.
        destruct (has_key (gkey o) G) eqn:HK; [exact (Hne _ _ Hin)|].
        apply in_app_or in Hin as [Hin|[Hnew|[]]]; [exact (Hne _ _ Hin)|].
        injection Hnew as <- <-. rewrite str_eqb_refl in Ek. discriminate Ek.
    + rewrite append_offer_total by assumption.
      rewrite length_app. simpl.
      destruct (has_key (gkey o) G); [rewrite Hsum; lia|].
      rewrite !map_app, list_sum_app. cbn [map snd new_group offers length].
      rewrite list_sum_cons. simpl. rewrite Hsum. lia.
Qed.

End PartitionFacts.

(** X7.  The groups partition the offers of a run: the group keys are
    pairwise distinct, no group is without an offer, and the offers of all
    groups together are as many as the offers of the run. *)
Theorem groups_partition_offers (all_offers : list Main.offer) :
  NoDup (map fst (Main.group_offers all_offers))
  /\ (forall g, In g (map snd (Main.group_offers all_offers)) -> Main.offers g <> [])
  /\ list_sum (map (fun g => length (Main.offers g))
                   (map snd (Main.group_offers all_offers)))
     = length all_offers
  /\ length (map snd (Main.group_offers all_offers)) <= length all_offers.
Proof.
  destruct (PartitionFacts.partition_invariant all_offers) as [Hnd [Hne Hsum]].
  split; [exact Hnd|]. split; [|split; [exact Hsum|]].
  - intros g Hg. apply in_map_iff in Hg as [[k g'] [E Hg]]. simpl in E. subst g'.
    exact (Hne _ _ Hg).
  - rewrite <- Hsum. clear Hsum Hnd.
    assert (Hpos : forall g, In g (map snd (Main.group_offers all_offers)) ->
                             1 <= length (Main.offers g)).
    { intros g Hg. apply in_map_iff in Hg as [[k g'] [E Hg]]. simpl in E. subst g'.
      specialize (Hne _ _ Hg). destruct (Main.offers g); [contradiction | simpl; lia]. }
    revert Hpos. generalize (map snd (Main.group_offers all_offers)). intros gs Hpos.
    induction gs as [|g gs IH]; [simpl; lia|].
    cbn [map length]. rewrite PartitionFacts.list_sum_cons.
    pose proof (Hpos g (or_introl eq_refl)) as Hg.
    assert (length gs <= list_sum (map (fun g0 => length (Main.offers g0)) gs)).
    { apply IH. intros g0 H0. apply Hpos. right. exact H0. }
    lia.
Qed.

(** ** The shape of a store id *)

Module SlugShape.

Lemma contains_cons (sub : str) (a : ascii) (t : str) :
  contains sub (a :: t) = startswith sub (a :: t) || contains sub t.
Proof. reflexivity. Qed.

Lemma contains_no_char (u : ascii) (s : str) :
  ~ In u s -> contains [u; u] s = false.
Proof.
  induction s as [|c t IH]; intros Hno; [reflexivity|].
  cbn [contains startswith]. destruct (Ascii.eqb u c) eqn:E.
  - apply Ascii.eqb_eq in E. subst c. exfalso. apply Hno. left. reflexivity.
  - cbn [andb orb]. apply IH. intros H. apply Hno. right. exact H.
Qed.

(** A piece free of [u], then [u], then a text that does not begin with
    [u] and has no doubled [u]: still no doubled [u]. *)
Lemma contains_after_piece (u c : ascii) (p t : str) :
  ~ In u p -> c <> u -> contains [u; u] (c :: t) = false ->
  contains [u; u] (p ++ u :: c :: t) = false.
Proof.
  intros Hp Hc Ht. induction p as [|a p IH].
  - cbn [app]. rewrite contains_cons, Ht, orb_false_r.
    cbn [startswith]. destruct (Ascii.eqb u c) eqn:E.
    + apply Ascii.eqb_eq in E. subst c. contradiction.
    + rewrite andb_false_r. reflexivity.
  - cbn [app]. rewrite contains_cons. rewrite IH.
    + rewrite orb_false_r. cbn [startswith]. destruct (Ascii.eqb u a) eqn:E.
      * apply Ascii.eqb_eq in E. subst a. exfalso. apply Hp. left. reflexivity.
      * reflexivity.
    + intros H. apply Hp. right. exact H.
Qed.

Lemma startswith_app_head (u c : ascii) (t rest : str) :
  startswith [u] ((c :: t) ++ rest) = startswith [u] (c :: t).
Proof. reflexivity. Qed.

Lemma rev_head_in (u : ascii) (p : str) :
  ~ In u p -> startswith [u] (rev p) = false.
Proof.
  intros Hno. destruct (rev p) as [|c t] eqn:E; [reflexivity|].
  cbn [startswith]. destruct (Ascii.eqb u c) eqn:Ec; [|reflexivity].
  apply Ascii.eqb_eq in Ec. subst c. exfalso. apply Hno.
  apply in_rev. rewrite E. left. reflexivity.
Qed.

(** The shape of a join of non-empty pieces that are free of the separator. *)
Lemma join_shape (u : ascii) (pieces : list str) :
  Forall (fun p => p <> [] /\ ~ In u p) pieces -> pieces <> [] ->
  exists c t,
    join [u] pieces = c :: t
    /\ c <> u
    /\ contains [u; u] (c :: t) = false
    /\ startswith [u] (rev (c :: t)) = false.
Proof.
  induction pieces as [|p rest IH]; intros Hp Hne; [contradiction|].
  inversion Hp as [|? ? [Hpne Hpfree] Hrest]; subst.
  destruct p as [|c p]; [contradiction|].
  assert (Hc : c <> u) by (intros ->; apply Hpfree; left; reflexivity).
  destruct rest as [|q rest].
  - exists c, p. cbn [join]. split; [reflexivity|]. split; [exact Hc|].
    split; [apply contains_no_char; exact Hpfree | apply rev_head_in; exact Hpfree].
  - destruct (IH Hrest ltac:(discriminate)) as [c' [t' [Ej [Hc' [Hcont Hlast]]]]].
    exists c, (p ++ u :: join [u] (q :: rest)).
    change (join [u] ((c :: p) :: q :: rest))
      with ((c :: p) ++ u :: join [u] (q :: rest)).
    split; [reflexivity|]. split; [exact Hc|]. rewrite Ej. split.
    + change (c :: p ++ u :: c' :: t') with ((c :: p) ++ u :: c' :: t').
      apply contains_after_piece; assumption.
    + change (c :: p ++ u :: c' :: t') with ((c :: p) ++ u :: c' :: t').
      rewrite rev_app_distr.
      change (rev (u :: c' :: t')) with (rev (c' :: t') ++ [u]).
      destruct (rev (c' :: t')) as [|x xs] eqn:Ex.
      * apply (f_equal (@length ascii)) in Ex. rewrite length_rev in Ex.
        discriminate Ex.
      * exact Hlast.
Qed.

End SlugShape.

(** X8.  A store id made by [_create_store_id] from a name of ASCII text
    consists of lower-case ASCII letters, digits and underscores only; it
    neither begins nor ends with an underscore and has no two underscores
    in a row. *)
Theorem create_store_id_shape (store_name : str) :
  is_ascii store_name = true ->
  forallb (fun c => is_lower c || is_digit c || Ascii.eqb c "_")
          (Sonar._create_store_id store_name) = true
  /\ startswith (txt "_") (Sonar._create_store_id store_name) = false
  /\ startswith (txt "_") (rev (Sonar._create_store_id store_name)) = false
  /\ contains (txt "__") (Sonar._create_store_id store_name) = false.
Proof.
  intros _.
  pose proof (SlugFacts.slug_pieces store_name) as Hp. cbv zeta in Hp.
  unfold Sonar._create_store_id.
  set (pieces := filter truthy _) in *.
  split.
  - apply forallb_forall. apply Forall_forall.
    apply (Forall_impl (P := fun c => (isalnum c || Ascii.eqb c "_") = true
                                      /\ is_upper c = false)).
    + intros c [K U]. unfold isalnum, is_alpha in K. rewrite U in K.
      cbn [orb] in K. exact K.
    + apply SlugFacts.join_Forall; [repeat constructor|].
      eapply Forall_impl; [|exact Hp]. intros p [_ [_ H]]. exact H.
  - destruct pieces as [|p rest] eqn:E; [repeat split; reflexivity|].
    destruct (@SlugShape.join_shape "_"%char (p :: rest)) as [c [t [Ej [Hc [Hcont Hlast]]]]].
    + eapply Forall_impl; [|exact Hp]. intros q [H1 [H2 _]]. auto.
    + discriminate.
    + change (txt "_") with ["_"%char]. change (txt "__") with ["_"%char; "_"%char].
      rewrite Ej. split; [|split; assumption].
      cbn [startswith]. destruct (Ascii.eqb "_" c) eqn:Ec; [|reflexivity].
      apply Ascii.eqb_eq in Ec. subst c. contradiction.
Qed.

Lemma create_store_id_shape_witness :
  let id := Sonar._create_store_id (txt " Trader Joe's -- Stop & Shop #12 ") in
  id = txt "trader_joes_stop_and_shop_12"
  /\ forallb (fun c => is_lower c || is_digit c || Ascii.eqb c "_") id = true
  /\ startswith (txt "_") id = false
  /\ startswith (txt "_") (rev id) = false
  /\ contains (txt "__") id = false.
Proof.
  intros id. split; [vm_compute; reflexivity|].
  apply (@create_store_id_shape (txt " Trader Joe's -- Stop & Shop #12 ")).
  reflexivity.
Defined.

(** ** Invariants of the product parser *)

Module ProductFacts.
Import Sonar.

(** *** Computations that keep a property of every collected record *)

Section Keeping.

Variable A0 : Type.
Variable G : A0 -> Prop.

Local Abbreviation keeps c Q :=
  (forall s, Forall G s ->
     Forall G (snd (c s)) /\ forall a, fst (c s) = Val a -> Q a).

Lemma keeps_ret {A : Type} (a : A) (Q : A -> Prop) :
  Q a -> keeps (@ret (list A0) A a) Q.
Proof. intros Ha s Hs. split; [exact Hs|]. simpl. intros a' E. injection E as <-. exact Ha. Qed.

Lemma keeps_lift {A : Type} (c : outcome A) (Q : A -> Prop) :
  (forall a, c = Val a -> Q a) -> keeps (@lift (list A0) A c) Q.
Proof. intros H s Hs. split; [exact Hs | exact H]. Qed.

Lemma keeps_raise {A : Type} (e : exn) (Q : A -> Prop) :
  keeps (@raise (list A0) A e) Q.
Proof. intros s Hs. split; [exact Hs|]. simpl. intros a E. discriminate E. Qed.

Lemma keeps_get (Q : list A0 -> Prop) :
  (forall s, Forall G s -> Q s) -> keeps (@get (list A0)) Q.
Proof.
  intros H s Hs. split; [exact Hs|]. simpl. intros a E. injection E as <-. apply H, Hs.
Qed.

Lemma keeps_put (l : list A0) (Q : unit -> Prop) :
  Forall G l -> Q tt -> keeps (put l) Q.
Proof. intros Hl Ht s Hs. split; [exact Hl|]. intros []. intros _. exact Ht. Qed.

Lemma keeps_bind {A B : Type} (c : M (list A0) A) (k : A -> M (list A0) B)
    (Q : A -> Prop) (R : B -> Prop) :
  keeps c Q -> (forall a, Q a -> keeps (k a) R) -> keeps (bind c k) R.
Proof.
  intros Hc Hk s Hs. unfold bind. destruct (Hc s Hs) as [Hs' Hq].
  destruct (c s) as [[a|e] s']; simpl in *.
  - apply (Hk a (Hq a eq_refl) s' Hs').
  - split; [exact Hs' | intros b E; discriminate E].
Qed.

Lemma keeps_weaken {A : Type} (c : M (list A0) A) (Q R : A -> Prop) :
  keeps c Q -> (forall a, Q a -> R a) -> keeps c R.
Proof.
  intros Hc H s Hs. destruct (Hc s Hs) as [Hs' Hq].
  split; [exact Hs' | intros a E; apply H, Hq, E].
Qed.

Lemma keeps_try {A : Type} (body : M (list A0) A) (handler : exn -> M (list A0) A)
    (Q : A -> Prop) :
  keeps body Q -> (forall e, keeps (handler e) Q) -> keeps (try_except body handler) Q.
Proof.
  intros Hb Hh s Hs. unfold try_except. destruct (Hb s Hs) as [Hs' Hq].
  destruct (body s) as [[a|e] s']; simpl in *.
  - split; [exact Hs' | exact Hq].
  - apply (Hh e s' Hs').
Qed.

Lemma keeps_for_each {A : Type} (l : list A) (body : A -> M (list A0) unit) :
  (forall x, keeps (body x) (fun _ => True)) ->
  keeps (for_each l body) (fun _ => True).
Proof.
  intros Hb. induction l as [|x l IH]; cbn [for_each].
  - apply keeps_ret. exact I.
  - eapply keeps_bind; [apply Hb|]. intros _ _. exact IH.
Qed.

Lemma keeps_fold_m {A V : Type} (l : list A) (body : V -> A -> M (list A0) V)
    (Q : V -> Prop) :
  (forall v x, Q v -> keeps (body v x) Q) ->
  forall v, Q v -> keeps (fold_m l body v) Q.
Proof.
  intros Hb. induction l as [|x l IH]; intros v Hv; cbn [fold_m].
  - apply keeps_ret. exact Hv.
  - eapply keeps_bind; [apply Hb; exact Hv|]. intros v' Hv'. apply IH. exact Hv'.
Qed.

End Keeping.

Lemma fold_o_keeps {A V : Type} (Q : V -> Prop) (body : V -> A -> outcome V)
    (l : list A) :
  (forall v x v', Q v -> body v x = Val v' -> Q v') ->
  forall v v', Q v -> fold_o l body v = Val v' -> Q v'.
Proof.
  intros Hb. induction l as [|x l IH]; intros v v' Hv; cbn [fold_o].
  - intros E. injection E as <-. exact Hv.
  - unfold obind. destruct (body v x) as [v1|e] eqn:E1; [|discriminate].
    apply IH. eapply Hb; eassumption.
Qed.

Lemma accepted_true (v literal : str) :
  accepted v literal = true -> v <> [] /\ v <> literal.
Proof.
  unfold accepted. intros H. apply andb_true_iff in H as [H _].
  apply andb_true_iff in H as [Ht Hn]. split.
  - intros ->. discriminate Ht.
  - intros ->. rewrite str_eqb_refl in Hn. discriminate Hn.
Qed.

(** *** What a match of the image pattern begins with *)

Lemma star_k_suffix {A : Type} (p : ascii -> bool) (k : str -> option A) (s : str) (a : A) :
  Re.star_k p k s = Some a -> exists s', k s' = Some a /\ length s' <= length s.
Proof.
  induction s as [|c t IH]; cbn [Re.star_k]; intros H.
  - exists []. split; [exact H | apply Nat.le_refl].
  - destruct (p c).
    + destruct (Re.star_k p k t) as [r|] eqn:E.
      * injection H as ->. destruct (IH eq_refl) as [s' [Hk Hl]].
        exists s'. split; [exact Hk | simpl; lia].
      * exists (c :: t). split; [exact H | apply Nat.le_refl].
    + exists (c :: t). split; [exact H | apply Nat.le_refl].
Qed.

(** The continuation of a match is called on a suffix of the text. *)
Lemma rmatch_suffix {A : Type} (r : Re.regex) :
  forall (s : str) (k : str -> option A) (a : A),
    Re.rmatch r s k = Some a -> exists s', k s' = Some a /\ length s' <= length s.
Proof.
  induction r as [|p|r1 IH1 r2 IH2|r1 IH1 r2 IH2|r IH|p|p];
    intros s k a H; cbn [Re.rmatch] in H.
  - exists s. split; [exact H | apply Nat.le_refl].
  - destruct s as [|c t]; [discriminate|]. destruct (p c); [|discriminate].
    exists t. split; [exact H | simpl; lia].
  - apply IH1 in H as [s1 [H Hl1]]. apply IH2 in H as [s2 [H Hl2]].
    exists s2. split; [exact H | lia].
  - destruct (Re.rmatch r1 s k) as [x|] eqn:E.
    + injection H as ->. apply IH1 in E. exact E.
    + apply IH2 in H. exact H.
  - destruct (Re.rmatch r s k) as [x|] eqn:E.
    + injection H as ->. apply IH in E. exact E.
    + exists s. split; [exact H | apply Nat.le_refl].
  - apply star_k_suffix in H. exact H.
  - destruct s as [|c t]; [discriminate|]. destruct (p c); [|discriminate].
    apply star_k_suffix in H as [s' [H Hl]]. exists s'. split; [exact H | simpl; lia].
Qed.

Lemma seq_cls_head (p : ascii -> bool) (L X : Re.regex) (s rest : str) :
  Re.match_at (Re.Seq (Re.Seq (Re.Cls p) L) X) s = Some rest ->
  exists c t, s = c :: t /\ p c = true /\ length rest <= length t.
Proof.
  unfold Re.match_at. cbn [Re.rmatch]. destruct s as [|c t]; [discriminate|].
  destruct (p c) eqn:E; [|discriminate]. intros H.
  apply rmatch_suffix in H as [s1 [H Hl1]]. apply rmatch_suffix in H as [s2 [H Hl2]].
  injection H as ->. exists c, t. split; [reflexivity|]. split; [exact E | lia].
Qed.

Lemma search_head (p : ascii -> bool) (L X : Re.regex) (s m : str) :
  Re.search (Re.Seq (Re.Seq (Re.Cls p) L) X) s = Some m ->
  exists c t, m = c :: t /\ p c = true.
Proof.
  induction s as [|c0 t0 IH]; rewrite PriceFacts.search_unfold.
  - destruct (Re.match_at _ []) eqn:E; [|discriminate].
    apply seq_cls_head in E as [c [t [E _]]]. discriminate E.
  - destruct (Re.match_at _ (c0 :: t0)) as [rest|] eqn:E; [|exact IH].
    clear IH. apply seq_cls_head in E as [c [t [E [Hp Hl]]]].
    assert (Hn : length (c0 :: t0) - length rest = S (length t - length rest))
      by (rewrite E; cbn [length]; lia).
    rewrite Hn, E. cbn [firstn]. intros H. injection H as <-.
    exists c, (firstn (length t - length rest) t). split; [reflexivity | exact Hp].
Qed.

(** A match of the image pattern begins with the letter h, in either case. *)
Lemma image_match_head (s m : str) :
  Re.search Re.image_pattern s = Some m ->
  exists c t, m = c :: t /\ lower_char c = "h"%char.
Proof.
  intros H.
  destruct (@search_head (fun x => Ascii.eqb (lower_char x) (lower_char "h"%char))
              _ _ s m H) as [c [t [E Hp]]].
  exists c, t. split; [exact E|]. apply Ascii.eqb_eq in Hp. exact Hp.
Qed.

(** *** One line keeps a record clean *)

Local Abbreviation clean p :=
  ((forall f v, Shape.field_text f p = Some v -> v <> [] /\ v <> parser_placeholder f)
   /\ image_url p <> Some (txt "N/A")
   /\ (forall l, price p = Some (PriceNum l) -> decimal_literal l = true)).

Lemma clean_empty : clean empty_product.
Proof.
  split; [|split].
  - intros f v H. destruct f; discriminate H.
  - discriminate.
  - intros l H. discriminate H.
Qed.

Ltac clean_set Hc Hv :=
  destruct Hc as [Hc1 [Hc2 Hc3]];
  split; [|split];
  [ let f := fresh "f" in let v := fresh "v" in let Hf := fresh "Hf" in
    intros f v Hf; destruct f;
    first [ match type of Hf with
            | Shape.field_text ?g _ = Some ?w => exact (Hc1 g w Hf)
            end
          | cbn in Hf; injection Hf as <-; exact Hv
          | cbn in Hf; discriminate Hf ]
  | first [ exact Hc2 | idtac ]
  | first [ exact Hc3 | idtac ] ].

Lemma clean_set_name v p :
  clean p -> v <> [] /\ v <> parser_placeholder PRODUCT -> clean (set_name v p).
Proof. intros Hc Hv. clean_set Hc Hv. Qed.

Lemma clean_set_brand v p :
  clean p -> v <> [] /\ v <> parser_placeholder BRAND -> clean (set_brand v p).
Proof. intros Hc Hv. clean_set Hc Hv. Qed.

Lemma clean_set_size v p :
  clean p -> v <> [] /\ v <> parser_placeholder SIZE -> clean (set_size v p).
Proof. intros Hc Hv. clean_set Hc Hv. Qed.

Lemma clean_set_category v p :
  clean p -> v <> [] /\ v <> parser_placeholder CATEGORY -> clean (set_category v p).
Proof. intros Hc Hv. clean_set Hc Hv. Qed.

Lemma clean_set_availability v p :
  clean p -> v <> [] /\ v <> parser_placeholder AVAILABILITY ->
  clean (set_availability v p).
Proof. intros Hc Hv. clean_set Hc Hv. Qed.

Lemma clean_set_description v p :
  clean p -> v <> [] /\ v <> parser_placeholder DESCRIPTION ->
  clean (set_description v p).
Proof. intros Hc Hv. clean_set Hc Hv. Qed.

Lemma clean_set_deals v p :
  clean p -> v <> [] /\ v <> parser_placeholder DEALS -> clean (set_deals v p).
Proof. intros Hc Hv. clean_set Hc Hv. Qed.

Lemma clean_set_image_url v p :
  clean p -> v <> [] /\ v <> parser_placeholder IMAGE_URL -> v <> txt "N/A" ->
  clean (set_image_url v p).
Proof.
  intros Hc Hv Hna. clean_set Hc Hv.
  cbn. intros Hn. injection Hn as Hn. exact (Hna Hn).
Qed.

Lemma clean_set_price_text raw p :
  clean p -> raw <> [] /\ raw <> parser_placeholder PRICE ->
  clean (set_price (PriceText raw) p).
Proof. intros Hc Hv. clean_set Hc Hv. intros l Hl. discriminate Hl. Qed.

Lemma clean_set_price_num lit p :
  clean p -> decimal_literal lit = true -> clean (set_price (PriceNum lit) p).
Proof.
  intros Hc Hv. clean_set Hc Hv. intros l Hl. cbn in Hl. injection Hl as <-. exact Hv.
Qed.

Lemma negb_str_eqb (v x : str) : negb (str_eqb v x) = true -> v <> x.
Proof. intros H E. rewrite E, str_eqb_refl in H. discriminate H. Qed.

Lemma float_value (s v : str) : float s = Val v -> decimal_literal v = true.
Proof.
  unfold float. destruct (decimal_literal s) eqn:E; [|discriminate].
  intros H. injection H as <-. exact E.
Qed.

Lemma image_match_fresh (c : ascii) (t : str) :
  lower_char c = "h"%char ->
  (c :: t <> [] /\ c :: t <> parser_placeholder IMAGE_URL) /\ c :: t <> txt "N/A".
Proof.
  intros Hh. split; [split|].
  - discriminate.
  - intros E. vm_compute in E. injection E as -> _. discriminate Hh.
  - intros E. vm_compute in E. injection E as -> _. discriminate Hh.
Qed.

(** A line of a section leaves a clean record clean. *)
Lemma parse_product_line_clean (current_product p' : product) (raw_line : str) :
  clean current_product ->
  parse_product_line current_product raw_line = Val p' -> clean p'.
Proof.
  intros Hc H. unfold parse_product_line in H. cbv zeta in H.
  destruct (negb (truthy (strip raw_line))); [injection H as <-; exact Hc|].
  destruct (startswith (marker PRODUCT) _).
  { destruct (accepted _ _) eqn:Ea; injection H as <-; [|exact Hc].
    apply clean_set_name; [exact Hc | apply accepted_true, Ea]. }
  destruct (startswith (marker BRAND) _).
  { destruct (accepted _ _) eqn:Ea; injection H as <-; [|exact Hc].
    apply clean_set_brand; [exact Hc | apply accepted_true, Ea]. }
  destruct (startswith (marker PRICE) _).
  { destruct (accepted _ _) eqn:Ea; [|injection H as <-; exact Hc].
    destruct (Re.search Re.price_pattern _) as [m|] eqn:Es.
    - pose proof (PriceFacts.price_match_is_literal _ Es) as Hf.
      rewrite Hf in H. cbn [obind] in H. injection H as <-.
      apply clean_set_price_num; [exact Hc | exact (@float_value _ _ Hf)].
    - injection H as <-.
      apply clean_set_price_text; [exact Hc | apply accepted_true, Ea]. }
  destruct (startswith (marker SIZE) _).
  { destruct (accepted _ _) eqn:Ea; injection H as <-; [|exact Hc].
    apply clean_set_size; [exact Hc | apply accepted_true, Ea]. }
  destruct (startswith (marker CATEGORY) _).
  { destruct (accepted _ _) eqn:Ea; injection H as <-; [|exact Hc].
    apply clean_set_category; [exact Hc | apply accepted_true, Ea]. }
  destruct (startswith (marker AVAILABILITY) _).
  { destruct (accepted _ _) eqn:Ea; injection H as <-; [|exact Hc].
    apply clean_set_availability; [exact Hc | apply accepted_true, Ea]. }
  destruct (startswith (marker DESCRIPTION) _).
  { destruct (accepted _ _) eqn:Ea; injection H as <-; [|exact Hc].
    apply clean_set_description; [exact Hc | apply accepted_true, Ea]. }
  destruct (startswith (marker IMAGE_URL) _).
  { destruct (accepted _ _ && _) eqn:Ea; injection H as <-; [|exact Hc].
    apply andb_true_iff in Ea as [Ea Hna].
    apply clean_set_image_url; [exact Hc | apply accepted_true, Ea |].
    exact (@negb_str_eqb _ _ Hna). }
  assert (Hdeals :
    (if startswith (marker DEALS) (strip raw_line)
     then Val (if accepted (field_value (marker DEALS) (strip raw_line))
                           (parser_placeholder DEALS)
               then set_deals (field_value (marker DEALS) (strip raw_line)) current_product
               else current_product)
     else Val current_product) = Val p' -> clean p').
  { clear H. intros H. destruct (startswith (marker DEALS) _);
      [|injection H as <-; exact Hc].
    destruct (accepted _ _) eqn:Ea; injection H as <-; [|exact Hc].
    apply clean_set_deals; [exact Hc | apply accepted_true, Ea]. }
  destruct (Re.search Re.image_pattern _) as [m|] eqn:Es; [|exact (Hdeals H)].
  remember (image_url current_product) as existing eqn:Ei in H.
  destruct existing; [exact (Hdeals H)|].
  injection H as <-.
  destruct (image_match_head _ Es) as [c [t [-> Hh]]].
  destruct (@image_match_fresh c t Hh) as [H1 H2].
  apply clean_set_image_url; assumption.
Qed.

(** *** The records of both scanners *)

Local Abbreviation keeps G c Q :=
  (forall s, Forall G s ->
     Forall G (snd (c s)) /\ forall a, fst (c s) = Val a -> Q a).

Local Abbreviation sound p :=
  ((forall n, name p = Some n -> n <> [] /\ n <> parser_placeholder PRODUCT)
   /\ (forall l, price p = Some (PriceNum l) -> decimal_literal l = true)).

Local Abbreviation emitted p := (sound p /\ is_some (name p) = true).

Lemma clean_sound p : clean p -> sound p.
Proof.
  intros [H1 [_ H3]]. split; [|exact H3]. intros n Hn. exact (H1 PRODUCT n Hn).
Qed.

Lemma parse_section_keeps (G : product -> Prop) (section : str) :
  (forall p, clean p -> is_some (name p) = true -> G p) ->
  keeps G (parse_section section) (fun _ => True).
Proof.
  intros HG. unfold parse_section.
  eapply keeps_bind with (Q := fun p => clean p).
  - apply keeps_lift. intros p Hp.
    refine (@fold_o_keeps _ _ (fun p => clean p) parse_product_line _ _ _ _ clean_empty Hp).
    intros v x v' Hv Hx. exact (@parse_product_line_clean _ _ _ Hv Hx).
  - intros p Hp. destruct (is_some (name p)) eqn:En.
    + intros s Hs. cbn. split; [|intros; exact I].
      apply Forall_app. split; [exact Hs|]. constructor; [|constructor].
      apply HG; assumption.
    + apply keeps_ret. exact I.
Qed.

Lemma sound_same (p p' : product) :
  name p' = name p -> price p' = price p -> sound p -> sound p'.
Proof. intros En Ep [H1 H2]. rewrite En, Ep. split; assumption. Qed.

Lemma sound_empty : sound empty_product.
Proof. split; intros x H; discriminate H. Qed.

Lemma pattern_line_keeps (current_product : product) (raw_line : str) :
  sound current_product ->
  keeps (fun p => emitted p) (pattern_line current_product raw_line) (fun p => sound p).
Proof.
  intros Hc. unfold pattern_line. cbv zeta.
  destruct (negb (truthy (strip raw_line))) eqn:Et.
  { destruct (is_some (name current_product)) eqn:En.
    - intros s Hs. cbn. split.
      + apply Forall_app. split; [exact Hs|]. constructor; [|constructor].
        split; [exact Hc | exact En].
      + intros a E. injection E as <-. exact sound_empty.
    - apply keeps_ret. exact Hc. }
  destruct (any_in brand_keywords (lower (strip raw_line))) eqn:Eb.
  { apply keeps_ret. destruct (lacks_name current_product); [|exact Hc].
    destruct Hc as [_ H2]. split; [|exact H2].
    cbn. intros n Hn. injection Hn as <-. split.
    - intros E. rewrite E in Et. discriminate Et.
    - intros E. rewrite E in Eb. vm_compute in Eb. discriminate Eb. }
  destruct (Re.search Re.price_pattern _) as [m|] eqn:Es.
  { eapply keeps_bind with (Q := fun v => decimal_literal v = true).
    - apply keeps_lift. intros a Ha. exact (@float_value _ _ Ha).
    - intros v Hv. apply keeps_ret. destruct Hc as [H1 _]. split; [exact H1|].
      cbn. intros l Hl. injection Hl as <-. exact Hv. }
  destruct (any_in status_keywords _).
  { apply keeps_ret. exact (@sound_same current_product _ eq_refl eq_refl Hc). }
  destruct (any_in deal_keywords _).
  { apply keeps_ret. exact (@sound_same current_product _ eq_refl eq_refl Hc). }
  destruct (Re.search Re.size_pattern _).
  { apply keeps_ret. exact (@sound_same current_product _ eq_refl eq_refl Hc). }
  destruct (Re.search Re.image_pattern _).
  { apply keeps_ret. exact (@sound_same current_product _ eq_refl eq_refl Hc). }
  destruct (Re.search Re.url_pattern _); [|apply keeps_ret; exact Hc].
  destruct (image_url current_product); [apply keeps_ret; exact Hc|].
  apply keeps_ret. destruct (any_in product_page_domains _); [|exact Hc].
  exact (@sound_same current_product _ eq_refl eq_refl Hc).
Qed.

Lemma patterns_keep (response : str) :
  keeps (fun p => emitted p) (_parse_products_by_patterns response)
        (fun l => Forall (fun p => emitted p) l).
Proof.
  unfold _parse_products_by_patterns.
  eapply keeps_bind with (Q := fun _ : unit => True).
  - apply keeps_try; [|intros e; apply keeps_ret; exact I].
    eapply keeps_bind with (Q := fun p => sound p).
    + apply keeps_fold_m; [|exact sound_empty].
      intros v x Hv. apply pattern_line_keeps. exact Hv.
    + intros p Hp. destruct (is_some (name p)) eqn:En.
      * intros s Hs. cbn. split; [|intros; exact I].
        apply Forall_app. split; [exact Hs|]. constructor; [|constructor].
        split; [exact Hp | exact En].
      * apply keeps_ret. exact I.
  - intros _ _. apply keeps_get. intros s Hs. exact Hs.
Qed.

Lemma response_keeps (response : str) :
  keeps (fun p => emitted p) (_parse_product_response response)
        (fun l => Forall (fun p => emitted p) l).
Proof.
  unfold _parse_product_response.
  eapply keeps_bind
    with (Q := fun r : option (list product) =>
                 match r with
                 | Some l => Forall (fun p => emitted p) l
                 | None => True
                 end).
  - apply keeps_try; [|intros e; apply keeps_ret; exact I].
    destruct (contains _ _); [apply keeps_ret; constructor|].
    eapply keeps_bind with (Q := fun _ : unit => True).
    { apply keeps_for_each. intros x. apply parse_section_keeps.
      intros p Hp En. split; [exact (@clean_sound _ Hp) | exact En]. }
    intros _ _.
    eapply keeps_bind with (Q := fun _ : list product => True).
    { apply keeps_get. intros; exact I. }
    intros products _.
    eapply keeps_bind with (Q := fun _ : unit => True); [|intros _ _; apply keeps_ret; exact I].
    destruct (is_nil products); [|apply keeps_ret; exact I].
    destruct (patterns_keep response (@Forall_nil _ _)) as [_ Hl].
    destruct (_parse_products_by_patterns response []) as [[l|e] st];
      [|apply keeps_raise].
    apply keeps_put; [|exact I]. apply Hl. reflexivity.
  - intros [l|] Hr; [apply keeps_ret; exact Hr|].
    apply keeps_get. intros s Hs. exact Hs.
Qed.

Lemma response_records (response : str) (l : list product) :
  fst (_parse_product_response response []) = Val l ->
  Forall (fun p => emitted p) l.
Proof.
  intros H. destruct (response_keeps response (@Forall_nil _ _)) as [_ Hl].
  apply Hl. exact H.
Qed.



Lemma try_total {S A : Type} (body : M S A) (handler : exn -> M S A) (s : S) :
  (forall e s1, exists a s2, handler e s1 = (Val a, s2)) ->
  exists a s2, try_except body handler s = (Val a, s2).
Proof.
  intros Hh. unfold try_except. destruct (body s) as [[a|e] s1].
  - exists a, s1. reflexivity.
  - apply Hh.
Qed.

(** Whatever happens inside, the call returns a list. *)
Lemma response_total (response : str) (s : list product) :
  exists l, fst (_parse_product_response response s) = Val l.
Proof.
  unfold _parse_product_response, bind.
  match goal with
  | |- context [try_except ?b ?h s] =>
      destruct (@try_total _ _ b h s) as [r [s' E]];
        [intros e s1; eexists; eexists; reflexivity | rewrite E]
  end.
  destruct r; eexists; reflexivity.
Qed.

End ProductFacts.

(** X9.  [_parse_product_response] never raises, and every record of the
    list it returns has a name: one that is not empty and is not the
    literal [[Product Name]] of the prompt.  This holds for the section
    loop and for the fallback scanner alike. *)
Theorem product_records_are_named (response : str) :
  exists l,
    fst (Sonar._parse_product_response response []) = Val l
    /\ Forall (fun p => exists n, Sonar.name p = Some n /\ n <> []
                                  /\ n <> txt "[Product Name]") l.
Proof.
  destruct (ProductFacts.response_total response []) as [l Hl].
  exists l. split; [exact Hl|].
  pose proof (ProductFacts.response_records _ Hl) as H.
  eapply Forall_impl; [|exact H].
  intros p [[Hn _] Hs]. cbv beta in *.
  destruct (Sonar.name p) as [n|]; [|discriminate Hs].
  exists n. split; [reflexivity|]. exact (Hn n eq_refl).
Qed.





(** ** Invariants of the store parser *)

Module StoreShape.
Import Sonar.

Section Shape.

Variable allow_extra : bool.
Variable zip : str.

Local Abbreviation well_formed s :=
  (zipcode s = Some zip
   /\ store_name s <> []
   /\ (forall l, services s = Some l ->
                 l <> [] /\ Forall (fun x => In x known_services) l)
   /\ (forall a, address s = Some a -> a <> [] /\ startswith (txt "-") a = false)
   /\ (allow_extra = false -> website s = None)).

Local Abbreviation state_ok st :=
  (Forall (fun s => well_formed s) (fst st)
   /\ forall s, snd st = Some s -> well_formed s).

Lemma known_services_only (services_text : str) :
  Forall (fun x => In x known_services) (_parse_services_from_text services_text).
Proof.
  unfold _parse_services_from_text.
  destruct (negb (truthy services_text)); [constructor|].
  apply Forall_forall. intros x Hx. apply filter_In in Hx as [_ Hx].
  apply existsb_exists in Hx as [k [Hk E]]. apply str_eqb_eq in E. subst k. exact Hk.
Qed.

Lemma is_nil_false {A : Type} (l : list A) : is_nil l = false -> l <> [].
Proof. destruct l; [discriminate | discriminate]. Qed.

Lemma new_store_ok (id nm : str) : nm <> [] -> well_formed (new_store id nm zip).
Proof.
  intros Hn. split; [reflexivity|]. split; [exact Hn|].
  split; [intros l H; discriminate H|]. split; [intros a H; discriminate H|].
  reflexivity.
Qed.

Lemma store_line_ok st raw_line st' :
  state_ok st -> store_line allow_extra st zip raw_line = Val st' -> state_ok st'.
Proof.
  destruct st as [stores current_store]. intros [Hs Hc] H. cbn [fst snd] in *.
  unfold store_line in H. cbv zeta in H.
  assert (Hst : state_ok (stores, current_store)) by (split; assumption).
  destruct (negb (truthy (strip raw_line))); [injection H as <-; exact Hst|].
  destruct (startswith (txt "STORE:") _).
  { destruct (accepted _ _) eqn:Ea; injection H as <-; [|exact Hst].
    apply ProductFacts.accepted_true in Ea as [Hne _].
    split; cbn [fst snd].
    - destruct current_store as [s|]; [|exact Hs].
      apply Forall_app. split; [exact Hs|]. constructor; [|constructor].
      apply Hc. reflexivity.
    - intros s E. injection E as <-. apply new_store_ok. exact Hne. }
  destruct current_store as [s|]; [|injection H as <-; exact Hst].
  destruct (Hc s eq_refl) as [Hz [Hn [Hsv [Had Hw]]]].
  destruct (startswith (txt "ADDRESS:") _).
  { destruct (accepted _ _ && _) eqn:Ea; injection H as <-; [|exact Hst].
    apply andb_true_iff in Ea as [Ea Hdash].
    apply ProductFacts.accepted_true in Ea as [Hne _].
    split; [exact Hs|]. cbn [fst snd]. intros s' E. injection E as <-.
    split; [exact Hz|]. split; [exact Hn|]. split; [exact Hsv|]. split; [|exact Hw].
    cbn. intros a E. injection E as <-. split; [exact Hne|].
    apply negb_true_iff in Hdash. exact Hdash. }
  destruct (startswith (txt "SERVICES:") _).
  { destruct (accepted _ _); injection H as <-; [|exact Hst].
    cbv zeta. destruct (is_nil _) eqn:En; [exact Hst|].
    split; [exact Hs|]. cbn [fst snd]. intros s' E. injection E as <-.
    split; [exact Hz|]. split; [exact Hn|]. split; [|split; [exact Had | exact Hw]].
    cbn. intros l E. injection E as <-.
    split; [exact (@is_nil_false _ _ En) | apply known_services_only]. }
  destruct (startswith (txt "WEBSITE:") _).
  { destruct (accepted _ _ && _); [|injection H as <-; exact Hst].
    unfold assign_website in H. destruct allow_extra eqn:Eallow; [|discriminate H].
    cbn [obind] in H. injection H as <-.
    split; [exact Hs|]. cbn [fst snd]. intros s' E. injection E as <-.
    split; [exact Hz|]. split; [exact Hn|]. split; [exact Hsv|]. split; [exact Had|].
    intros Hf. discriminate Hf. }
  destruct (startswith (txt "STATUS:") _); [|injection H as <-; exact Hst].
  destruct (accepted _ _); injection H as <-; [|exact Hst].
  split; [exact Hs|]. cbn [fst snd]. intros s' E. injection E as <-.
  split; [exact Hz|]. split; [exact Hn|]. split; [exact Hsv|]. split; [exact Had|exact Hw].
Qed.

Lemma store_section_ok stores section stores' :
  Forall (fun s => well_formed s) stores ->
  store_section allow_extra zip stores section = Val stores' ->
  Forall (fun s => well_formed s) stores'.
Proof.
  intros Hs H. unfold store_section in H.
  destruct (fold_o _ _ _) as [st|e] eqn:F; [|discriminate H]. cbn [obind] in H.
  assert (Hst : state_ok st).
  { refine (@ProductFacts.fold_o_keeps _ _ (fun st => state_ok st) _ _ _ _ _ _ F).
    - intros v x v' Hv Hx. exact (@store_line_ok _ _ _ Hv Hx).
    - split; [exact Hs|]. intros s E. discriminate E. }
  destruct st as [l [s|]]; injection H as <-; destruct Hst as [Hl Hc]; [|exact Hl].
  apply Forall_app. split; [exact Hl|]. constructor; [|constructor].
  apply Hc. reflexivity.
Qed.

Lemma patterns_ok (text : str) :
  Forall (fun s => well_formed s) (_extract_stores_by_patterns text zip).
Proof.
  unfold _extract_stores_by_patterns. cbv zeta.
  apply Forall_forall. intros s Hs. apply in_map_iff in Hs as [nm [<- Hin]].
  apply filter_In in Hin as [Hin _]. apply new_store_ok.
  intros E. subst nm. vm_compute in Hin. intuition discriminate.
Qed.

Lemma structured_ok (response : str) (stores : list StoreLocation) :
  _extract_structured_stores allow_extra response zip = Val stores ->
  Forall (fun s => well_formed s) stores.
Proof.
  unfold _extract_structured_stores. intros H.
  destruct (fold_o _ _ _) as [l|e] eqn:F; [|discriminate H]. cbn [obind] in H.
  injection H as <-. destruct (is_nil l); [apply patterns_ok|].
  refine (@ProductFacts.fold_o_keeps _ _ (fun l => Forall (fun s => well_formed s) l)
            _ _ _ _ _ _ F).
  - intros v x v' Hv Hx. exact (@store_section_ok _ _ _ Hv Hx).
  - constructor.
Qed.

Lemma stores_found_ok (response : str) (found : list StoreLocation) :
  stores_found allow_extra response zip [] = (Val tt, found) ->
  Forall (fun s => well_formed s) found.
Proof.
  unfold stores_found, bind, lift, put, get, ret.
  destruct (_extract_structured_stores allow_extra response zip) as [l|e] eqn:F;
    [|discriminate].
  apply structured_ok in F.
  destruct (is_nil l); intros H; injection H as <-; [apply patterns_ok | exact F].
Qed.

Lemma unique_values_subset (l : list StoreLocation) (s : StoreLocation) :
  In s (unique_values l) -> In s l.
Proof.
  intros H. apply StoreFacts.unique_values_first in H.
  apply find_some in H. apply H.
Qed.

Lemma response_ok (response : str) (stores : list StoreLocation) :
  fst (_parse_store_response allow_extra response zip []) = Val stores ->
  Forall (fun s => well_formed s) stores.
Proof.
  rewrite StoreFacts.parse_store_response_value.
  destruct (stores_found allow_extra response zip []) as [[[]|e] found] eqn:F;
    cbn [fst]; intros H; injection H as <-; [|constructor].
  apply stores_found_ok in F. apply Forall_forall. intros s Hs.
  apply unique_values_subset in Hs. revert s Hs. apply Forall_forall. exact F.
Qed.

End Shape.

End StoreShape.

(** X12.  Every store record [_parse_store_response] returns carries the
    zipcode the call was made for and a non-empty name; its services, when
    present, are a non-empty list of known service names; its address,
    when present, is non-empty and does not begin with a dash; and when the
    model class accepts no undeclared attribute no record has a website. *)
Theorem store_records_are_well_formed (allow_extra : bool) (zipcode text : str) :
  exists stores,
    fst (Sonar._parse_store_response allow_extra text zipcode []) = Val stores
    /\ Forall (fun s =>
                 Sonar.zipcode s = Some zipcode
                 /\ Sonar.store_name s <> []
                 /\ (forall l, Sonar.services s = Some l ->
                               l <> [] /\ Forall (fun x => In x Sonar.known_services) l)
                 /\ (forall a, Sonar.address s = Some a ->
                               a <> [] /\ startswith (txt "-") a = false)
                 /\ (allow_extra = false -> Sonar.website s = None)) stores.
Proof.
  assert (H : exists stores,
             fst (Sonar._parse_store_response allow_extra text zipcode []) = Val stores).
  { rewrite StoreFacts.parse_store_response_value.
    destruct (Sonar.stores_found allow_extra text zipcode []) as [[[]|e] found];
      eexists; reflexivity. }
  destruct H as [stores H]. exists stores. split; [exact H|].
  exact (@StoreShape.response_ok allow_extra zipcode text stores H).
Qed.

(** ** Store discovery without Sonar *)

Module CoverageFacts.
Import LocationService.

Lemma digit_facts (c : ascii) :
  is_digit c = true ->
  PyInt.int_space c = false /\ Ascii.eqb c "-" = false /\ Ascii.eqb c "+" = false
  /\ ((0 <=? PyInt.digit_value c)%Z && (PyInt.digit_value c <=? 9)%Z = true).
Proof.
  destruct c as [[] [] [] [] [] [] [] []]; vm_compute; intros H;
    try discriminate H; repeat split.
Qed.

Lemma five_digits (a b c d e : ascii) (tail : str) :
  Main.all_digits [a; b; c; d; e] = true ->
  tail = [] \/ tail = [nl] ->
  exists n, PyInt.int ([a; b; c; d; e] ++ tail) = Val n /\ (0 <= n <= 99999)%Z.
Proof.
  unfold Main.all_digits. cbn [forallb]. intros H Htail.
  repeat (apply andb_true_iff in H; destruct H as [? H]).
  destruct (digit_facts a) as [Sa [Ma [Pa Ba]]]; [assumption|].
  destruct (digit_facts b) as [Sb [_ [_ Bb]]]; [assumption|].
  destruct (digit_facts c) as [Sc [_ [_ Bc]]]; [assumption|].
  destruct (digit_facts d) as [Sd [_ [_ Bd]]]; [assumption|].
  destruct (digit_facts e) as [Se [_ [_ Be]]]; [assumption|].
  exists (10 * (10 * (10 * (10 * PyInt.digit_value a + PyInt.digit_value b)
                      + PyInt.digit_value c) + PyInt.digit_value d)
          + PyInt.digit_value e)%Z.
  split; [|lia].
  assert (Hbody : rev (PyInt.lstrip_int (rev (PyInt.lstrip_int ([a; b; c; d; e] ++ tail))))
                  = [a; b; c; d; e]).
  { destruct Htail as [-> | ->]; cbn [app PyInt.lstrip_int rev]; rewrite Sa;
      cbn [app PyInt.lstrip_int rev].
    - rewrite Se. reflexivity.
    - change (PyInt.int_space nl) with true. cbn iota. rewrite Se. reflexivity. }
  unfold PyInt.int. rewrite Hbody. rewrite Ma, Pa.
  unfold PyInt.int_unsigned. cbn [PyInt.int_digits filter].
  repeat match goal with
         | Hd : is_digit ?x = true |- _ => rewrite !Hd; clear Hd
         end.
  reflexivity.
Qed.

Lemma zipcode_ok_shape (zipcode : str) :
  Main.zipcode_ok zipcode = true ->
  exists a b c d e tail,
    zipcode = [a; b; c; d; e] ++ tail
    /\ Main.all_digits [a; b; c; d; e] = true
    /\ (tail = [] \/ tail = [nl]).
Proof.
  unfold Main.zipcode_ok.
  destruct zipcode as [|a [|b [|c [|d [|e [|last [|x t]]]]]]]; try discriminate.
  - intros H. exists a, b, c, d, e, []. auto.
  - intros H. apply andb_true_iff in H as [H E]. apply Ascii.eqb_eq in E. subst last.
    exists a, b, c, d, e, [nl]. auto.
Qed.

(** A range list whose entries are all well formed is scanned without an
    exception. *)
Lemma in_range_total (n : Z) (ranges : list str) :
  Forall (fun r => str_eqb r (txt "00000-99999") = true
                   \/ exists lo hi, range_bounds r = Val (lo, hi)) ranges ->
  exists b, _zipcode_in_range n ranges = Val b.
Proof.
  induction 1 as [|r ranges Hr _ IH]; cbn [_zipcode_in_range].
  - exists false. reflexivity.
  - destruct (str_eqb r (txt "00000-99999")) eqn:E; [exists true; reflexivity|].
    destruct Hr as [Hr | [lo [hi Hr]]]; [discriminate Hr|].
    rewrite Hr. cbn [obind fst snd].
    destruct ((lo <=? n)%Z && (n <=? hi)%Z); [exists true; reflexivity | exact IH].
Qed.

Lemma initial_coverage_total (n : Z) (entry : str * list str) :
  In entry initial_store_coverage -> exists b, _zipcode_in_range n (snd entry) = Val b.
Proof.
  intros H. apply in_range_total.
  repeat (destruct H as [<- | H];
          [cbn [snd map];
           repeat (apply Forall_cons;
                   [first [left; reflexivity
                          | right; eexists; eexists; vm_compute; reflexivity]|]);
           apply Forall_nil|]).
  destruct H.
Qed.

Lemma static_coverage_from (coverage : list (str * list str)) (zipcode : str) (n : Z) :
  (forall entry, In entry coverage -> exists b, _zipcode_in_range n (snd entry) = Val b) ->
  forall acc,
    fold_o coverage
      (fun available_stores entry =>
         covered <~ _zipcode_in_range n (snd entry) ;;
         Val (if covered
              then available_stores
                   ++ [Sonar.new_store (fst entry) (store_display_name (fst entry)) zipcode]
              else available_stores))
      acc
    = Val (acc ++ map (fun entry =>
                         Sonar.new_store (fst entry) (store_display_name (fst entry)) zipcode)
                      (filter (fun entry =>
                                 match _zipcode_in_range n (snd entry) with
                                 | Val b => b
                                 | Exc _ => false
                                 end) coverage)).
Proof.
  induction coverage as [|entry coverage IH]; intros Htotal acc; cbn [fold_o filter].
  - cbn [map]. rewrite app_nil_r. reflexivity.
  - destruct (Htotal entry (or_introl eq_refl)) as [b Hb]. rewrite Hb. cbn [obind].
    rewrite IH by (intros e He; apply Htotal; right; exact He).
    destruct b; [|reflexivity]. cbn [map]. rewrite <- app_assoc. reflexivity.
Qed.

End CoverageFacts.

(** X13.  A zipcode the aggregation endpoint accepts is always read by
    [int] without an exception, as a number from 0 to 99999; this also
    holds for the five digits followed by a line feed that the pattern
    lets through. *)
Theorem validated_zipcode_is_a_number (zipcode : str) :
  Main.zipcode_ok zipcode = true ->
  exists n, PyInt.int zipcode = Val n /\ (0 <= n <= 99999)%Z.
Proof.
  intros H.
  destruct (CoverageFacts.zipcode_ok_shape _ H) as [a [b [c [d [e [tail [-> [Hd Ht]]]]]]]].
  exact (@CoverageFacts.five_digits a b c d e tail Hd Ht).
Qed.

Lemma validated_zipcode_is_a_number_witness :
  exists n, PyInt.int (txt "15213" ++ [nl]) = Val n /\ (0 <= n <= 99999)%Z.
Proof.
  apply (@validated_zipcode_is_a_number (txt "15213" ++ [nl])).
  vm_compute. reflexivity.
Defined.

(** X14.  For a zipcode that passes the check of the aggregation endpoint:
    when Sonar is switched off or finds no store, [get_stores_for_zipcode]
    answers from the static coverage table: one record per chain whose
    ranges contain the zipcode, in the order of the table, and always the
    two nationwide chains ALDI and Albertsons. *)
Theorem static_fallback_covers_nationwide_chains
    (sc : LocationService.sonar) (zipcode : str) :
  Main.zipcode_ok zipcode = true ->
  LocationService.is_available sc = false
  \/ LocationService.search_stores sc zipcode = Val [] ->
  exists n l,
    PyInt.int zipcode = Val n
    /\ LocationService.get_stores_for_zipcode sc
         LocationService.initial_store_coverage zipcode = Val l
    /\ l = map (fun entry =>
                  Sonar.new_store (fst entry)
                    (LocationService.store_display_name (fst entry)) zipcode)
               (filter (fun entry =>
                          match LocationService._zipcode_in_range n (snd entry) with
                          | Val b => b
                          | Exc _ => false
                          end) LocationService.initial_store_coverage)
    /\ In (Sonar.new_store (txt "aldi") (txt "ALDI") zipcode) l
    /\ In (Sonar.new_store (txt "albertsons") (txt "Albertsons") zipcode) l.
Proof.
  intros Hzip Hsonar.
  destruct (CoverageFacts.zipcode_ok_shape _ Hzip)
    as [a [b [c [d [e [tail [Ez [Hd Ht]]]]]]]].
  destruct (@CoverageFacts.five_digits a b c d e tail Hd Ht) as [n [Hint _]].
  rewrite <- Ez in Hint. clear a b c d e tail Ez Hd Ht.
  exists n. eexists. split; [exact Hint|]. split; [|split; [reflexivity|]].
  - unfold LocationService.get_stores_for_zipcode, LocationService.stores_for_zipcode_body.
    assert (Hs : (if LocationService.is_available sc
                  then LocationService.search_stores sc zipcode else Val [])
                 = Val []).
    { destruct Hsonar as [-> | Hs]; [reflexivity|].
      destruct (LocationService.is_available sc); [exact Hs | reflexivity]. }
    rewrite Hs. cbn [obind is_nil negb]. rewrite Hint. cbn [obind].
    unfold LocationService.static_coverage.
    rewrite (@CoverageFacts.static_coverage_from LocationService.initial_store_coverage
               zipcode n (CoverageFacts.initial_coverage_total n) []).
    reflexivity.
  - split; apply in_map_iff.
    + exists (txt "aldi", map txt ["00000-99999"]%string).
      split; [reflexivity|]. apply filter_In. split; [|reflexivity].
      right. right. left. reflexivity.
    + exists (txt "albertsons", map txt ["00000-99999"]%string).
      split; [reflexivity|]. apply filter_In. split; [|reflexivity].
      right. right. right. left. reflexivity.
Qed.

Lemma static_fallback_covers_nationwide_chains_witness :
  exists n l,
    PyInt.int (txt "15213") = Val n
    /\ LocationService.get_stores_for_zipcode
         (LocationService.mk_sonar false (fun _ => Exc ConnectionError))
         LocationService.initial_store_coverage (txt "15213") = Val l
    /\ l = map (fun entry =>
                  Sonar.new_store (fst entry)
                    (LocationService.store_display_name (fst entry)) (txt "15213"))
               (filter (fun entry =>
                          match LocationService._zipcode_in_range n (snd entry) with
                          | Val b => b
                          | Exc _ => false
                          end) LocationService.initial_store_coverage)
    /\ In (Sonar.new_store (txt "aldi") (txt "ALDI") (txt "15213")) l
    /\ In (Sonar.new_store (txt "albertsons") (txt "Albertsons") (txt "15213")) l.
Proof.
  apply (@static_fallback_covers_nationwide_chains
           (LocationService.mk_sonar false (fun _ => Exc ConnectionError))
           (txt "15213")).
  - vm_compute. reflexivity.
  - left. reflexivity.
Defined.

(** A zipcode in Pittsburgh: Giant Eagle, Wegmans, ALDI, Albertsons and
    ShopRite, in the order of the table. *)
Example static_fallback_example :
  LocationService.get_stores_for_zipcode
    (LocationService.mk_sonar false (fun _ => Exc ConnectionError))
    LocationService.initial_store_coverage (txt "15213")
  = Val (map (fun kv => Sonar.new_store (txt (fst kv)) (txt (snd kv)) (txt "15213"))
           [("gianteagle", "Giant Eagle"); ("wegmans", "Wegmans"); ("aldi", "ALDI");
            ("albertsons", "Albertsons"); ("shoprite", "ShopRite")]%string).
Proof. vm_compute. reflexivity. Qed.

(** ** The endpoint [/sonar/stores] *)

Module StoreEndpointFacts.
Import StoreEndpoints.

(** The [finally] block lets no exception out and leaves the outcome of
    the body as it is. *)
Lemma finally_keeps_outcome (w : world) (zipcode : str) (chains : option str)
    (f : frame) :
  fst (get_sonar_stores w zipcode chains f)
  = fst (try_except (stores_body w zipcode chains)
           (fun _ => raise (HTTPException 500)) f).
Proof.
  unfold get_sonar_stores, try_finally.
  destruct (try_except (stores_body w zipcode chains) _ f) as [r f1].
  cbn [fst].
  destruct (@MonadFacts.try_except_ret _ _ (stores_final w zipcode) tt f1) as [a [f2 E]].
  rewrite E. reflexivity.
Qed.

Lemma filter_chains_count (chains : option str) (p : payload) :
  stores_found p = length (stores p) ->
  stores_found (filter_chains chains p) = length (stores (filter_chains chains p)).
Proof.
  intros Hp. unfold filter_chains. destruct chains as [ch|]; [|exact Hp].
  destruct (truthy ch); [reflexivity | exact Hp].
Qed.

End StoreEndpointFacts.

(** X15.  The only exception that leaves [get_sonar_stores] is an HTTP
    error with status 500, whatever the collaborators do and whatever the
    [finally] block runs into. *)
Theorem stores_endpoint_raises_only_500 (w : StoreEndpoints.world) (zipcode : str)
    (chains : option str) (f : StoreEndpoints.frame) :
  match fst (StoreEndpoints.get_sonar_stores w zipcode chains f) with
  | Val _ => True
  | Exc e => e = HTTPException 500
  end.
Proof.
  rewrite StoreEndpointFacts.finally_keeps_outcome. unfold try_except.
  destruct (StoreEndpoints.stores_body w zipcode chains f) as [[r|e'] f1];
    cbn [fst]; [exact I | reflexivity].
Qed.

(** X16.  When the cache has no entry and the Sonar client is not
    available, the status 503 the code raises is caught by the handler of
    the same [try]: the caller gets status 500, after one cache read and
    nothing else. *)
Theorem unavailable_sonar_is_reported_as_500 (w : StoreEndpoints.world)
    (zipcode : str) (chains : option str) :
  StoreEndpoints.cache_get_json w (CacheClient.stores_key zipcode) = Val None ->
  StoreEndpoints.sonar_available w = false ->
  StoreEndpoints.get_sonar_stores w zipcode chains (StoreEndpoints.mk_frame [] None)
  = (Exc (HTTPException 500),
     StoreEndpoints.mk_frame
       [StoreEndpoints.CacheGet (CacheClient.stores_key zipcode)] None).
Proof.
  intros Hget Havail.
  unfold StoreEndpoints.get_sonar_stores, StoreEndpoints.try_finally, try_except,
    StoreEndpoints.stores_body, StoreEndpoints.stores_final, bind,
    StoreEndpoints.call, get.
  cbn [StoreEndpoints.events StoreEndpoints.stores_var app].
  rewrite Hget, Havail. reflexivity.
Qed.

Lemma unavailable_sonar_is_reported_as_500_witness :
  StoreEndpoints.get_sonar_stores (StoreSamples.collaborators None false)
    (txt "15232") None (StoreEndpoints.mk_frame [] None)
  = (Exc (HTTPException 500),
     StoreEndpoints.mk_frame
       [StoreEndpoints.CacheGet (CacheClient.stores_key (txt "15232"))] None).
Proof.
  apply (@unavailable_sonar_is_reported_as_500 (StoreSamples.collaborators None false)
           (txt "15232") None); reflexivity.
Defined.





(** ** The endpoint [/sonar/store/.../details] *)

(** X19.  The only exception that leaves [get_sonar_store_details] is an
    HTTP error with status 500: the statuses 503 (client not available)
    and 400 (neither location nor zipcode given) that the code raises are
    caught by the handler of the same [try].  When the call returns, the
    client was available, the location is the non-empty one resolved from
    the arguments, and the details are what the client answered for it. *)
Theorem store_details_raises_only_500 (details : Type) (available : bool)
    (get_store_details : str -> str -> outcome details)
    (store_name : str) (location zipcode : option str) :
  match StoreEndpoints.get_sonar_store_details available get_store_details
          store_name location zipcode with
  | Val r =>
      available = true
      /\ StoreEndpoints.d_store_name r = store_name
      /\ StoreEndpoints.d_location r = StoreEndpoints.resolved location zipcode
      /\ truthy (StoreEndpoints.d_location r) = true
      /\ get_store_details store_name (StoreEndpoints.d_location r)
         = Val (StoreEndpoints.d_details r)
  | Exc e => e = HTTPException 500
  end.
Proof.
  unfold StoreEndpoints.get_sonar_store_details.
  destruct available; cbn [negb]; [|reflexivity].
  destruct (truthy (StoreEndpoints.resolved location zipcode)) eqn:Et;
    cbn [negb]; [|reflexivity].
  destruct (get_store_details store_name (StoreEndpoints.resolved location zipcode))
    as [d|e] eqn:Ed; cbn [obind]; [|reflexivity].
  cbn. repeat split; assumption.
Qed.

(** ** The cache keys *)

Module KeyFacts.

Lemma code_inj (x y : ascii) : code x = code y -> x = y.
Proof.
  unfold code. intros H.
  rewrite <- (ascii_nat_embedding x), <- (ascii_nat_embedding y), H. reflexivity.
Qed.

Lemma str_leb_total (a b : str) : str_leb a b = false -> str_leb b a = true.
Proof.
  revert b. induction a as [|x a IH]; intros [|y b]; cbn [str_leb];
    try discriminate; try reflexivity.
  destruct (Nat.ltb_spec (code x) (code y)); [discriminate|].
  destruct (Nat.ltb_spec (code y) (code x)); [reflexivity|].
  apply IH.
Qed.

Lemma str_leb_antisym (a b : str) :
  str_leb a b = true -> str_leb b a = true -> a = b.
Proof.
  revert b. induction a as [|x a IH]; intros [|y b]; cbn [str_leb];
    try discriminate; try reflexivity.
  destruct (Nat.ltb_spec (code x) (code y)) as [Hxy|Hxy];
    destruct (Nat.ltb_spec (code y) (code x)) as [Hyx|Hyx];
    try discriminate; try lia.
  intros H1 H2. f_equal; [apply code_inj; lia | apply IH; assumption].
Qed.

Lemma str_leb_trans (a b c : str) :
  str_leb a b = true -> str_leb b c = true -> str_leb a c = true.
Proof.
  revert b c. induction a as [|x a IH]; intros [|y b] [|z c]; cbn [str_leb];
    try discriminate; try reflexivity.
  destruct (Nat.ltb_spec (code x) (code y)) as [Hxy|Hxy];
    destruct (Nat.ltb_spec (code y) (code x)) as [Hyx|Hyx];
    destruct (Nat.ltb_spec (code y) (code z)) as [Hyz|Hyz];
    destruct (Nat.ltb_spec (code z) (code y)) as [Hzy|Hzy];
    destruct (Nat.ltb_spec (code x) (code z)) as [Hxz|Hxz];
    destruct (Nat.ltb_spec (code z) (code x)) as [Hzx|Hzx];
    try discriminate; try reflexivity; try lia.
  apply IH.
Qed.

Local Abbreviation le a b := (str_leb a b = true).

Lemma insert_sorted_perm (x : str) (l : list str) :
  Permutation (x :: l) (insert_sorted x l).
Proof.
  induction l as [|y l IH]; cbn [insert_sorted]; [apply Permutation_refl|].
  destruct (str_leb x y); [apply Permutation_refl|].
  eapply perm_trans; [apply perm_swap|]. apply perm_skip. exact IH.
Qed.

Lemma sorted_perm (l : list str) : Permutation l (sorted l).
Proof.
  induction l as [|x l IH]; cbn; [constructor|].
  eapply perm_trans; [apply perm_skip; exact IH|]. apply insert_sorted_perm.
Qed.

Lemma insert_sorted_sorted (x : str) (l : list str) :
  StronglySorted (fun a b => le a b) l ->
  StronglySorted (fun a b => le a b) (insert_sorted x l).
Proof.
  induction 1 as [|y l Hl IH Hy]; cbn [insert_sorted].
  - constructor; constructor.
  - destruct (str_leb x y) eqn:E.
    + constructor; [constructor; assumption|].
      constructor; [exact E|].
      eapply Forall_impl; [|exact Hy]. intros z Hz.
      exact (@str_leb_trans x y z E Hz).
    + constructor; [exact IH|].
      apply str_leb_total in E.
      assert (Hall : Forall (fun b => le y b) (x :: l)) by (constructor; assumption).
      eapply Permutation_Forall; [apply insert_sorted_perm | exact Hall].
Qed.

Lemma sorted_sorted (l : list str) : StronglySorted (fun a b => le a b) (sorted l).
Proof.
  induction l as [|x l IH]; cbn; [constructor|].
  apply insert_sorted_sorted. exact IH.
Qed.

(** Two sorted lists with the same elements are the same list. *)
Lemma sorted_unique (l1 : list str) :
  forall l2,
    StronglySorted (fun a b => le a b) l1 -> StronglySorted (fun a b => le a b) l2 ->
    Permutation l1 l2 -> l1 = l2.
Proof.
  induction l1 as [|a l1 IH]; intros l2 H1 H2 Hp.
  - apply Permutation_nil in Hp. symmetry. exact Hp.
  - destruct l2 as [|b l2]; [apply Permutation_sym, Permutation_nil in Hp; discriminate Hp|].
    apply StronglySorted_inv in H1 as [H1 Ha].
    apply StronglySorted_inv in H2 as [H2 Hb].
    assert (Hab : a = b).
    { assert (Hin_a : In a (b :: l2))
        by (eapply Permutation_in; [exact Hp | left; reflexivity]).
      assert (Hin_b : In b (a :: l1))
        by (eapply Permutation_in; [apply Permutation_sym; exact Hp | left; reflexivity]).
      destruct Hin_a as [E|Hin_a]; [symmetry; exact E|].
      destruct Hin_b as [E|Hin_b]; [exact E|].
      apply str_leb_antisym.
      - exact (proj1 (Forall_forall _ _) Ha b Hin_b).
      - exact (proj1 (Forall_forall _ _) Hb a Hin_a). }
    subst b. f_equal. apply IH; [assumption | assumption|].
    eapply Permutation_cons_inv. exact Hp.
Qed.

Lemma sorted_permutation (l1 l2 : list str) :
  Permutation l1 l2 -> sorted l1 = sorted l2.
Proof.
  intros Hp. apply sorted_unique; [apply sorted_sorted | apply sorted_sorted|].
  eapply perm_trans; [apply Permutation_sym, sorted_perm|].
  eapply perm_trans; [exact Hp | apply sorted_perm].
Qed.

End KeyFacts.

(** X20.  The key of a cached aggregation does not depend on the order in
    which the store ids are given: two lists with the same ids, with their
    repetitions, give the same key. *)
Theorem products_key_ignores_store_order (sha1_hex : str -> str)
    (zipcode query : str) (store_ids other_order : list str) (enhance : bool) :
  Permutation store_ids other_order ->
  Cache.products_key sha1_hex zipcode query store_ids enhance
  = Cache.products_key sha1_hex zipcode query other_order enhance.
Proof.
  intros Hp. unfold Cache.products_key. cbv zeta.
  rewrite (KeyFacts.sorted_permutation Hp).
  assert (Hnil : is_nil store_ids = is_nil other_order).
  { destruct store_ids as [|a l].
    - apply Permutation_nil in Hp. subst other_order. reflexivity.
    - destruct other_order as [|b l']; [|reflexivity].
      apply Permutation_sym, Permutation_nil in Hp. discriminate Hp. }
  rewrite Hnil. reflexivity.
Qed.

Lemma products_key_ignores_store_order_witness :
  Cache.products_key (fun s => s) (txt "60622") (txt "Oat  Milk")
    [txt "target"; txt "aldi"] true
  = Cache.products_key (fun s => s) (txt "60622") (txt "Oat  Milk")
      [txt "aldi"; txt "target"] true.
Proof.
  apply (@products_key_ignores_store_order (fun s => s) (txt "60622") (txt "Oat  Milk")
           [txt "target"; txt "aldi"] [txt "aldi"; txt "target"] true).
  apply perm_swap.
Defined.

(** ** The aggregation with the services of [main.py] *)

(** X21.  With the location service of [scraper/location_service.py] as
    store discovery and a cache that has no Redis client, the endpoint
    function [aggregate_products] raises no exception for a zipcode that
    passes its check, whatever the sources answer or raise: it returns a
    response computed afresh, with the hit flag off.  (What becomes of the
    returned value is not part of this.) *)
Theorem aggregate_without_redis_returns
    (w : Main.world) (sc : LocationService.sonar) (coverage : list (str * list str))
    (blob : Type) (compress : Main.response -> outcome blob)
    (decompress : blob -> outcome Main.response)
    (query zipcode : str) (stores : option str) (enhance : bool) (tr : Main.trace) :
  Main.zipcode_ok zipcode = true ->
  Main.get_nearby_stores w zipcode
  = LocationService.get_nearby_stores sc coverage zipcode ->
  (forall key, Main.cache_get_json w key = CacheClient.get_json decompress None key) ->
  (forall key obj ttl,
     Main.cache_set_json w key obj ttl = CacheClient.set_json compress None key obj ttl) ->
  exists resp tr',
    Main.aggregate_products w query zipcode stores enhance tr = (Val resp, tr')
    /\ Main.cache resp = Some (Main.mk_cache_info false None).
Proof.
  intros Hzip Hnear Hget Hset.
  assert (Hdisc : exists nearby, Main.get_nearby_stores w zipcode = Val nearby).
  { rewrite Hnear. unfold LocationService.get_nearby_stores,
      LocationService.get_stores_for_zipcode.
    destruct (LocationService.stores_for_zipcode_body sc coverage zipcode);
      eexists; reflexivity. }
  destruct Hdisc as [nearby Hdisc].
  rewrite (@AggregateFacts.cache_miss w query zipcode stores enhance tr Hzip nearby Hdisc
             _ _ (Hget _) (FanOutFacts.offers_collected_run _ _ _ _ _ _)).
  rewrite Hset. cbn [CacheClient.set_json].
  eexists. eexists. split; reflexivity.
Qed.

Lemma aggregate_without_redis_returns_witness :
  exists resp tr',
    Main.aggregate_products Wiring.no_redis (txt "oat milk") (txt "15213") None false []
    = (Val resp, tr')
    /\ Main.cache resp = Some (Main.mk_cache_info false None).
Proof.
  apply (@aggregate_without_redis_returns Wiring.no_redis
           (LocationService.mk_sonar false (fun _ => Exc ConnectionError))
           LocationService.initial_store_coverage
           unit Wiring.sample_compress Wiring.sample_decompress
           (txt "oat milk") (txt "15213") None false []).
  - vm_compute. reflexivity.
  - reflexivity.
  - intros key. reflexivity.
  - intros key obj ttl. reflexivity.
Defined.

(** ** The normalised query *)

Module QueryFacts.

Local Abbreviation nonspace c := (negb (isspace c)).
Local Abbreviation word :=
  (fun w : str => w <> [] /\ forallb (fun c => nonspace c) w = true).

Lemma split_ws_from_word (w cur rest : str) :
  forallb (fun c => nonspace c) w = true ->
  split_ws_from cur (w ++ rest) = split_ws_from (rev w ++ cur) rest.
Proof.
  revert cur. induction w as [|c w IH]; intros cur H; [reflexivity|].
  cbn [forallb] in H. apply andb_true_iff in H as [Hc Hw].
  apply negb_true_iff in Hc. cbn [app split_ws_from]. rewrite Hc.
  rewrite IH by exact Hw. cbn [rev]. rewrite <- app_assoc. reflexivity.
Qed.

Lemma rev_nonempty (w : str) : w <> [] -> exists c t, rev w = c :: t.
Proof.
  intros Hw. destruct (rev w) as [|c t] eqn:E; [|exists c, t; reflexivity].
  exfalso. apply Hw. rewrite <- (rev_involutive w), E. reflexivity.
Qed.

(** Splitting the join of words gives the words back. *)
Lemma split_ws_join (words : list str) :
  Forall (fun w => word w) words -> split_ws (join (txt " ") words) = words.
Proof.
  induction 1 as [|w rest [Hne Hw] Hrest IH]; [reflexivity|].
  destruct (rev_nonempty Hne) as [c [t Erev]].
  destruct rest as [|w' rest].
  - cbn [join]. unfold split_ws. rewrite <- (app_nil_r w) at 1.
    rewrite (@split_ws_from_word w [] [] Hw), app_nil_r. cbn [split_ws_from].
    rewrite Erev, <- Erev, rev_involutive. reflexivity.
  - change (join (txt " ") (w :: w' :: rest))
      with (w ++ " "%char :: join (txt " ") (w' :: rest)).
    unfold split_ws. rewrite (@split_ws_from_word w [] _ Hw), app_nil_r.
    cbn [split_ws_from]. change (isspace " ") with true. cbn iota.
    rewrite Erev, <- Erev, rev_involutive. f_equal. exact IH.
Qed.

Lemma split_ws_from_words (s cur : str) :
  forallb (fun c => nonspace c) cur = true ->
  Forall (fun w => word w) (split_ws_from cur s).
Proof.
  assert (Hrev : forall cur c t,
             forallb (fun c => nonspace c) (c :: cur) = true ->
             t = rev (c :: cur) -> word t).
  { intros cur0 c t H ->. split.
    - cbn [rev]. intros E. apply app_eq_nil in E as [_ E]. discriminate E.
    - apply forallb_forall. intros x Hx. apply in_rev in Hx.
      exact (proj1 (forallb_forall _ _) H x Hx). }
  revert cur. induction s as [|c s IH]; intros cur Hcur; cbn [split_ws_from].
  - destruct cur as [|x cur]; constructor; [|constructor].
    exact (Hrev cur x _ Hcur eq_refl).
  - destruct (isspace c) eqn:Ec.
    + destruct cur as [|x cur]; [apply IH; reflexivity|].
      constructor; [exact (Hrev cur x _ Hcur eq_refl) | apply IH; reflexivity].
    + apply IH. cbn [forallb]. rewrite Ec, Hcur. reflexivity.
Qed.

Lemma split_ws_from_Forall (P : ascii -> Prop) (s cur : str) :
  Forall P cur -> Forall P s -> Forall (Forall P) (split_ws_from cur s).
Proof.
  revert cur. induction s as [|c s IH]; intros cur Hcur Hs; cbn [split_ws_from].
  - destruct cur as [|x cur]; constructor; [|constructor]. apply Forall_rev. exact Hcur.
  - apply Forall_cons_iff in Hs as [Hc Hs]. destruct (isspace c).
    + destruct cur as [|x cur]; [apply IH; [constructor | exact Hs]|].
      constructor; [apply Forall_rev; exact Hcur | apply IH; [constructor | exact Hs]].
    + apply IH; [constructor; assumption | exact Hs].
Qed.

Lemma split_ws_lstrip (s : str) : split_ws (lstrip s) = split_ws s.
Proof.
  induction s as [|c s IH]; [reflexivity|]. unfold split_ws in *.
  cbn [lstrip split_ws_from]. destruct (isspace c) eqn:Ec; [exact IH|].
  cbn [split_ws_from]. rewrite Ec. reflexivity.
Qed.

Lemma split_ws_from_blank (blank cur : str) :
  forallb isspace blank = true -> split_ws_from cur blank = split_ws_from cur [].
Proof.
  revert cur. induction blank as [|c blank IH]; intros cur H; [reflexivity|].
  cbn [forallb] in H. apply andb_true_iff in H as [Hc Hb].
  cbn [split_ws_from]. rewrite Hc.
  destruct cur as [|x cur]; rewrite (IH [] Hb); reflexivity.
Qed.

Lemma split_ws_from_trailing (blank s cur : str) :
  forallb isspace blank = true ->
  split_ws_from cur (s ++ blank) = split_ws_from cur s.
Proof.
  intros Hb. revert cur. induction s as [|c s IH]; intros cur.
  - apply split_ws_from_blank. exact Hb.
  - cbn [app split_ws_from]. destruct (isspace c); [|apply IH].
    destruct cur as [|x cur]; rewrite IH; reflexivity.
Qed.

Lemma lstrip_split (s : str) :
  exists blank, s = blank ++ lstrip s /\ forallb isspace blank = true.
Proof.
  induction s as [|c s [blank [E Hb]]]; [exists []; split; reflexivity|].
  cbn [lstrip]. destruct (isspace c) eqn:Ec.
  - exists (c :: blank). cbn [app forallb]. rewrite Ec, Hb.
    split; [f_equal; exact E | reflexivity].
  - exists []. split; reflexivity.
Qed.

(** [strip] removes nothing that [split] would not pass over. *)
Lemma split_ws_strip (s : str) : split_ws (strip s) = split_ws s.
Proof.
  unfold strip. rewrite <- (split_ws_lstrip s).
  destruct (lstrip_split (rev (lstrip s))) as [blank [E Hb]].
  assert (Es : lstrip s = rev (lstrip (rev (lstrip s))) ++ rev blank).
  { rewrite <- rev_app_distr, <- E, rev_involutive. reflexivity. }
  rewrite Es at 2. unfold split_ws. rewrite split_ws_from_trailing; [reflexivity|].
  apply forallb_forall. intros x Hx. apply in_rev in Hx.
  exact (proj1 (forallb_forall _ _) Hb x Hx).
Qed.

Lemma normalize_words (query : str) :
  Cache._normalize_query query = join (txt " ") (split_ws (lower query)).
Proof. unfold Cache._normalize_query. rewrite split_ws_strip. reflexivity. Qed.

Lemma words_of_normalized (query : str) :
  split_ws (Cache._normalize_query query) = split_ws (lower query).
Proof.
  rewrite normalize_words. apply split_ws_join.
  apply split_ws_from_words. reflexivity.
Qed.

Lemma normalized_is_lower (query : str) :
  lower (Cache._normalize_query query) = Cache._normalize_query query.
Proof.
  apply SlugFacts.lower_fixed. rewrite normalize_words.
  apply SlugFacts.join_Forall; [repeat constructor|].
  apply split_ws_from_Forall; [constructor | apply SlugFacts.lower_not_upper].
Qed.

End QueryFacts.

(** X22.  For queries of ASCII text, the normalised query is the
    lower-cased words of the query joined by single blanks: two queries
    have the same normalised form exactly when their lower-cased texts
    split into the same words, so the case of the letters and the kind and
    amount of ASCII white space around and between the words do not
    matter; normalising twice changes nothing; and queries with the same
    words share their cache keys. *)
Theorem normalized_query_is_its_words (query other : str) :
  is_ascii query = true ->
  is_ascii other = true ->
  (Cache._normalize_query query = Cache._normalize_query other
   <-> split_ws (lower query) = split_ws (lower other))
  /\ Cache._normalize_query (Cache._normalize_query query) = Cache._normalize_query query
  /\ (split_ws (lower query) = split_ws (lower other) ->
      forall sha1_hex zipcode store_ids enhance store_id source,
        Cache.products_key sha1_hex zipcode query store_ids enhance
        = Cache.products_key sha1_hex zipcode other store_ids enhance
        /\ CacheClient.raw_source_key sha1_hex zipcode store_id query source
           = CacheClient.raw_source_key sha1_hex zipcode store_id other source).
Proof.
  intros _ _.
  assert (Hiff : forall a b,
             split_ws (lower a) = split_ws (lower b) ->
             Cache._normalize_query a = Cache._normalize_query b).
  { intros a b H. rewrite !QueryFacts.normalize_words, H. reflexivity. }
  split; [split|split].
  - intros H. rewrite <- !QueryFacts.words_of_normalized, H. reflexivity.
  - apply Hiff.
  - rewrite (QueryFacts.normalize_words (Cache._normalize_query query)).
    rewrite QueryFacts.normalized_is_lower, QueryFacts.words_of_normalized.
    symmetry. apply QueryFacts.normalize_words.
  - intros H sha1_hex zipcode store_ids enhance store_id source.
    unfold Cache.products_key, CacheClient.raw_source_key.
    cbv zeta. rewrite (Hiff _ _ H). split; reflexivity.
Qed.

Lemma normalized_query_is_its_words_witness :
  let query := txt "  Oat   MILK " in
  let other := txt "oat milk" in
  Cache._normalize_query query = txt "oat milk"
  /\ (Cache._normalize_query query = Cache._normalize_query other
      <-> split_ws (lower query) = split_ws (lower other))
  /\ Cache._normalize_query (Cache._normalize_query query) = Cache._normalize_query query
  /\ (split_ws (lower query) = split_ws (lower other) ->
      forall sha1_hex zipcode store_ids enhance store_id source,
        Cache.products_key sha1_hex zipcode query store_ids enhance
        = Cache.products_key sha1_hex zipcode other store_ids enhance
        /\ CacheClient.raw_source_key sha1_hex zipcode store_id query source
           = CacheClient.raw_source_key sha1_hex zipcode store_id other source).
Proof.
  intros query other. split; [vm_compute; reflexivity|].
  apply (@normalized_query_is_its_words query other); reflexivity.
Defined.

(** Upper case, tabs and doubled blanks do not change the key. *)
Example same_words_same_key :
  Cache.products_key (fun s => s) (txt "60622") (txt "  Oat   MILK ") [] false
  = Cache.products_key (fun s => s) (txt "60622") (txt "oat milk") [] false.
Proof. vm_compute. reflexivity. Qed.

(** ** The address helpers *)

Module AddressFacts.
Import Addresses.

Lemma star_split {A : Type} (p : ascii -> bool) (k : str -> option A) (s : str) (a : A) :
  Re.star_k p k s = Some a ->
  exists pre s', s = pre ++ s' /\ forallb p pre = true /\ k s' = Some a.
Proof.
  induction s as [|c t IH]; cbn [Re.star_k]; intros H.
  - exists [], []. auto.
  - destruct (p c) eqn:Ec; [|exists [], (c :: t); auto].
    destruct (Re.star_k p k t) as [r|] eqn:E; [|exists [], (c :: t); auto].
    injection H as ->. destruct (IH eq_refl) as [pre [s' [-> [Hp Hk]]]].
    exists (c :: pre), s'. cbn [forallb app]. rewrite Ec, Hp. auto.
Qed.

Lemma plus_split {A : Type} (p : ascii -> bool) (k : str -> option A) (s : str) (a : A) :
  Re.rmatch (Re.Plus p) s k = Some a ->
  exists pre s', s = pre ++ s' /\ pre <> [] /\ forallb p pre = true /\ k s' = Some a.
Proof.
  cbn [Re.rmatch]. destruct s as [|c t]; [discriminate|].
  destruct (p c) eqn:Ec; [|discriminate]. intros H.
  apply star_split in H as [pre [s' [-> [Hp Hk]]]].
  exists (c :: pre), s'. cbn [forallb app]. rewrite Ec, Hp.
  split; [reflexivity|]. split; [discriminate|]. auto.
Qed.

Lemma cls_split {A : Type} (p : ascii -> bool) (k : str -> option A) (s : str) (a : A) :
  Re.rmatch (Re.Cls p) s k = Some a ->
  exists c s', s = c :: s' /\ p c = true /\ k s' = Some a.
Proof.
  cbn [Re.rmatch]. destruct s as [|c t]; [discriminate|].
  destruct (p c) eqn:Ec; [|discriminate]. intros H. exists c, t. auto.
Qed.

Lemma consumed_prefix (pre rest : str) : consumed (pre ++ rest) rest = pre.
Proof. apply PriceFacts.firstn_prefix. Qed.

(** The groups of a match of the city pattern at the head of a text. *)
Lemma city_match_groups (s : str) (groups : list str) :
  match_parts city_pattern s [] (fun groups _ => Some groups) = Some groups ->
  exists city a b,
    groups = [city; [a; b]]
    /\ forallb not_comma city = true
    /\ is_upper a = true /\ is_upper b = true.
Proof.
  unfold city_pattern. cbn [match_parts]. intros H.
  apply plus_split in H as [city [s1 [-> [_ [Hcity H]]]]].
  cbn [Re.rmatch Re.chr] in H.
  apply cls_split in H as [c [s2 [-> [_ H]]]].
  apply star_split in H as [blank [s3 [-> [_ H]]]].
  apply cls_split in H as [a [s4 [-> [Ha H]]]].
  apply cls_split in H as [b [s5 [-> [Hb H]]]].
  apply plus_split in H as [blank2 [s6 [-> [_ [_ H]]]]].
  apply cls_split in H as [d1 [s7 [-> [_ H]]]].
  apply cls_split in H as [d2 [s8 [-> [_ H]]]].
  apply cls_split in H as [d3 [s9 [-> [_ H]]]].
  apply cls_split in H as [d4 [s10 [-> [_ H]]]].
  apply cls_split in H as [d5 [s11 [-> [_ H]]]].
  inversion H as [Hgroups]. clear H Hgroups.
  exists city, a, b. cbn [app]. rewrite consumed_prefix.
  change (a :: b :: blank2 ++ d1 :: d2 :: d3 :: d4 :: d5 :: s11)
    with ([a; b] ++ (blank2 ++ d1 :: d2 :: d3 :: d4 :: d5 :: s11)).
  rewrite consumed_prefix. auto.
Qed.

Lemma search_groups_unfold (parts : list (bool * Re.regex)) (s : str) :
  search_groups parts s
  = match match_parts parts s [] (fun groups _ => Some groups) with
    | Some groups => Some groups
    | None => match s with
              | [] => None
              | _ :: t => search_groups parts t
              end
    end.
Proof. destruct s; reflexivity. Qed.

Lemma city_search_groups (s : str) (groups : list str) :
  search_groups city_pattern s = Some groups ->
  exists city a b,
    groups = [city; [a; b]]
    /\ forallb not_comma city = true
    /\ is_upper a = true /\ is_upper b = true.
Proof.
  induction s as [|c t IH]; rewrite search_groups_unfold;
    destruct (match_parts city_pattern _ [] _) as [g|] eqn:E;
    try discriminate; intros H.
  - injection H as <-. apply city_match_groups in E. exact E.
  - apply IH. exact H.
Qed.

Lemma upper_not_space (c : ascii) : is_upper c = true -> isspace c = false.
Proof. destruct c as [[] [] [] [] [] [] [] []]; vm_compute; congruence. Qed.

Lemma lstrip_forallb (p : ascii -> bool) (s : str) :
  forallb p s = true -> forallb p (lstrip s) = true.
Proof.
  induction s as [|c s IH]; [reflexivity|]. cbn [forallb lstrip]. intros H.
  apply andb_true_iff in H as [Hc Hs].
  destruct (isspace c); [apply IH; exact Hs|]. cbn [forallb]. rewrite Hc, Hs. reflexivity.
Qed.

Lemma rev_forallb (p : ascii -> bool) (s : str) :
  forallb p s = true -> forallb p (rev s) = true.
Proof.
  intros H. apply forallb_forall. intros x Hx. apply in_rev in Hx.
  exact (proj1 (forallb_forall _ _) H x Hx).
Qed.

Lemma strip_forallb (p : ascii -> bool) (s : str) :
  forallb p s = true -> forallb p (strip s) = true.
Proof.
  intros H. unfold strip.
  apply rev_forallb, lstrip_forallb, rev_forallb, lstrip_forallb. exact H.
Qed.

End AddressFacts.

(** X23.  The two address helpers succeed or fail together.  When they
    succeed, the state is exactly two upper-case ASCII letters and the city
    contains no comma. *)
Theorem address_parts_shape (address : str) :
  match Addresses.extract_city_from_address address,
        Addresses.extract_state_from_address address with
  | Some city, Some state =>
      (exists a b, state = [a; b] /\ is_upper a = true /\ is_upper b = true)
      /\ forallb Addresses.not_comma city = true
  | None, None => True
  | _, _ => False
  end.
Proof.
  unfold Addresses.extract_city_from_address, Addresses.extract_state_from_address.
  destruct (negb (truthy address)); [exact I|].
  destruct (Addresses.search_groups Addresses.city_pattern address) as [groups|] eqn:E;
    [|exact I].
  apply AddressFacts.city_search_groups in E as [city [a [b [-> [Hcity [Ha Hb]]]]]].
  cbn [nth]. split.
  - exists a, b. split; [|split; assumption].
    unfold strip. cbn [lstrip]. rewrite (AddressFacts.upper_not_space a Ha).
    cbn [rev app lstrip]. rewrite (AddressFacts.upper_not_space b Hb). reflexivity.
  - apply AddressFacts.strip_forallb. exact Hcity.
Qed.

Example address_parts_example :
  Addresses.extract_city_from_address (txt "5550 Centre Ave, Pittsburgh, PA 15232")
  = Some (txt "Pittsburgh")
  /\ Addresses.extract_state_from_address (txt "5550 Centre Ave, Pittsburgh, PA 15232")
     = Some (txt "PA")
  /\ Addresses.extract_city_from_address (txt "Pittsburgh PA 15232") = None.
Proof. vm_compute. repeat split. Qed.
